(** * Piano fingering planner: a shallow embedding of
      [src/core/FingeringPlanner.ts] and the properties of its planner.

    Number model.  The TypeScript code computes with JavaScript numbers.
    Pitches, measure numbers, indices and fingers are integers ([Z], [nat]).
    Costs are rationals ([Q]).  Every transition cost is an integer, possibly
    multiplied by one of the difficulty factors 1.3, 1.1 and 0.9, which the
    model takes as the exact rationals 13/10, 11/10 and 9/10; cumulative
    costs are exact sums.  The code computes these products and sums in
    double precision.  Model and code agree exactly where every cost is an
    integer (a double holds integers below 2^53 exactly): under the default
    difficulty (intermediate), and in scale mode at every level, where no
    factor is applied.  At the beginner and advanced levels outside scale
    mode the products and sums of the code are rounded.  The pruning test
    [cost > 300] is not affected: a transition cost is an integer [c] or [c]
    times a factor, so it differs from 300 by at least 0.1 when it differs at
    all.  But two cumulative costs that are equal as rationals can differ as
    doubles, and the code can then prefer another of the tied fingerings than
    the model does.  For this reason optimality ([dpOptimization_optimal])
    is stated for integer costs only; statements on lengths, on the fingers
    emitted, on pruning and defaults, and on what the result depends on do
    not rest on how such ties fall.  The ratios of scale detection are
    quotients of array lengths and differ from 0.8 and 0.6 by at least
    1 / (5 n) when they differ at all.  [Infinity] is the only non-finite
    value the code produces; it lives in the type [Num].

    Errors.  A property read on [undefined] throws a [TypeError]; functions
    that read array elements return an [option], [None] standing for the
    exception, and are shown to return [Some] on every input. *)

From Stdlib Require Import ZArith QArith String DecimalString Bool Lia Arith.
From Stdlib Require Import List.
Import ListNotations.

Open Scope Z_scope.

(** ** Data model *)

(** Modelled from the spec: the declarations of ['@/types'] are not part of
    the sources; the types of this section carry the fields the planner
    reads and writes.  A hand is RH or LH. *)
Inductive Hand : Type := RH | LH.

(** Modelled from the spec: the enumeration of pattern tags "including at
    least SCALE, POLYPHONIC, ORNAMENTED, UNKNOWN"; any further tag is an
    [OtherPattern]. *)
Inductive PatternType : Type :=
  | SCALE | POLYPHONIC | ORNAMENTED | UNKNOWN
  | OtherPattern (tag : string).

Inductive Difficulty : Type := beginner | intermediate | advanced.

(** Fingers are the numbers 1..5; the code subtracts and compares them. *)
Definition Finger := Z.

(** Modelled from the spec: a note has a pitch (integer semitone number), a
    hand and a measure number. *)
Record Note : Type := mkNote
  { pitch : Z; hand : Hand; measureNumber : Z }.

(** Modelled from the spec: a segment has integer bounds and a pattern
    type. *)
Record PatternSegment : Type := mkSegment
  { startIndex : Z; endIndex : Z; patternType : PatternType }.

(** Modelled from the spec: a cost with its explanation labels. *)
Record CostResult : Type := mkCost
  { cost : Q; reasons : list string }.

(** The object literals built by [analyzeHandPositions]. *)
Record HandPosition : Type := mkPos
  { anchorPitch : Z; inPosition : bool; isScale : bool }.

(** A JavaScript number that may be [Infinity]. *)
Inductive Num : Type :=
  | Fin (q : Q)
  | Infinity.

(** A cell of the DP table.  The parent string [`${i-1}-${fromFinger}`] is
    kept as the pair it is formatted from and parsed back into. *)
Record Cell : Type := mkCell
  { cell_cost : Q;
    cell_parent : option (nat * Finger);
    cell_reasons : list string }.

(** Modelled from the spec: the per-note decision record of [path], with
    the fields [backtrack] writes. *)
Record FingeringState : Type := mkState
  { noteIndex : nat;
    st_finger : Finger;
    st_hand : Hand;
    handPosition : Z;
    st_cost : Q;
    st_parent : option (nat * Finger);
    st_reasons : list string }.

(** Modelled from the spec: the result of planning. *)
Record FingeringSolution : Type := mkSolution
  { fingering : list Finger;
    totalCost : Num;
    path : list FingeringState;
    explanations : list string }.

(** ** Small helpers for JavaScript idioms *)

Definition Hand_eqb (a b : Hand) : bool :=
  match a, b with
  | RH, RH | LH, LH => true
  | _, _ => false
  end.

Definition isSCALE (p : PatternType) : bool :=
  match p with SCALE => true | _ => false end.

(** [a < b] on finite numbers. *)
Definition Qltb (a b : Q) : bool :=
  (Qnum a * QDen b <? Qnum b * QDen a)%Z.

(** [a < b] on numbers that may be [Infinity]. *)
Definition Num_ltb (a b : Num) : bool :=
  match a, b with
  | Fin x, Fin y => Qltb x y
  | Fin _, Infinity => true
  | Infinity, _ => false
  end.

Definition Num_add (a b : Num) : Num :=
  match a, b with
  | Fin x, Fin y => Fin (x + y)%Q
  | _, _ => Infinity
  end.

(** Template-literal rendering of an integer. *)
Definition showZ (z : Z) : string := NilZero.string_of_int (Z.to_int z).

(** [xs.join(sep)]. *)
Fixpoint join (sep : string) (xs : list string) : string :=
  match xs with
  | [] => EmptyString
  | [x] => x
  | x :: rest => (x ++ sep ++ join sep rest)%string
  end.

(** A running pair (cost, reasons) as the cost functions update it. *)
Definition Acc : Type := (Z * list string)%type.

Definition charge (c : Z) (r : string) (a : Acc) : Acc :=
  (fst a + c, snd a ++ [r]).

Definition chargeSilent (c : Z) (a : Acc) : Acc :=
  (fst a + c, snd a).

(** Error monad: [None] stands for a thrown [TypeError] (a property read on
    [undefined]). *)
Definition bind {A B : Type} (m : option A) (f : A -> option B) : option B :=
  match m with
  | Some x => f x
  | None => None
  end.

Notation "x <- m ;; k" := (bind m (fun x => k))
  (at level 61, m at next level, right associativity).

(** ** Lookup tables *)

Definition fingers : list Finger := [1; 2; 3; 4; 5].

(** [naturalSpans], keyed by [`${min}-${max}`]. *)
Definition naturalSpans : list ((Z * Z) * Z) :=
  [ ((1, 2), 2); ((2, 3), 2); ((3, 4), 1); ((4, 5), 2);
    ((1, 3), 4); ((2, 4), 3); ((3, 5), 3);
    ((1, 4), 5); ((2, 5), 5);
    ((1, 5), 8) ].

(** [transitionWeights], keyed by [`${from}->${to}`]. *)
Definition transitionWeights : list ((Z * Z) * Z) :=
  [ ((1, 2), 900); ((2, 1), 936); ((2, 3), 405); ((3, 2), 528);
    ((3, 4), 420); ((4, 3), 409); ((4, 5), 590); ((5, 4), 561);
    ((1, 3), 451); ((3, 1), 489); ((1, 4), 301); ((4, 1), 286);
    ((1, 5), 356); ((5, 1), 286); ((2, 4), 150); ((4, 2), 149);
    ((2, 5), 334); ((5, 2), 248); ((3, 5), 271); ((5, 3), 448) ].

Fixpoint lookupPair (k : Z * Z) (t : list ((Z * Z) * Z)) : option Z :=
  match t with
  | [] => None
  | ((a, b), v) :: rest =>
      if (a =? fst k) && (b =? snd k) then Some v else lookupPair k rest
  end.

Definition getNaturalSpan (finger1 finger2 : Finger) : Z :=
  match lookupPair (Z.min finger1 finger2, Z.max finger1 finger2) naturalSpans with
  | Some v => if v =? 0 then 0 else v
  | None => 0
  end.

Definition isBlackKey (p : Z) : bool :=
  let pitchClass := Z.rem p 12 in
  existsb (Z.eqb pitchClass) [1; 3; 6; 8; 10].

Definition applyDifficultyAdjustment
    (level : Difficulty) (c : Q) (patternContext : PatternType) : Q :=
  match level with
  | beginner =>
      match patternContext with
      | POLYPHONIC | ORNAMENTED => (c * (13 # 10))%Q
      | _ => (c * (11 # 10))%Q
      end
  | advanced => (c * (9 # 10))%Q
  | intermediate => c
  end.

(** ** Cost model *)

(** The five-finger ladder both cost functions compute from the offset. *)
Definition expectedFinger (h : Hand) (offset : Z) : Finger :=
  match h with
  | RH =>
      if offset <=? 0 then 1
      else if offset <=? 2 then 2
      else if offset <=? 4 then 3
      else if offset <=? 5 then 4
      else 5
  | LH =>
      if offset >=? 0 then 1
      else if offset >=? -2 then 2
      else if offset >=? -4 then 3
      else if offset >=? -5 then 4
      else 5
  end.

Definition computeInitialCost
    (finger : Finger) (note : Note) (h : Hand) (pos : HandPosition) : CostResult :=
  let offset := pitch note - anchorPitch pos in
  let expected := expectedFinger h offset in
  let a0 : Acc := (0, []) in
  let a1 :=
    if finger =? expected then charge (-30) "Matches hand position" a0
    else
      let diff := Z.abs (finger - expected) in
      charge (diff * 15) (showZ diff ++ " fingers from expected") a0 in
  let a2 :=
    if isBlackKey (pitch note) then
      if (finger =? 1) || (finger =? 5)
      then charge 20 "Short finger on black key" a1
      else charge (-5) "Long finger on black key" a1
    else a1 in
  mkCost (inject_Z (fst a2)) (snd a2).

Definition computeScaleTransitionCost
    (prevFinger currFinger : Finger) (ascending : bool) (h : Hand)
    (interval : Z) : CostResult :=
  let rhAscending := Hand_eqb h RH && ascending in
  let rhDescending := Hand_eqb h RH && negb ascending in
  let lhAscending := Hand_eqb h LH && ascending in
  let lhDescending := Hand_eqb h LH && negb ascending in
  let goodTransitions : list (Z * Z) :=
    (if rhAscending || lhDescending
     then [(1, 2); (2, 3); (3, 1); (3, 4); (4, 5)] else [])
    ++
    (if rhDescending || lhAscending
     then [(5, 4); (4, 3); (3, 2); (2, 1); (1, 3); (1, 2)] else []) in
  let isGoodTransition :=
    existsb (fun ft => (fst ft =? prevFinger) && (snd ft =? currFinger))
            goodTransitions in
  let a0 : Acc := (0, []) in
  let a1 :=
    if isGoodTransition then charge (-30) "Standard scale fingering" a0
    else if (prevFinger =? 3) && (currFinger =? 1)
      then charge (-20) "Thumb under (3->1)" a0
    else if (prevFinger =? 4) && (currFinger =? 1)
      then charge (-15) "Thumb under (4->1)" a0
    else if (prevFinger =? 1) && (currFinger =? 3)
      then charge (-20) "Finger over (1->3)" a0
    else if (prevFinger =? 1) && (currFinger =? 4)
      then charge (-10) "Finger over (1->4)" a0
    else charge 20 "Non-standard scale transition" a0 in
  let a2 :=
    if currFinger =? prevFinger then charge 40 "Same finger in scale" a1
    else a1 in
  let naturalSpan := getNaturalSpan prevFinger currFinger in
  let a3 :=
    if interval >? naturalSpan + 2
    then charge ((interval - naturalSpan) * 10) "Over-stretch in scale" a2
    else a2 in
  mkCost (inject_Z (fst a3)) (snd a3).

(** The part of [computeTransitionCost] below its scale-mode guard
    ("POSITION MODE" down to the difficulty adjustment). *)
Definition positionTransitionCost
    (level : Difficulty)
    (prevNote : Note) (prevFinger : Finger)
    (currNote : Note) (currFinger : Finger)
    (patternContext : PatternType) (h : Hand) (pos : HandPosition) : CostResult :=
  let interval := pitch currNote - pitch prevNote in
  let absInterval := Z.abs interval in
  let ascending := interval >? 0 in
  let offset := pitch currNote - anchorPitch pos in
  let expected := expectedFinger h offset in
  let a0 : Acc := (0, []) in
  (* position fit *)
  let a1 :=
    if inPosition pos && (currFinger =? expected)
    then charge (-40) "Correct finger for position" a0
    else if inPosition pos
    then charge (Z.abs (currFinger - expected) * 20) "Wrong finger for position" a0
    else a0 in
  (* natural finger progression *)
  let fingerDiff := currFinger - prevFinger in
  let crossing (a : Acc) :=
    if negb (interval =? 0) && negb (fingerDiff =? 0) then
      if negb (prevFinger =? 1) && negb (currFinger =? 1)
      then charge 50 "Unnatural finger crossing" a
      else a
    else a in
  let a2 :=
    match h with
    | RH =>
        if ascending && (fingerDiff >? 0)
        then charge (-15) "Natural RH ascending" a1
        else if negb ascending && (interval <? 0) && (fingerDiff <? 0)
        then charge (-15) "Natural RH descending" a1
        else crossing a1
    | LH =>
        if ascending && (fingerDiff <? 0)
        then charge (-15) "Natural LH ascending" a1
        else if negb ascending && (interval <? 0) && (fingerDiff >? 0)
        then charge (-15) "Natural LH descending" a1
        else crossing a1
    end in
  (* RULE 3: span constraint *)
  let naturalSpan := getNaturalSpan prevFinger currFinger in
  let overStretch := absInterval - naturalSpan in
  let a3 :=
    if overStretch >? 4 then charge (overStretch * 12) "Over-stretch" a2
    else if overStretch >? 2 then chargeSilent (overStretch * 6) a2
    else a2 in
  (* RULE 4: same finger on different pitch *)
  let a4 :=
    if (currFinger =? prevFinger) && negb (interval =? 0)
    then charge (absInterval * 8) "Same finger leap" a3
    else a3 in
  (* RULE 5: repeated note *)
  let a5 :=
    if (interval =? 0) && (currFinger =? prevFinger)
    then charge 30 "Same finger on repeated note" a4
    else if (interval =? 0) && negb (currFinger =? prevFinger)
    then charge (-10) "Good finger change on repeat" a4
    else a4 in
  (* RULE 6: validated transition bonus *)
  let a6 :=
    match lookupPair (prevFinger, currFinger) transitionWeights with
    | Some transWeight =>
        if transWeight =? 0 then a5
        else if transWeight >? 500 then chargeSilent (-10) a5
        else if transWeight >? 300 then chargeSilent (-6) a5
        else if transWeight >? 100 then chargeSilent (-3) a5
        else a5
    | None => a5
    end in
  (* RULE 7: black key preference for long fingers *)
  let a7 :=
    if isBlackKey (pitch currNote) then
      if (currFinger =? 1) || (currFinger =? 5)
      then charge 25 "Short finger on black key" a6
      else chargeSilent (-5) a6
    else a6 in
  (* RULE 8: thumb crossing for scales *)
  let isScaleContext := isSCALE patternContext in
  let a8 :=
    if isScaleContext then
      match h with
      | RH =>
          if ascending && (prevFinger =? 3) && (currFinger =? 1)
          then charge (-20) "Good thumb under (3->1)" a7
          else if negb ascending && (prevFinger =? 1) && (currFinger =? 3)
          then charge (-20) "Good finger over (1->3)" a7
          else a7
      | LH =>
          if negb ascending && (prevFinger =? 3) && (currFinger =? 1)
          then charge (-20) "Good thumb under (3->1)" a7
          else if ascending && (prevFinger =? 1) && (currFinger =? 3)
          then charge (-20) "Good finger over (1->3)" a7
          else a7
      end
    else a7 in
  mkCost (applyDifficultyAdjustment level (inject_Z (fst a8)) patternContext)
         (snd a8).

Definition computeTransitionCost
    (level : Difficulty)
    (prevNote : Note) (prevFinger : Finger)
    (currNote : Note) (currFinger : Finger)
    (patternContext : PatternType) (h : Hand) (pos : HandPosition) : CostResult :=
  let interval := pitch currNote - pitch prevNote in
  let absInterval := Z.abs interval in
  let ascending := interval >? 0 in
  (* SCALE MODE: use thumb crossing logic *)
  if isScale pos || isSCALE patternContext then
    computeScaleTransitionCost prevFinger currFinger ascending h absInterval
  else
    positionTransitionCost level prevNote prevFinger currNote currFinger
                           patternContext h pos.

(** ** Pattern context *)

(** [x >= pattern.startIndex && x <= pattern.endIndex]. *)
Definition inBounds (x : Z) (pattern : PatternSegment) : bool :=
  (x >=? startIndex pattern) && (x <=? endIndex pattern).

(** The first loop of [getPatternContext]. *)
Fixpoint firstByMeasure (note : Note) (patterns : list PatternSegment)
  : option PatternType :=
  match patterns with
  | [] => None
  | pattern :: rest =>
      if inBounds (measureNumber note) pattern
      then Some (patternType pattern)
      else firstByMeasure note rest
  end.

(** The second loop of [getPatternContext]. *)
Fixpoint firstByIndex (index : nat) (patterns : list PatternSegment)
  : option PatternType :=
  match patterns with
  | [] => None
  | pattern :: rest =>
      if inBounds (Z.of_nat index) pattern
      then Some (patternType pattern)
      else firstByIndex index rest
  end.

(** [notes[index]] is only read inside the first loop, so an index out of
    range throws only when there is a segment to test. *)
Definition getPatternContext
    (notes : list Note) (index : nat) (patterns : list PatternSegment)
  : option PatternType :=
  match patterns with
  | [] => Some UNKNOWN
  | _ :: _ =>
      note <- nth_error notes index ;;
      match firstByMeasure note patterns with
      | Some t => Some t
      | None =>
          match firstByIndex index patterns with
          | Some t => Some t
          | None => Some UNKNOWN
          end
      end
  end.

(** ** Position / scale analysis *)

(** State of the loop of [detectScalePattern]. *)
Record ScanState : Type := mkScan
  { stepwiseCount : Z; sameDirection : Z; lastDirection : Z }.

Definition scanStep (prev curr : Note) (s : ScanState) : ScanState :=
  let interval := pitch curr - pitch prev in
  let absInterval := Z.abs interval in
  if (absInterval =? 1) || (absInterval =? 2) then
    let direction := Z.sgn interval in
    mkScan (stepwiseCount s + 1)
           (if (direction =? lastDirection s) && negb (direction =? 0)
            then sameDirection s + 1 else sameDirection s)
           direction
  else s.

(** The loop [for (i = 1; i < notes.length; i++)] over the pairs
    [(notes[i-1], notes[i])]. *)
Fixpoint scanPairs (prev : Note) (rest : list Note) (s : ScanState) : ScanState :=
  match rest with
  | [] => s
  | curr :: rest' => scanPairs curr rest' (scanStep prev curr s)
  end.

Definition maxPitchOf (first : Z) (others : list Z) : Z :=
  fold_left Z.max others first.

Definition minPitchOf (first : Z) (others : list Z) : Z :=
  fold_left Z.min others first.

Definition detectScalePattern (notes : list Note) : bool :=
  if (length notes <? 8)%nat then false
  else
    match notes with
    | [] => false
    | first :: rest =>
        let s := scanPairs first rest (mkScan 0 0 0) in
        let n := Z.of_nat (length notes) in
        let stepwiseRatio := (inject_Z (stepwiseCount s) / inject_Z (n - 1))%Q in
        let directionRatio :=
          if n >? 2 then (inject_Z (sameDirection s) / inject_Z (n - 2))%Q
          else 0%Q in
        let pitches := map pitch rest in
        let range := maxPitchOf (pitch first) pitches
                     - minPitchOf (pitch first) pitches in
        Qltb (8 # 10) stepwiseRatio && Qltb (6 # 10) directionRatio
        && (range >? 7)
    end.

(** [for (j = from; j < to; j++) positions[j] = v].  The array has no hole:
    [from] never exceeds its length. *)
Definition fillRange {A : Type} (positions : list A) (from to : nat) (v : A)
  : list A :=
  firstn from positions ++ repeat v (to - from) ++ skipn to positions.

Definition anchorOf (h : Hand) (minPitch maxPitch : Z) : Z :=
  match h with RH => minPitch | LH => maxPitch end.

(** The segmentation loop of [analyzeHandPositions] from index [i] on,
    followed by the flush of the last segment. *)
Fixpoint positionScan (h : Hand) (rest : list Note) (i : nat)
    (positions : list HandPosition) (segmentStart : nat)
    (minPitch maxPitch : Z) : list HandPosition :=
  match rest with
  | [] =>
      fillRange positions segmentStart i
                (mkPos (anchorOf h minPitch maxPitch) true false)
  | note :: rest' =>
      let p := pitch note in
      let newMin := Z.min minPitch p in
      let newMax := Z.max maxPitch p in
      if newMax - newMin >? 7 then
        positionScan h rest' (S i)
          (fillRange positions segmentStart i
                     (mkPos (anchorOf h minPitch maxPitch) true false))
          i p p
      else
        positionScan h rest' (S i) positions segmentStart newMin newMax
  end.

Definition analyzeHandPositions (notes : list Note) (h : Hand)
  : list HandPosition :=
  match notes with
  | [] => []
  | first :: _ =>
      if detectScalePattern notes then
        fillRange [] 0 (length notes) (mkPos (pitch first) false true)
      else
        positionScan h notes 0 [] 0 (pitch first) (pitch first)
  end.

(** ** DP optimizer *)

(** A [Map] from finger keys to cells, in insertion order. *)
Definition Row : Type := list (Finger * Cell).

Fixpoint map_get (k : Finger) (r : Row) : option Cell :=
  match r with
  | [] => None
  | (k', c) :: rest => if k' =? k then Some c else map_get k rest
  end.

Fixpoint map_set (k : Finger) (c : Cell) (r : Row) : Row :=
  match r with
  | [] => [(k, c)]
  | (k', c') :: rest =>
      if k' =? k then (k', c) :: rest else (k', c') :: map_set k c rest
  end.

(** State of the loop over [fromFinger]. *)
Record Best : Type := mkBest
  { minCost : Num;
    bestParent : option (nat * Finger);
    bestReasons : list string }.

Section Forward.

Variable level : Difficulty.
Variable notes : list Note.
Variable patterns : list PatternSegment.
Variable h : Hand.
Variable handPositions : list HandPosition.

Definition relax (i : nat) (prevRow : Row) (prevNote currNote : Note)
    (patternContext : PatternType) (pos : HandPosition)
    (toFinger : Finger) (b : Best) (fromFinger : Finger) : Best :=
  match map_get fromFinger prevRow with
  | None => b
  | Some prevState =>
      let transitionCost :=
        computeTransitionCost level prevNote fromFinger currNote toFinger
                              patternContext h pos in
      if Qltb 300 (cost transitionCost) then b
      else
        let total := (cell_cost prevState + cost transitionCost)%Q in
        if Num_ltb (Fin total) (minCost b)
        then mkBest (Fin total) (Some ((i - 1)%nat, fromFinger))
                    (reasons transitionCost)
        else b
  end.

Definition fillCell (i : nat) (prevRow : Row) (prevNote currNote : Note)
    (patternContext : PatternType) (pos : HandPosition)
    (row : Row) (toFinger : Finger) : Row :=
  let b := fold_left
             (relax i prevRow prevNote currNote patternContext pos toFinger)
             fingers (mkBest Infinity None []) in
  match minCost b with
  | Fin c => map_set toFinger (mkCell c (bestParent b) (bestReasons b)) row
  | Infinity => row
  end.

(** Row [i] of the table from row [i - 1].  The lookups are strict: the
    model fails at least whenever the code would throw. *)
Definition nextRow (i : nat) (prevRow : Row) : option Row :=
  pos <- nth_error handPositions i ;;
  patternContext <- getPatternContext notes i patterns ;;
  prevNote <- nth_error notes (i - 1) ;;
  currNote <- nth_error notes i ;;
  Some (fold_left (fillCell i prevRow prevNote currNote patternContext pos)
                  fingers []).

(** One iteration of the forward pass. *)
Definition forwardRow (i : nat) (dp : list Row) : option Row :=
  prevRow <- nth_error dp (i - 1) ;;
  nextRow i prevRow.

(** [for (i = ...; i < n; i++)] with [steps = n - i] iterations left. *)
Fixpoint forwardLoop (steps : nat) (i : nat) (dp : list Row)
  : option (list Row) :=
  match steps with
  | O => Some dp
  | S steps' =>
      row <- forwardRow i dp ;;
      forwardLoop steps' (S i) (dp ++ [row])
  end.

End Forward.

Definition selectFinal (b : Num * Finger) (entry : Finger * Cell)
  : Num * Finger :=
  if Num_ltb (Fin (cell_cost (snd entry))) (fst b)
  then (Fin (cell_cost (snd entry)), fst entry)
  else b.

Definition explanationOf (state : option Cell) : string :=
  match state with
  | Some s => join "; " (cell_reasons s)
  | None => EmptyString
  end.

(** The loop [for (i = m - 1; i >= 0; i--)] of [backtrack].  [fingering[i]]
    and [explanations[i]] are written once each, in decreasing order of [i],
    into arrays of length [n]; [path.unshift] prepends. *)
Fixpoint backtrackLoop (dp : list Row) (notes : list Note) (h : Hand)
    (m : nat) (currentFinger : Finger)
    (fs : list Finger) (es : list string) (trail : list FingeringState)
  : option (list Finger * list string * list FingeringState) :=
  match m with
  | O => Some (fs, es, trail)
  | S i =>
      row <- nth_error dp i ;;
      note <- nth_error notes i ;;
      let state := map_get currentFinger row in
      let entry :=
        mkState i currentFinger h (pitch note)
                (match state with Some s => cell_cost s | None => 0%Q end)
                None
                (match state with Some s => cell_reasons s | None => [] end) in
      let next :=
        match state with
        | Some s =>
            match cell_parent s with
            | Some (_, prevFinger) => prevFinger
            | None => currentFinger
            end
        | None => currentFinger
        end in
      backtrackLoop dp notes h i next
                    (currentFinger :: fs)
                    (explanationOf state :: es)
                    (entry :: trail)
  end.

Definition backtrack (dp : list Row) (notes : list Note) (h : Hand)
  : option FingeringSolution :=
  match length notes with
  | O => None
  | S last =>
      lastRow <- nth_error dp last ;;
      let best := fold_left selectFinal lastRow (Infinity, 3) in
      r <- backtrackLoop dp notes h (S last) (snd best) [] [] [] ;;
      let '(fs, es, trail) := r in
      Some (mkSolution fs (fst best) trail es)
  end.

Definition initialRow (note : Note) (h : Hand) (firstPos : HandPosition) : Row :=
  fold_left
    (fun row finger =>
       let c := computeInitialCost finger note h firstPos in
       map_set finger (mkCell (cost c) None (reasons c)) row)
    fingers [].

(** The table [dp] that [dpOptimization] hands to [backtrack]. *)
Definition dpTable (level : Difficulty)
    (notes : list Note) (patterns : list PatternSegment) (h : Hand)
  : option (list Row) :=
  let n := length notes in
  let handPositions := analyzeHandPositions notes h in
  firstPos <- nth_error handPositions 0 ;;
  first <- nth_error notes 0 ;;
  forwardLoop level notes patterns h handPositions (n - 1) 1
              [initialRow first h firstPos].

Definition dpOptimization (level : Difficulty)
    (notes : list Note) (patterns : list PatternSegment) (h : Hand)
  : option FingeringSolution :=
  dp <- dpTable level notes patterns h ;;
  backtrack dp notes h.

(** ** Chunked optimizer *)

Definition chunkSize : nat := 32.
Definition overlapSize : nat := 4.

(** [notes.slice(i, j)] for [i <= j]. *)
Definition slice {A : Type} (l : list A) (i j : nat) : list A :=
  firstn (j - i) (skipn i l).

(** [for (i = ...; i < notes.length; i += chunkSize - overlapSize)]; [fuel]
    bounds the number of iterations, [chunkLoop_fuel] shows that the length
    of [notes] is always enough. *)
Fixpoint chunkLoop (fuel : nat) (notes : list Note) (i : nat)
  : list (list Note) :=
  match fuel with
  | O => []
  | S fuel' =>
      if (i <? length notes)%nat then
        let stop := Nat.min (i + chunkSize) (length notes) in
        slice notes i stop :: chunkLoop fuel' notes (i + (chunkSize - overlapSize))
      else []
  end.

(** [chunks.map(f)] where [f] may throw. *)
Fixpoint mapM {A B : Type} (f : A -> option B) (l : list A) : option (list B) :=
  match l with
  | [] => Some []
  | x :: rest =>
      y <- f x ;;
      ys <- mapM f rest ;;
      Some (y :: ys)
  end.

(** The stitching loop, from chunk number [i] on. *)
Fixpoint stitch (i : nat) (sols : list FingeringSolution)
    (fs : list Finger) (es : list string) (total : Num)
  : list Finger * list string * Num :=
  match sols with
  | [] => (fs, es, total)
  | sol :: rest =>
      let '(fs', es') :=
        if (i =? 0)%nat
        then (fs ++ fingering sol, es ++ explanations sol)
        else (fs ++ skipn overlapSize (fingering sol),
              es ++ skipn overlapSize (explanations sol)) in
      stitch (S i) rest fs' es' (Num_add total (totalCost sol))
  end.

Definition chunkedOptimization (level : Difficulty)
    (notes : list Note) (patterns : list PatternSegment) (h : Hand)
  : option FingeringSolution :=
  let chunks := chunkLoop (length notes) notes 0 in
  chunkSolutions <- mapM (fun chunk => dpOptimization level chunk patterns h)
                         chunks ;;
  let '(fs, es, total) := stitch 0 chunkSolutions [] [] (Fin 0) in
  Some (mkSolution fs total [] es).

(** ** Hand splitter and merger *)

Definition emptySolution : FingeringSolution := mkSolution [] (Fin 0) [] [].

Definition planHandFingering (level : Difficulty)
    (notes : list Note) (patterns : list PatternSegment) (h : Hand)
  : option FingeringSolution :=
  if (length notes =? 0)%nat then Some emptySolution
  else if (64 <? length notes)%nat
  then chunkedOptimization level notes patterns h
  else dpOptimization level notes patterns h.

(** [x || 3] on an array read. *)
Definition fingerOr3 (x : option Finger) : Finger :=
  match x with
  | Some f => if f =? 0 then 3 else f
  | None => 3
  end.

(** [x || ''] on an array read. *)
Definition stringOrEmpty (x : option string) : string :=
  match x with
  | Some s => s
  | None => EmptyString
  end.

(** The [forEach] of [planFingering]: index [i] of both arrays is written at
    the [i]-th note, in increasing order of [i]. *)
Fixpoint mergeLoop (rhSolution lhSolution : FingeringSolution)
    (notes : list Note) (rhIdx lhIdx : nat) : list Finger * list string :=
  match notes with
  | [] => ([], [])
  | note :: rest =>
      match hand note with
      | RH =>
          let '(fs, es) := mergeLoop rhSolution lhSolution rest (S rhIdx) lhIdx in
          (fingerOr3 (nth_error (fingering rhSolution) rhIdx) :: fs,
           stringOrEmpty (nth_error (explanations rhSolution) rhIdx) :: es)
      | LH =>
          let '(fs, es) := mergeLoop rhSolution lhSolution rest rhIdx (S lhIdx) in
          (fingerOr3 (nth_error (fingering lhSolution) lhIdx) :: fs,
           stringOrEmpty (nth_error (explanations lhSolution) lhIdx) :: es)
      end
  end.

Definition planFingering (level : Difficulty)
    (notes : list Note) (patterns : list PatternSegment)
  : option FingeringSolution :=
  if (length notes =? 0)%nat then Some emptySolution
  else
    let rhNotes := filter (fun n => Hand_eqb (hand n) RH) notes in
    let lhNotes := filter (fun n => Hand_eqb (hand n) LH) notes in
    rhSolution <- planHandFingering level rhNotes patterns RH ;;
    lhSolution <- planHandFingering level lhNotes patterns LH ;;
    let '(fs, es) := mergeLoop rhSolution lhSolution notes 0 0 in
    Some (mkSolution fs
                     (Num_add (totalCost rhSolution) (totalCost lhSolution))
                     (path rhSolution ++ path lhSolution)
                     es).


(** ** Notions used in the statements *)

(** The entries of an output array that sit at the notes of hand [h]. *)
Definition atHand {A : Type} (h : Hand) (notes : list Note) (xs : list A)
  : list A :=
  map snd (filter (fun p => Hand_eqb (hand (fst p)) h) (combine notes xs)).

(** Cumulative cost of a complete fingering of a hand's sequence, summed the
    way the forward pass does (initial cost, then one transition cost per
    note, left to right), without pruning. *)
Fixpoint transitionsCost (level : Difficulty) (notes : list Note)
    (patterns : list PatternSegment) (h : Hand)
    (handPositions : list HandPosition)
    (i : nat) (prevFinger : Finger) (rest : list Finger) (acc : Q)
  : option Q :=
  match rest with
  | [] => Some acc
  | toFinger :: rest' =>
      pos <- nth_error handPositions i ;;
      patternContext <- getPatternContext notes i patterns ;;
      prevNote <- nth_error notes (i - 1) ;;
      currNote <- nth_error notes i ;;
      transitionsCost level notes patterns h handPositions (S i) toFinger rest'
        (acc + cost (computeTransitionCost level prevNote prevFinger
                                           currNote toFinger
                                           patternContext h pos))%Q
  end.

Definition fingeringCost (level : Difficulty) (notes : list Note)
    (patterns : list PatternSegment) (h : Hand) (fs : list Finger)
  : option Q :=
  match fs with
  | [] => None
  | f0 :: rest =>
      let handPositions := analyzeHandPositions notes h in
      firstPos <- nth_error handPositions 0 ;;
      first <- nth_error notes 0 ;;
      transitionsCost level notes patterns h handPositions 1 f0 rest
                      (cost (computeInitialCost f0 first h firstPos))
  end.

(** Pitch intervals of the consecutive pairs of a sequence. *)
Fixpoint intervalsFrom (prev : Note) (rest : list Note) : list Z :=
  match rest with
  | [] => []
  | curr :: rest' => (pitch curr - pitch prev) :: intervalsFrom curr rest'
  end.

Definition intervals (notes : list Note) : list Z :=
  match notes with
  | [] => []
  | first :: rest => intervalsFrom first rest
  end.

Definition isStep (interval : Z) : bool :=
  (Z.abs interval =? 1) || (Z.abs interval =? 2).

Definition stepwisePairs (notes : list Note) : Z :=
  Z.of_nat (length (filter isStep (intervals notes))).

(** Number of signs in a list that are nonzero and equal to the nonzero sign
    seen last before them ([last] to begin with). *)
Fixpoint repeatsOfPrevious (last : Z) (signs : list Z) : Z :=
  match signs with
  | [] => 0
  | sg :: rest =>
      (if negb (sg =? 0) && (sg =? last) then 1 else 0)
      + repeatsOfPrevious (if sg =? 0 then last else sg) rest
  end.

(** Same-direction count over all consecutive pairs. *)
Definition sameDirectionAllPairs (notes : list Note) : Z :=
  repeatsOfPrevious 0 (map Z.sgn (intervals notes)).

(** Same-direction count over the stepwise pairs only: a stepwise pair counts
    when its direction is the direction of the stepwise pair before it. *)
Definition sameDirectionStepwise (notes : list Note) : Z :=
  repeatsOfPrevious 0 (map Z.sgn (filter isStep (intervals notes))).

(** The four criteria of scale detection, for a given same-direction count. *)
Definition scaleCriteria (sameDir : list Note -> Z) (notes : list Note) : Prop :=
  let n := Z.of_nat (length notes) in
  (8 <= length notes)%nat
  /\ (8 # 10 < inject_Z (stepwisePairs notes) / inject_Z (n - 1))%Q
  /\ (6 # 10 < inject_Z (sameDir notes) / inject_Z (n - 2))%Q
  /\ (exists a b, In a notes /\ In b notes /\ pitch a - pitch b > 7).

(** A segment contains a note by measure number, or by index. *)
Definition measureMatch (note : Note) (p : PatternSegment) : Prop :=
  startIndex p <= measureNumber note <= endIndex p.

Definition indexMatch (index : nat) (p : PatternSegment) : Prop :=
  startIndex p <= Z.of_nat index <= endIndex p.

(** Every edge from a present cell of [prevRow] to a cell of the next row is
    pruned: its transition cost alone exceeds 300. *)
Definition edgesPruned (level : Difficulty) (h : Hand) (prevRow : Row)
    (prevNote currNote : Note) (patternContext : PatternType)
    (pos : HandPosition) : bool :=
  forallb
    (fun toFinger =>
       forallb
         (fun fromFinger =>
            match map_get fromFinger prevRow with
            | Some _ =>
                Qltb 300 (cost (computeTransitionCost
                                  level prevNote fromFinger currNote toFinger
                                  patternContext h pos))
            | None => true
            end)
         fingers)
    fingers.

(** Every incoming edge of every cell at index [k] of the table of the
    forward pass is pruned. *)
Definition rowPruned (level : Difficulty) (notes : list Note)
    (patterns : list PatternSegment) (h : Hand) (k : nat) : bool :=
  match dpTable level notes patterns h with
  | Some dp =>
      match nth_error dp (k - 1),
            nth_error (analyzeHandPositions notes h) k,
            getPatternContext notes k patterns,
            nth_error notes (k - 1), nth_error notes k with
      | Some prevRow, Some pos, Some patternContext,
        Some prevNote, Some currNote =>
          edgesPruned level h prevRow prevNote currNote patternContext pos
      | _, _, _, _, _ => false
      end
  | None => false
  end.

(** All 25 finger-to-finger transitions into index [k] cost more than 300. *)
Definition allPruned (level : Difficulty) (notes : list Note)
    (patterns : list PatternSegment) (h : Hand) (k : nat) : bool :=
  match nth_error (analyzeHandPositions notes h) k,
        getPatternContext notes k patterns,
        nth_error notes (k - 1), nth_error notes k with
  | Some pos, Some patternContext, Some prevNote, Some currNote =>
      forallb
        (fun toFinger =>
           forallb
             (fun fromFinger =>
                Qltb 300 (cost (computeTransitionCost
                                  level prevNote fromFinger currNote toFinger
                                  patternContext h pos)))
             fingers)
        fingers
  | _, _, _, _ => false
  end.

(** The thumb-under and finger-over transitions of scale playing. *)
Definition idiomaticCrossing (h : Hand) (ascending : bool)
    (prevFinger currFinger : Finger) : Prop :=
  (h = RH /\ ascending = true /\ prevFinger = 3 /\ currFinger = 1)
  \/ (h = LH /\ ascending = false /\ prevFinger = 3 /\ currFinger = 1)
  \/ (h = RH /\ ascending = false /\ prevFinger = 1 /\ currFinger = 3)
  \/ (h = LH /\ ascending = true /\ prevFinger = 1 /\ currFinger = 3).

(** The notes of hand [h]. *)
Definition isHand (h : Hand) (n : Note) : bool := Hand_eqb (hand n) h.

(** [sol] is the DP optimizer's solution of [chunk], one entry per note. *)
Definition solves (level : Difficulty) (patterns : list PatternSegment)
    (h : Hand) (chunk : list Note) (sol : FingeringSolution) : Prop :=
  dpOptimization level chunk patterns h = Some sol
  /\ length (fingering sol) = length chunk
  /\ length (explanations sol) = length chunk.

(** [a <= b] on numbers that may be [Infinity]. *)
Definition Num_le (a b : Num) : Prop :=
  match a, b with
  | Fin x, Fin y => (x <= y)%Q
  | _, Infinity => True
  | Infinity, Fin _ => False
  end.

(** Cost of the edge of the table from cell [(i - 1, fromFinger)] to cell
    [(i, toFinger)], as the forward pass computes it. *)
Definition edgeCost (level : Difficulty) (notes : list Note)
    (patterns : list PatternSegment) (h : Hand)
    (i : nat) (fromFinger toFinger : Finger) : option Q :=
  pos <- nth_error (analyzeHandPositions notes h) i ;;
  patternContext <- getPatternContext notes i patterns ;;
  prevNote <- nth_error notes (i - 1) ;;
  currNote <- nth_error notes i ;;
  Some (cost (computeTransitionCost level prevNote fromFinger currNote toFinger
                                    patternContext h pos)).

(** Cumulative cost of continuing a fingering with the fingers [rest] from
    index [i] on, [Infinity] as soon as an edge is pruned (costs more than
    300 on its own). *)
Fixpoint extendCost (level : Difficulty) (notes : list Note)
    (patterns : list PatternSegment) (h : Hand)
    (i : nat) (prevFinger : Finger) (rest : list Finger) (acc : Q) : Num :=
  match rest with
  | [] => Fin acc
  | toFinger :: rest' =>
      match edgeCost level notes patterns h i prevFinger toFinger with
      | Some c =>
          if Qltb 300 c then Infinity
          else extendCost level notes patterns h (S i) toFinger rest'
                          (acc + c)%Q
      | None => Infinity
      end
  end.

(** Cumulative cost of a fingering of the first notes of a hand's sequence:
    the initial cost of its first finger, then one transition cost per
    further finger, summed left to right as the forward pass does;
    [Infinity] when it uses a pruned edge. *)
Definition admissibleCost (level : Difficulty) (notes : list Note)
    (patterns : list PatternSegment) (h : Hand) (fs : list Finger) : Num :=
  match fs, nth_error notes 0, nth_error (analyzeHandPositions notes h) 0 with
  | f0 :: rest, Some first, Some firstPos =>
      extendCost level notes patterns h 1 f0 rest
                 (cost (computeInitialCost f0 first h firstPos))
  | _, _, _ => Infinity
  end.

(** A note lies within the five-finger span of its position: at most 7
    semitones above the anchor for the right hand, below it for the left. *)
Definition withinSpan (h : Hand) (note : Note) (pos : HandPosition) : Prop :=
  inPosition pos = true /\ isScale pos = false
  /\ match h with
     | RH => 0 <= pitch note - anchorPitch pos <= 7
     | LH => 0 <= anchorPitch pos - pitch note <= 7
     end.

(** The pattern types that the beginner level scales by 1.3. *)
Definition isDense (p : PatternType) : bool :=
  match p with
  | POLYPHONIC | ORNAMENTED => true
  | _ => false
  end.

(** The explanation that [backtrack] derives from the reasons of a path
    record. *)
Definition recordExplanation (st : FingeringState) : string :=
  join "; " (st_reasons st).

(** ** Example inputs *)

Definition rhNote (p : Z) : Note := mkNote p RH 1.
Definition lhNote (p : Z) : Note := mkNote p LH 1.

(** C major, ascending, right hand. *)
Definition cMajorScale : list Note :=
  map rhNote [60; 62; 64; 65; 67; 69; 71; 72; 74; 76].

(** A leap of a fourth, then steps up with one turn back. *)
Definition leapThenSteps : list Note :=
  map rhNote [60; 65; 67; 69; 71; 73; 71; 73].

(** Two right-hand notes a hundred semitones apart. *)
Definition farLeap : list Note := [rhNote 12; rhNote 112].

(** Hands of 64 and of 65 notes. *)
Definition sixtyFour : list Note := repeat (rhNote 60) 64.
Definition sixtyFive : list Note := repeat (rhNote 60) 65.

(** A right hand of 65 notes, the note at index [k] with pitch [k], all in
    measure 100; and a segment whose bounds contain 40 only. *)
Definition longHand : list Note :=
  map (fun k => mkNote (Z.of_nat k) RH 100) (seq 0 65).
Definition segmentForty : list PatternSegment := [mkSegment 40 40 SCALE].

(** A broken chord in the right hand. *)
Definition brokenChord : list Note := [rhNote 60; rhNote 64; rhNote 67].

(** A chromatic run of nine notes down from C5, left hand. *)
Definition chromaticDown : list Note :=
  map lhNote [72; 71; 70; 69; 68; 67; 66; 65; 64].

(** Two steps and then a leap of four octaves, right hand, measure 1; and a
    segment that puts measure 1 in SCALE context. *)
Definition wideLeap : list Note := [rhNote 60; rhNote 62; rhNote 110].
Definition scaleMeasureOne : list PatternSegment := [mkSegment 1 1 SCALE].

(** A step up from C4 to D4, right hand, measure 1. *)
Definition stepUp : list Note := [rhNote 60; rhNote 62].

(** Two pieces with the same right hand and different left hands. *)
Definition pieceA : list Note :=
  [rhNote 60; lhNote 40; rhNote 64; rhNote 67].
Definition pieceB : list Note :=
  [lhNote 30; lhNote 35; rhNote 60; rhNote 64; lhNote 50; rhNote 67].

(** ** Pattern context: first match, by measure number and then by index *)

Lemma inBounds_iff x p :
  inBounds x p = true <-> startIndex p <= x <= endIndex p.
Proof.
  unfold inBounds. rewrite andb_true_iff, Z.geb_le, Z.leb_le. tauto.
Qed.

Lemma inBounds_false x p :
  ~ (startIndex p <= x <= endIndex p) -> inBounds x p = false.
Proof.
  intros H. destruct (inBounds x p) eqn:E; [| reflexivity].
  apply inBounds_iff in E. contradiction.
Qed.

Lemma firstByMeasure_first note before p after :
  (forall q, In q before -> ~ measureMatch note q) ->
  measureMatch note p ->
  firstByMeasure note (before ++ p :: after) = Some (patternType p).
Proof.
  intros Hbefore Hp. induction before as [| q before IH]; simpl.
  - apply inBounds_iff in Hp. now rewrite Hp.
  - rewrite inBounds_false by (apply Hbefore; now left).
    apply IH. intros r Hr. apply Hbefore. now right.
Qed.

Lemma firstByMeasure_none note patterns :
  (forall q, In q patterns -> ~ measureMatch note q) ->
  firstByMeasure note patterns = None.
Proof.
  induction patterns as [| q patterns IH]; intros H; simpl; [reflexivity |].
  rewrite inBounds_false by (apply H; now left).
  apply IH. intros r Hr. apply H. now right.
Qed.

Lemma firstByIndex_first index before p after :
  (forall q, In q before -> ~ indexMatch index q) ->
  indexMatch index p ->
  firstByIndex index (before ++ p :: after) = Some (patternType p).
Proof.
  intros Hbefore Hp. induction before as [| q before IH]; simpl.
  - apply inBounds_iff in Hp. now rewrite Hp.
  - rewrite inBounds_false by (apply Hbefore; now left).
    apply IH. intros r Hr. apply Hbefore. now right.
Qed.

Lemma firstByIndex_none index patterns :
  (forall q, In q patterns -> ~ indexMatch index q) ->
  firstByIndex index patterns = None.
Proof.
  induction patterns as [| q patterns IH]; intros H; simpl; [reflexivity |].
  rewrite inBounds_false by (apply H; now left).
  apply IH. intros r Hr. apply H. now right.
Qed.

Lemma getPatternContext_unfold notes index patterns note :
  nth_error notes index = Some note ->
  getPatternContext notes index patterns =
  match firstByMeasure note patterns with
  | Some t => Some t
  | None =>
      match firstByIndex index patterns with
      | Some t => Some t
      | None => Some UNKNOWN
      end
  end.
Proof.
  intros Hnote. unfold getPatternContext.
  destruct patterns as [| p patterns]; [reflexivity |].
  rewrite Hnote. reflexivity.
Qed.

Lemma getPatternContext_total notes index patterns :
  (index < length notes)%nat ->
  exists t, getPatternContext notes index patterns = Some t.
Proof.
  intros Hlt. destruct (nth_error notes index) as [note |] eqn:E.
  - rewrite (getPatternContext_unfold _ _ _ _ E).
    destruct (firstByMeasure note patterns); [eauto |].
    destruct (firstByIndex index patterns); eauto.
  - apply nth_error_None in E. lia.
Qed.

(** C7, as amended.  The pattern context of the note at [index] of the
    sequence handed to the DP optimizer (a hand's whole sequence, or one
    32-note window of a hand of more than 64 notes) is the type of the first
    segment, in the order supplied, whose bounds contain the note's measure
    number; when no segment contains the measure number, it is the type of
    the first segment whose bounds contain [index]; when no segment matches
    either way it is UNKNOWN. *)
Theorem pattern_context_first_match notes index patterns note :
  nth_error notes index = Some note ->
  (forall before p after,
      patterns = before ++ p :: after ->
      (forall q, In q before -> ~ measureMatch note q) ->
      measureMatch note p ->
      getPatternContext notes index patterns = Some (patternType p))
  /\ (forall before p after,
      patterns = before ++ p :: after ->
      (forall q, In q patterns -> ~ measureMatch note q) ->
      (forall q, In q before -> ~ indexMatch index q) ->
      indexMatch index p ->
      getPatternContext notes index patterns = Some (patternType p))
  /\ ((forall q, In q patterns ->
                 ~ measureMatch note q /\ ~ indexMatch index q) ->
      getPatternContext notes index patterns = Some UNKNOWN).
Proof.
  intros Hnote. rewrite (getPatternContext_unfold _ _ _ _ Hnote).
  split; [| split].
  - intros before p after -> Hbefore Hp.
    now rewrite (firstByMeasure_first _ _ _ _ Hbefore Hp).
  - intros before p after Hsplit Hmeasure Hbefore Hp.
    rewrite (firstByMeasure_none _ _ Hmeasure). subst patterns.
    now rewrite (firstByIndex_first _ _ _ _ Hbefore Hp).
  - intros Hnone.
    rewrite firstByMeasure_none by (intros q Hq; apply (Hnone q Hq)).
    rewrite firstByIndex_none by (intros q Hq; apply (Hnone q Hq)).
    reflexivity.
Qed.

(** The pattern context prefers a later segment that contains the measure
    number to an earlier one that contains only the index, and the first of
    two overlapping segments wins. *)
Lemma pattern_context_first_match_witness :
  getPatternContext [mkNote 60 RH 5] 0
    [mkSegment 0 0 SCALE; mkSegment 5 5 POLYPHONIC; mkSegment 5 9 ORNAMENTED]
  = Some POLYPHONIC.
Proof.
  apply (proj1 (pattern_context_first_match
                  [mkNote 60 RH 5] 0
                  [mkSegment 0 0 SCALE; mkSegment 5 5 POLYPHONIC;
                   mkSegment 5 9 ORNAMENTED]
                  (mkNote 60 RH 5) eq_refl)
               [mkSegment 0 0 SCALE] (mkSegment 5 5 POLYPHONIC)
               [mkSegment 5 9 ORNAMENTED] eq_refl).
  - intros q [<- | []]. unfold measureMatch. simpl. lia.
  - unfold measureMatch. simpl. lia.
Defined.

(** C7, as stated, fails for a hand of more than 64 notes.  The note at
    index 40 of [longHand] is planned in the second window (notes 28..59), at
    index 12 of that window; the segment with bounds [40, 40] contains its
    index in the hand's sequence, yet its pattern context is UNKNOWN. *)
Lemma pattern_context_window_counterexample :
  planHandFingering intermediate longHand segmentForty RH
  = chunkedOptimization intermediate longHand segmentForty RH
  /\ nth_error (chunkLoop (length longHand) longHand 0) 1
     = Some (slice longHand 28 60)
  /\ nth_error (slice longHand 28 60) 12 = nth_error longHand 40
  /\ getPatternContext longHand 40 segmentForty = Some SCALE
  /\ getPatternContext (slice longHand 28 60) 12 segmentForty = Some UNKNOWN
  /\ getPatternContext (slice longHand 28 60) 12 segmentForty
     <> getPatternContext longHand 40 segmentForty.
Proof.
  split; [reflexivity |]. split; [reflexivity |]. split; [reflexivity |].
  split; [reflexivity |]. split; [reflexivity |].
  vm_compute. discriminate.
Qed.

(** ** Scale detection *)

Lemma Qltb_lt a b : Qltb a b = true <-> (a < b)%Q.
Proof. unfold Qltb, Qlt. apply Z.ltb_lt. Qed.

Lemma Qltb_ge a b : Qltb a b = false <-> (b <= a)%Q.
Proof. unfold Qltb, Qle. apply Z.ltb_ge. Qed.

Lemma isStep_sgn x : isStep x = true -> (Z.sgn x =? 0) = false.
Proof.
  unfold isStep. rewrite orb_true_iff, !Z.eqb_eq, Z.eqb_neq. lia.
Qed.

Lemma scanPairs_counts rest :
  forall prev s,
    stepwiseCount (scanPairs prev rest s)
    = stepwiseCount s
      + Z.of_nat (length (filter isStep (intervalsFrom prev rest)))
    /\ sameDirection (scanPairs prev rest s)
       = sameDirection s
         + repeatsOfPrevious (lastDirection s)
             (map Z.sgn (filter isStep (intervalsFrom prev rest))).
Proof.
  induction rest as [| curr rest IH]; intros prev s.
  - simpl. split; lia.
  - cbn [scanPairs intervalsFrom filter].
    destruct (IH curr (scanStep prev curr s)) as [Hstep Hsame].
    rewrite Hstep, Hsame. unfold scanStep.
    fold (isStep (pitch curr - pitch prev)).
    destruct (isStep (pitch curr - pitch prev)) eqn:E.
    + cbn [stepwiseCount sameDirection lastDirection map length
           repeatsOfPrevious].
      rewrite (isStep_sgn _ E), Nat2Z.inj_succ, andb_true_r.
      cbn [negb andb].
      destruct (Z.sgn (pitch curr - pitch prev) =? lastDirection s);
        split; lia.
    + split; reflexivity.
Qed.

Lemma fold_max_bounds l :
  forall a, a <= fold_left Z.max l a
            /\ (forall x, In x l -> x <= fold_left Z.max l a).
Proof.
  induction l as [| y l IH]; intros a; simpl.
  - split; [lia | intros x []].
  - destruct (IH (Z.max a y)) as [Ha Hl]. split; [lia |].
    intros x [<- | Hx]; [lia | now apply Hl].
Qed.

Lemma fold_max_attained l :
  forall a, fold_left Z.max l a = a \/ In (fold_left Z.max l a) l.
Proof.
  induction l as [| y l IH]; intros a; simpl; [now left |].
  destruct (IH (Z.max a y)) as [H | H]; [| now right; right].
  rewrite H. destruct (Z.max_spec a y) as [[_ ->] | [_ ->]]; auto.
Qed.

Lemma fold_min_bounds l :
  forall a, fold_left Z.min l a <= a
            /\ (forall x, In x l -> fold_left Z.min l a <= x).
Proof.
  induction l as [| y l IH]; intros a; simpl.
  - split; [lia | intros x []].
  - destruct (IH (Z.min a y)) as [Ha Hl]. split; [lia |].
    intros x [<- | Hx]; [lia | now apply Hl].
Qed.

Lemma fold_min_attained l :
  forall a, fold_left Z.min l a = a \/ In (fold_left Z.min l a) l.
Proof.
  induction l as [| y l IH]; intros a; simpl; [now left |].
  destruct (IH (Z.min a y)) as [H | H]; [| now right; right].
  rewrite H. destruct (Z.min_spec a y) as [[_ ->] | [_ ->]]; auto.
Qed.

Lemma pitch_attained first rest v :
  v = pitch first \/ In v (map pitch rest) ->
  exists a, In a (first :: rest) /\ pitch a = v.
Proof.
  intros [-> | H].
  - exists first. split; [now left | reflexivity].
  - apply in_map_iff in H. destruct H as [a [Ha Hin]].
    exists a. split; [now right | assumption].
Qed.

Lemma range_spec first rest :
  maxPitchOf (pitch first) (map pitch rest)
  - minPitchOf (pitch first) (map pitch rest) > 7
  <-> exists a b, In a (first :: rest) /\ In b (first :: rest)
                  /\ pitch a - pitch b > 7.
Proof.
  unfold maxPitchOf, minPitchOf.
  destruct (fold_max_bounds (map pitch rest) (pitch first)) as [Hmax0 Hmax].
  destruct (fold_min_bounds (map pitch rest) (pitch first)) as [Hmin0 Hmin].
  split.
  - intros Hrange.
    destruct (pitch_attained first rest _
                (fold_max_attained (map pitch rest) (pitch first)))
      as [a [Ha Hpa]].
    destruct (pitch_attained first rest _
                (fold_min_attained (map pitch rest) (pitch first)))
      as [b [Hb Hpb]].
    exists a, b. repeat split; try assumption. lia.
  - intros [a [b [Ha [Hb Hab]]]].
    assert (Hle : forall x, In x (first :: rest) ->
                  fold_left Z.min (map pitch rest) (pitch first) <= pitch x
                  <= fold_left Z.max (map pitch rest) (pitch first)).
    { intros x [<- | Hx]; [lia |].
      split; [apply Hmin | apply Hmax]; now apply in_map. }
    specialize (Hle a Ha) as Hla. specialize (Hle b Hb) as Hlb. lia.
Qed.

Lemma detectScalePattern_criteria notes :
  detectScalePattern notes = true
  <-> scaleCriteria sameDirectionStepwise notes.
Proof.
  unfold detectScalePattern, scaleCriteria.
  destruct (Nat.ltb_spec (length notes) 8) as [Hshort | Hlong].
  - split; [discriminate | intros [H _]; lia].
  - destruct notes as [| first rest]; [simpl in Hlong; lia |].
    destruct (scanPairs_counts rest first (mkScan 0 0 0)) as [Hstep Hsame].
    simpl stepwiseCount in *. simpl sameDirection in *.
    simpl lastDirection in *.
    cbv zeta. rewrite Hstep, Hsame.
    replace (Z.of_nat (length (first :: rest)) >? 2) with true
      by (symmetry; apply Z.gtb_lt; lia).
    rewrite !andb_true_iff, !Qltb_lt, Z.gtb_lt.
    unfold stepwisePairs, sameDirectionStepwise, intervals.
    rewrite <- (Z.gt_lt_iff _ 7), range_spec.
    rewrite !Z.add_0_l. tauto.
Qed.

Lemma fillRange_fresh {A : Type} (v : A) n : fillRange [] 0 n v = repeat v n.
Proof.
  unfold fillRange. rewrite Nat.sub_0_r, skipn_nil, app_nil_r. reflexivity.
Qed.

Lemma scale_positions notes h first rest :
  notes = first :: rest ->
  detectScalePattern notes = true ->
  analyzeHandPositions notes h
  = repeat (mkPos (pitch first) false true) (length notes).
Proof.
  intros -> Hscale. unfold analyzeHandPositions.
  rewrite Hscale. apply fillRange_fresh.
Qed.

(** C4, as amended.  A sequence of [n] notes is classified as a scale exactly
    when [n >= 8], more than 0.8 of its [n - 1] consecutive pairs are
    stepwise, the number of stepwise pairs that move in the direction of the
    stepwise pair before them exceeds 0.6 of [n - 2], and two of its pitches
    are more than 7 semitones apart; and then every note's position is
    [{anchorPitch: first pitch, inPosition: false, isScale: true}]. *)
Theorem scale_classification notes h :
  (detectScalePattern notes = true
   <-> scaleCriteria sameDirectionStepwise notes)
  /\ (detectScalePattern notes = true ->
      forall first i,
        nth_error notes 0 = Some first ->
        (i < length notes)%nat ->
        nth_error (analyzeHandPositions notes h) i
        = Some (mkPos (pitch first) false true)).
Proof.
  split; [apply detectScalePattern_criteria |].
  intros Hscale first i Hfirst Hi.
  destruct notes as [| first' rest]; [discriminate |].
  injection Hfirst as ->.
  rewrite (scale_positions _ h first rest eq_refl Hscale).
  now apply nth_error_repeat.
Qed.

Lemma scale_classification_witness :
  detectScalePattern cMajorScale = true
  /\ nth_error (analyzeHandPositions cMajorScale RH) 9
     = Some (mkPos 60 false true).
Proof.
  assert (Hscale : detectScalePattern cMajorScale = true).
  { apply (proj1 (scale_classification cMajorScale RH)).
    unfold scaleCriteria. repeat split.
    - simpl. lia.
    - exists (rhNote 76), (rhNote 60). simpl. repeat split; try lia; tauto. }
  split; [exact Hscale |].
  apply (proj2 (scale_classification cMajorScale RH) Hscale (rhNote 60) 9%nat).
  - reflexivity.
  - simpl. lia.
Defined.

(** C4, as stated, fails: with the same-direction count taken over all
    consecutive pairs, [leapThenSteps] (60 65 67 69 71 73 71 73) meets the
    four criteria (6 of 7 pairs stepwise, 4 of 6 interval signs repeat the
    previous sign, range 13) but is not classified as a scale: the code counts
    only 3 same-direction pairs, since the opening leap is not stepwise. *)
Lemma scale_classification_counterexample :
  ~ (detectScalePattern leapThenSteps = true
     <-> scaleCriteria sameDirectionAllPairs leapThenSteps).
Proof.
  intros [_ Hclaim].
  assert (Hscale : detectScalePattern leapThenSteps = true).
  { apply Hclaim. unfold scaleCriteria. repeat split.
    - simpl. lia.
    - exists (rhNote 73), (rhNote 60). simpl. repeat split; try lia; tauto. }
  vm_compute in Hscale. discriminate.
Qed.

(** ** The DP optimizer returns, with one entry per note *)

Lemma fillRange_length {A : Type} (positions : list A) from to v :
  length positions = from -> (from <= to)%nat ->
  length (fillRange positions from to v) = to.
Proof.
  intros Hlen Hle. unfold fillRange.
  rewrite !length_app, length_firstn, repeat_length, length_skipn. lia.
Qed.

Lemma positionScan_length h rest :
  forall i positions segmentStart lo hi,
    length positions = segmentStart -> (segmentStart <= i)%nat ->
    length (positionScan h rest i positions segmentStart lo hi)
    = (i + length rest)%nat.
Proof.
  induction rest as [| note rest IH]; intros i positions s lo hi Hlen Hle; simpl.
  - rewrite fillRange_length by assumption. lia.
  - destruct (Z.max hi (pitch note) - Z.min lo (pitch note) >? 7).
    + rewrite IH; [lia | | lia]. now apply fillRange_length.
    + rewrite IH; [lia | assumption | lia].
Qed.

Lemma analyzeHandPositions_length notes h :
  length (analyzeHandPositions notes h) = length notes.
Proof.
  unfold analyzeHandPositions. destruct notes as [| first rest]; [reflexivity |].
  destruct (detectScalePattern (first :: rest)).
  - rewrite fillRange_fresh. apply repeat_length.
  - now rewrite positionScan_length.
Qed.

Lemma nth_error_in_range {A : Type} (l : list A) i :
  (i < length l)%nat -> exists x, nth_error l i = Some x.
Proof.
  intros H. destruct (nth_error l i) eqn:E; [eauto |].
  apply nth_error_None in E. lia.
Qed.

Section ForwardFacts.

Variable level : Difficulty.
Variable notes : list Note.
Variable patterns : list PatternSegment.
Variable h : Hand.
Variable handPositions : list HandPosition.
(** What a successful forward pass leaves in the table: the rows it was
    given, then one row per index, each computed from the row before. *)
Lemma forwardLoop_rows steps :
  forall i dp dp',
    forwardLoop level notes patterns h handPositions steps i dp = Some dp' ->
    length dp = i -> (1 <= i)%nat ->
    length dp' = (i + steps)%nat
    /\ (forall j, (j < i)%nat -> nth_error dp' j = nth_error dp j)
    /\ (forall j, (i <= j < i + steps)%nat ->
          exists prevRow row,
            nth_error dp' (j - 1) = Some prevRow
            /\ nth_error dp' j = Some row
            /\ nextRow level notes patterns h handPositions j prevRow
               = Some row).
Proof.
  induction steps as [| steps IH]; intros i dp dp' Hrun Hlen Hi; simpl in Hrun.
  - injection Hrun as <-. split; [lia | split].
    + intros j _. reflexivity.
    + intros j Hj. lia.
  - unfold forwardRow in Hrun.
    destruct (nth_error dp (i - 1)) as [prevRow |] eqn:Eprev;
      [| discriminate].
    simpl in Hrun.
    destruct (nextRow level notes patterns h handPositions i prevRow)
      as [row |] eqn:Erow; [| discriminate].
    simpl in Hrun.
    destruct (IH (S i) (dp ++ [row]) dp' Hrun) as [Hlen' [Hold Hnew]].
    { rewrite length_app. simpl. lia. }
    { lia. }
    assert (Hkeep : forall j, (j < i)%nat -> nth_error dp' j = nth_error dp j).
    { intros j Hj. rewrite Hold by lia. apply nth_error_app1. lia. }
    split; [lia | split; [exact Hkeep |]].
    intros j Hj. destruct (Nat.eq_dec j i) as [-> | Hne].
    + exists prevRow, row. split; [| split; [| exact Erow]].
      * rewrite Hkeep by lia. exact Eprev.
      * rewrite Hold by lia. rewrite nth_error_app2 by lia.
        rewrite Hlen, Nat.sub_diag. reflexivity.
    + apply Hnew. lia.
Qed.

Hypothesis positions_length : length handPositions = length notes.

Lemma nextRow_total i prevRow :
  (i < length notes)%nat ->
  exists row, nextRow level notes patterns h handPositions i prevRow = Some row.
Proof.
  intros Hi. unfold nextRow.
  destruct (nth_error_in_range handPositions i) as [pos ->]; [lia |].
  destruct (getPatternContext_total notes i patterns Hi) as [t ->].
  destruct (nth_error_in_range notes (i - 1)) as [prevNote ->]; [lia |].
  destruct (nth_error_in_range notes i Hi) as [currNote ->].
  simpl. eauto.
Qed.

Lemma forwardLoop_total steps :
  forall i dp,
    length dp = i -> (1 <= i)%nat -> (i + steps = length notes)%nat ->
    exists dp',
      forwardLoop level notes patterns h handPositions steps i dp = Some dp'.
Proof.
  induction steps as [| steps IH]; intros i dp Hlen Hi Hn; simpl; [eauto |].
  unfold forwardRow.
  destruct (nth_error_in_range dp (i - 1)) as [prevRow ->]; [lia |].
  simpl.
  destruct (nextRow_total i prevRow) as [row ->]; [lia |].
  simpl. apply IH; [| lia | lia].
  rewrite length_app. simpl. lia.
Qed.

End ForwardFacts.

Lemma dpTable_total level notes patterns h :
  notes <> [] ->
  exists dp, dpTable level notes patterns h = Some dp
             /\ length dp = length notes.
Proof.
  intros Hne. unfold dpTable.
  pose proof (analyzeHandPositions_length notes h) as Hpos.
  destruct notes as [| first rest]; [contradiction |].
  destruct (nth_error_in_range (analyzeHandPositions (first :: rest) h) 0)
    as [firstPos ->]; [rewrite Hpos; simpl; lia |].
  cbn [nth_error bind].
  destruct (forwardLoop_total level (first :: rest) patterns h
              (analyzeHandPositions (first :: rest) h) Hpos
              (length (first :: rest) - 1) 1
              [initialRow first h firstPos]) as [dp Hdp];
    [reflexivity | lia | simpl; lia |].
  exists dp. split; [exact Hdp |].
  destruct (forwardLoop_rows level (first :: rest) patterns h
              (analyzeHandPositions (first :: rest) h)
              _ _ _ _ Hdp eq_refl (le_n 1)) as [Hlen _].
  rewrite Hlen. simpl. lia.
Qed.

(** The backtracking loop over indices [m - 1 .. 0] puts [m] entries in front
    of what the arrays already hold. *)
Lemma backtrackLoop_total dp notes h m :
  forall cur fs es trail,
    (m <= length dp)%nat -> (m <= length notes)%nat ->
    exists fs0 es0 trail',
      backtrackLoop dp notes h m cur fs es trail
      = Some (fs0 ++ fs, es0 ++ es, trail')
      /\ length fs0 = m /\ length es0 = m.
Proof.
  induction m as [| i IH]; intros cur fs es trail Hdp Hnotes.
  - exists [], [], trail. simpl. auto.
  - cbn [backtrackLoop].
    destruct (nth_error_in_range dp i) as [row ->]; [lia |].
    destruct (nth_error_in_range notes i) as [note ->]; [lia |].
    cbn [bind].
    match goal with
    | |- context [backtrackLoop dp notes h i ?next ?fs' ?es' ?trail'] =>
        destruct (IH next fs' es' trail') as [fs0 [es0 [tr [Hrun [Hf He]]]]];
          [lia | lia |]
    end.
    rewrite Hrun.
    exists (fs0 ++ [cur]), (es0 ++ [explanationOf (map_get cur row)]), tr.
    rewrite <- !app_assoc, !length_app. simpl. repeat split; lia.
Qed.

Lemma backtrack_total dp notes h :
  notes <> [] -> length dp = length notes ->
  exists sol, backtrack dp notes h = Some sol
              /\ length (fingering sol) = length notes
              /\ length (explanations sol) = length notes.
Proof.
  intros Hne Hlen. unfold backtrack.
  destruct (length notes) as [| last] eqn:En.
  - destruct notes; [contradiction | discriminate].
  - destruct (nth_error_in_range dp last) as [lastRow ->]; [lia |].
    cbn [bind].
    destruct (backtrackLoop_total dp notes h (S last)
                (snd (fold_left selectFinal lastRow (Infinity, 3))) [] [] [])
      as [fs0 [es0 [tr [Hrun [Hf He]]]]]; [lia | lia |].
    rewrite Hrun. cbn [bind]. eexists. split; [reflexivity |].
    simpl. rewrite !app_nil_r. auto.
Qed.

Lemma dpOptimization_total level notes patterns h :
  notes <> [] ->
  exists sol, dpOptimization level notes patterns h = Some sol
              /\ length (fingering sol) = length notes
              /\ length (explanations sol) = length notes.
Proof.
  intros Hne. unfold dpOptimization.
  destruct (dpTable_total level notes patterns h Hne) as [dp [-> Hlen]].
  cbn [bind]. now apply backtrack_total.
Qed.

(** ** The chunked optimizer *)

Lemma slice_length {A : Type} (l : list A) i j :
  length (slice l i j) = Nat.min (j - i) (length l - i).
Proof. unfold slice. now rewrite length_firstn, length_skipn. Qed.

(** The length of [notes] is enough fuel for the chunking loop: more fuel
    does not change its result. *)
Lemma chunkLoop_fuel notes fuel :
  forall i, (length notes - i <= fuel)%nat ->
            chunkLoop (S fuel) notes i = chunkLoop fuel notes i.
Proof.
  induction fuel as [| fuel IH]; intros i Hfuel.
  - simpl. destruct (Nat.ltb_spec i (length notes)); [lia | reflexivity].
  - cbn [chunkLoop]. destruct (Nat.ltb_spec i (length notes)); [| reflexivity].
    f_equal. apply IH. unfold chunkSize, overlapSize. lia.
Qed.

Lemma chunkLoop_nonempty notes fuel :
  forall i, Forall (fun c => c <> []) (chunkLoop fuel notes i).
Proof.
  induction fuel as [| fuel IH]; intros i; simpl; [constructor |].
  destruct (Nat.ltb_spec i (length notes)) as [Hlt | Hge]; [| constructor].
  constructor; [| apply IH].
  intros Hnil. apply (f_equal (@length Note)) in Hnil.
  rewrite slice_length in Hnil. unfold chunkSize in Hnil. simpl in Hnil. lia.
Qed.

Lemma list_sum_cons x l : list_sum (x :: l) = (x + list_sum l)%nat.
Proof. reflexivity. Qed.

(** Entries that the windows after the first one contribute. *)
Lemma chunkLoop_tail_sum notes fuel :
  forall i, (length notes - i <= fuel)%nat ->
    list_sum (map (fun c => length c - overlapSize)%nat
                  (chunkLoop fuel notes i))
    = (length notes - i - overlapSize)%nat.
Proof.
  induction fuel as [| fuel IH]; intros i Hfuel.
  - simpl. lia.
  - cbn [chunkLoop]. destruct (Nat.ltb_spec i (length notes)) as [Hlt | Hge].
    + cbn [map]. rewrite list_sum_cons.
      rewrite IH by (unfold chunkSize, overlapSize; lia).
      rewrite slice_length. unfold chunkSize, overlapSize. lia.
    + simpl. lia.
Qed.

Lemma mapM_dpOptimization level patterns h chunks :
  Forall (fun c => c <> []) chunks ->
  exists sols,
    mapM (fun chunk => dpOptimization level chunk patterns h) chunks = Some sols
    /\ Forall2 (solves level patterns h) chunks sols.
Proof.
  induction 1 as [| chunk chunks Hne _ IH]; simpl.
  - exists []. split; [reflexivity | constructor].
  - destruct (dpOptimization_total level chunk patterns h Hne)
      as [sol [Hsol Hlen]].
    destruct IH as [sols [Hsols Hall]].
    rewrite Hsol. simpl. rewrite Hsols. simpl.
    exists (sol :: sols). split; [reflexivity |].
    constructor; [split; assumption | assumption].
Qed.

Lemma stitch_later sols :
  forall i fs es total,
    (1 <= i)%nat ->
    fst (stitch i sols fs es total)
    = (fs ++ concat (map (fun s => skipn overlapSize (fingering s)) sols),
       es ++ concat (map (fun s => skipn overlapSize (explanations s)) sols)).
Proof.
  induction sols as [| sol sols IH]; intros i fs es total Hi.
  - simpl. now rewrite !app_nil_r.
  - cbn [stitch]. destruct i as [| i]; [lia |].
    cbn [Nat.eqb]. rewrite IH by lia.
    cbn [map concat]. now rewrite <- !app_assoc.
Qed.

Lemma stitch_first sol sols :
  fst (stitch 0 (sol :: sols) [] [] (Fin 0))
  = (fingering sol
       ++ concat (map (fun s => skipn overlapSize (fingering s)) sols),
     explanations sol
       ++ concat (map (fun s => skipn overlapSize (explanations s)) sols)).
Proof. cbn [stitch Nat.eqb app]. now rewrite stitch_later. Qed.

Lemma later_windows_length level patterns h chunks sols :
  Forall2 (solves level patterns h) chunks sols ->
  length (concat (map (fun s => skipn overlapSize (fingering s)) sols))
  = list_sum (map (fun c => length c - overlapSize)%nat chunks)
  /\ length (concat (map (fun s => skipn overlapSize (explanations s)) sols))
     = list_sum (map (fun c => length c - overlapSize)%nat chunks).
Proof.
  induction 1 as [| chunk sol chunks sols [_ [Hf He]] _ [IHf IHe]].
  - simpl. auto.
  - cbn [map concat]. rewrite !list_sum_cons.
    rewrite !length_app, !length_skipn, IHf, IHe, Hf, He. auto.
Qed.

Lemma chunkLoop_first notes :
  notes <> [] ->
  chunkLoop (length notes) notes 0
  = slice notes 0 (Nat.min chunkSize (length notes))
    :: chunkLoop (length notes - 1) notes (chunkSize - overlapSize).
Proof.
  intros Hne. destruct (length notes) as [| fuel] eqn:En.
  - destruct notes; [contradiction | discriminate].
  - cbn [chunkLoop]. rewrite En.
    destruct (Nat.ltb_spec 0 (S fuel)) as [_ | Hbad]; [| lia].
    rewrite Nat.add_0_l, Nat.sub_succ, Nat.sub_0_r. reflexivity.
Qed.

(** The chunked optimizer returns; its arrays have one entry per note and
    begin with the whole output of the first window. *)
Lemma chunkedOptimization_total level notes patterns h :
  notes <> [] ->
  exists sol first restF restE,
    chunkedOptimization level notes patterns h = Some sol
    /\ dpOptimization level (slice notes 0 (Nat.min chunkSize (length notes)))
                      patterns h = Some first
    /\ fingering sol = fingering first ++ restF
    /\ explanations sol = explanations first ++ restE
    /\ length (fingering sol) = length notes
    /\ length (explanations sol) = length notes.
Proof.
  intros Hne. unfold chunkedOptimization.
  assert (Hn : (0 < length notes)%nat).
  { destruct notes; [contradiction | simpl; lia]. }
  destruct (mapM_dpOptimization level patterns h
              (chunkLoop (length notes) notes 0)
              (chunkLoop_nonempty notes (length notes) 0))
    as [sols [Hsols Hall]].
  rewrite Hsols. cbn [bind].
  rewrite (chunkLoop_first notes Hne) in Hall.
  remember (slice notes 0 (Nat.min chunkSize (length notes))) as window.
  remember (chunkLoop (length notes - 1) notes (chunkSize - overlapSize))
    as later.
  inversion Hall as [| chunk sol chunks sols' [Hsol [Hf He]] Hrest];
    subst chunk chunks sols window later.
  pose proof (stitch_first sol sols') as Hstitch.
  destruct (stitch 0 (sol :: sols') [] [] (Fin 0)) as [[fs es] total].
  cbn [fst] in Hstitch. injection Hstitch as -> ->.
  destruct (later_windows_length _ _ _ _ _ Hrest) as [Hlf Hle].
  rewrite chunkLoop_tail_sum in Hlf, Hle
    by (unfold chunkSize, overlapSize; lia).
  rewrite slice_length in Hf, He.
  eexists. exists sol. eexists. eexists.
  split; [reflexivity |]. split; [exact Hsol |].
  split; [reflexivity |]. split; [reflexivity |].
  split.
  - change (length (fingering sol
                    ++ concat (map (fun s => skipn overlapSize (fingering s))
                                   sols')) = length notes).
    rewrite length_app, Hlf, Hf. unfold chunkSize, overlapSize. lia.
  - change (length (explanations sol
                    ++ concat (map (fun s => skipn overlapSize (explanations s))
                                   sols')) = length notes).
    rewrite length_app, Hle, He. unfold chunkSize, overlapSize. lia.
Qed.

(** ** Per-hand planning returns, with one entry per note *)

Lemma planHandFingering_total level notes patterns h :
  exists sol, planHandFingering level notes patterns h = Some sol
              /\ length (fingering sol) = length notes
              /\ length (explanations sol) = length notes.
Proof.
  unfold planHandFingering.
  destruct notes as [| first rest]; [exists emptySolution; auto |].
  cbn [length Nat.eqb].
  destruct (64 <? S (length rest))%nat.
  - destruct (chunkedOptimization_total level (first :: rest) patterns h)
      as [sol [first' [restF [restE [Hsol [_ [_ [_ [Hf He]]]]]]]]];
      [discriminate |].
    exists sol. auto.
  - apply dpOptimization_total. discriminate.
Qed.

(** ** Merging the two hands *)

Lemma mergeLoop_length rh lh notes :
  forall rhIdx lhIdx,
    length (fst (mergeLoop rh lh notes rhIdx lhIdx)) = length notes
    /\ length (snd (mergeLoop rh lh notes rhIdx lhIdx)) = length notes.
Proof.
  induction notes as [| note notes IH]; intros rhIdx lhIdx; [simpl; auto |].
  cbn [mergeLoop]. destruct (hand note).
  - destruct (IH (S rhIdx) lhIdx) as [Hf He].
    destruct (mergeLoop rh lh notes (S rhIdx) lhIdx) as [fs es].
    simpl in *. auto.
  - destruct (IH rhIdx (S lhIdx)) as [Hf He].
    destruct (mergeLoop rh lh notes rhIdx (S lhIdx)) as [fs es].
    simpl in *. auto.
Qed.

(** The entries merged at the notes of one hand are that hand's entries
    [idx, idx + 1, ...], read with the defaults of the merger. *)
Lemma mergeLoop_atHand rh lh notes :
  forall rhIdx lhIdx,
    let merged := mergeLoop rh lh notes rhIdx lhIdx in
    (atHand RH notes (fst merged)
     = map (fun j => fingerOr3 (nth_error (fingering rh) j))
           (seq rhIdx (length (filter (isHand RH) notes)))
     /\ atHand RH notes (snd merged)
        = map (fun j => stringOrEmpty (nth_error (explanations rh) j))
              (seq rhIdx (length (filter (isHand RH) notes))))
    /\ (atHand LH notes (fst merged)
        = map (fun j => fingerOr3 (nth_error (fingering lh) j))
              (seq lhIdx (length (filter (isHand LH) notes)))
        /\ atHand LH notes (snd merged)
           = map (fun j => stringOrEmpty (nth_error (explanations lh) j))
                 (seq lhIdx (length (filter (isHand LH) notes)))).
Proof.
  induction notes as [| note notes IH]; intros rhIdx lhIdx;
    [simpl; auto |].
  cbn [mergeLoop]. unfold atHand, isHand in *. cbn zeta in *.
  destruct (hand note) eqn:Eh.
  - destruct (IH (S rhIdx) lhIdx) as [[Hrf Hre] [Hlf Hle]].
    destruct (mergeLoop rh lh notes (S rhIdx) lhIdx) as [fs es].
    cbn [fst snd combine filter] in *. rewrite Eh. cbn [Hand_eqb].
    cbn [map length seq snd]. rewrite Hrf, Hre, Hlf, Hle. auto.
  - destruct (IH rhIdx (S lhIdx)) as [[Hrf Hre] [Hlf Hle]].
    destruct (mergeLoop rh lh notes rhIdx (S lhIdx)) as [fs es].
    cbn [fst snd combine filter] in *. rewrite Eh. cbn [Hand_eqb].
    cbn [map length seq snd]. rewrite Hrf, Hre, Hlf, Hle. auto.
Qed.

Lemma planFingering_unfold level notes patterns :
  exists rh lh,
    planHandFingering level (filter (isHand RH) notes) patterns RH = Some rh
    /\ planHandFingering level (filter (isHand LH) notes) patterns LH = Some lh
    /\ length (fingering rh) = length (filter (isHand RH) notes)
    /\ length (explanations rh) = length (filter (isHand RH) notes)
    /\ length (fingering lh) = length (filter (isHand LH) notes)
    /\ length (explanations lh) = length (filter (isHand LH) notes)
    /\ planFingering level notes patterns
       = Some (if (length notes =? 0)%nat then emptySolution
               else mkSolution (fst (mergeLoop rh lh notes 0 0))
                               (Num_add (totalCost rh) (totalCost lh))
                               (path rh ++ path lh)
                               (snd (mergeLoop rh lh notes 0 0))).
Proof.
  destruct (planHandFingering_total level (filter (isHand RH) notes) patterns RH)
    as [rh [Hrh [Hrf Hre]]].
  destruct (planHandFingering_total level (filter (isHand LH) notes) patterns LH)
    as [lh [Hlh [Hlf Hle]]].
  exists rh, lh. repeat (split; [assumption |]).
  unfold planFingering. destruct (length notes =? 0)%nat; [reflexivity |].
  unfold isHand in Hrh, Hlh. rewrite Hrh, Hlh. cbn [bind].
  destruct (mergeLoop rh lh notes 0 0). reflexivity.
Qed.

Lemma planFingering_lengths level notes patterns sol :
  planFingering level notes patterns = Some sol ->
  length (fingering sol) = length notes
  /\ length (explanations sol) = length notes.
Proof.
  destruct (planFingering_unfold level notes patterns)
    as [rh [lh [_ [_ [_ [_ [_ [_ Hplan]]]]]]]].
  rewrite Hplan. intros Hsol. injection Hsol as <-.
  destruct notes as [| note notes]; [split; reflexivity |].
  cbn [length Nat.eqb fingering explanations].
  apply (mergeLoop_length rh lh (note :: notes) 0 0).
Qed.

(** C1.  [planFingering] returns for every note sequence and every list of
    pattern segments, and its [fingering] and [explanations] have one entry
    per input note.  Each hand's own solution has one entry per note of that
    hand, whether it comes from the plain or from the chunked optimizer
    (hands of more than 64 notes). *)
Theorem planFingering_length level notes patterns :
  exists sol,
    planFingering level notes patterns = Some sol
    /\ length (fingering sol) = length notes
    /\ length (explanations sol) = length notes
    /\ forall h,
        exists hs,
          planHandFingering level (filter (isHand h) notes) patterns h = Some hs
          /\ length (fingering hs) = length (filter (isHand h) notes)
          /\ length (explanations hs) = length (filter (isHand h) notes).
Proof.
  destruct (planFingering_unfold level notes patterns)
    as [rh [lh [Hrh [Hlh [Hrf [Hre [Hlf [Hle Hplan]]]]]]]].
  eexists. split; [exact Hplan |].
  destruct (planFingering_lengths _ _ _ _ Hplan) as [Hf He].
  split; [exact Hf |]. split; [exact He |].
  intros [|]; [exists rh | exists lh]; auto.
Qed.

(** ** The boundary between the plain and the chunked optimizer *)

(** C6.  A hand of exactly 64 notes goes through the plain DP optimizer.  A
    hand of 65 notes goes through the chunked optimizer, whose fingering has
    65 entries and begins with the first four entries of the first window's
    own solution (the window being the first 32 notes). *)
Theorem chunk_boundary level notes patterns h :
  (length notes = 64%nat ->
   planHandFingering level notes patterns h
   = dpOptimization level notes patterns h)
  /\ (length notes = 65%nat ->
      planHandFingering level notes patterns h
      = chunkedOptimization level notes patterns h
      /\ exists sol first,
          chunkedOptimization level notes patterns h = Some sol
          /\ dpOptimization level (firstn 32 notes) patterns h = Some first
          /\ length (fingering sol) = 65%nat
          /\ firstn 4 (fingering sol) = firstn 4 (fingering first)).
Proof.
  split; intros Hlen.
  - unfold planHandFingering. rewrite Hlen. reflexivity.
  - split; [unfold planHandFingering; rewrite Hlen; reflexivity |].
    destruct (chunkedOptimization_total level notes patterns h)
      as [sol [first [restF [restE [Hsol [Hfirst [Hf [_ [Hlf _]]]]]]]]].
    { intros ->. discriminate. }
    rewrite Hlen in Hfirst. unfold slice in Hfirst.
    change (firstn (Nat.min chunkSize 65 - 0) (skipn 0 notes))
      with (firstn 32 notes) in Hfirst.
    exists sol, first. repeat (split; [assumption || lia |]).
    destruct (dpOptimization_total level (firstn 32 notes) patterns h)
      as [first' [Hfirst' [Hlen' _]]].
    { intros Hnil. apply (f_equal (@length Note)) in Hnil.
      rewrite length_firstn, Hlen in Hnil. discriminate. }
    rewrite Hfirst in Hfirst'. injection Hfirst' as <-.
    rewrite length_firstn, Hlen in Hlen'.
    rewrite Hf, firstn_app, Hlen'. cbn [Nat.min Nat.sub firstn].
    now rewrite app_nil_r.
Qed.

(** ** Hand independence *)

(** C8.  Two inputs with the same notes of hand [h], in the same order, the
    same pattern segments and the same difficulty level are given the same
    finger and the same explanation at each note of hand [h], whatever the
    notes of the other hand and their interleaving.  (The output arrays are
    aligned with the notes: they have one entry per note.) *)
Theorem hand_independence level patterns notes1 notes2 h :
  filter (isHand h) notes1 = filter (isHand h) notes2 ->
  exists sol1 sol2,
    planFingering level notes1 patterns = Some sol1
    /\ planFingering level notes2 patterns = Some sol2
    /\ length (fingering sol1) = length notes1
    /\ length (explanations sol1) = length notes1
    /\ length (fingering sol2) = length notes2
    /\ length (explanations sol2) = length notes2
    /\ atHand h notes1 (fingering sol1) = atHand h notes2 (fingering sol2)
    /\ atHand h notes1 (explanations sol1)
       = atHand h notes2 (explanations sol2).
Proof.
  intros Hsame.
  assert (Hmerged : forall notes,
    exists sol hs,
      planFingering level notes patterns = Some sol
      /\ planHandFingering level (filter (isHand h) notes) patterns h = Some hs
      /\ atHand h notes (fingering sol)
         = map (fun j => fingerOr3 (nth_error (fingering hs) j))
               (seq 0 (length (filter (isHand h) notes)))
      /\ atHand h notes (explanations sol)
         = map (fun j => stringOrEmpty (nth_error (explanations hs) j))
               (seq 0 (length (filter (isHand h) notes)))).
  { intros notes.
    destruct (planFingering_unfold level notes patterns)
      as [rh [lh [Hrh [Hlh [_ [_ [_ [_ Hplan]]]]]]]].
    eexists. exists (match h with RH => rh | LH => lh end).
    split; [exact Hplan |].
    split; [destruct h; assumption |].
    destruct notes as [| note notes]; [destruct h; auto |].
    cbn [length Nat.eqb fingering explanations].
    destruct (mergeLoop_atHand rh lh (note :: notes) 0 0) as [HR HL].
    destruct h; assumption. }
  destruct (Hmerged notes1) as [sol1 [hs1 [Hsol1 [Hhs1 [Hf1 He1]]]]].
  destruct (Hmerged notes2) as [sol2 [hs2 [Hsol2 [Hhs2 [Hf2 He2]]]]].
  rewrite Hsame in Hhs1, Hf1, He1.
  rewrite Hhs1 in Hhs2. injection Hhs2 as <-.
  destruct (planFingering_lengths _ _ _ _ Hsol1) as [Hl1 Hl1'].
  destruct (planFingering_lengths _ _ _ _ Hsol2) as [Hl2 Hl2'].
  exists sol1, sol2. repeat (split; [assumption |]).
  split; congruence.
Qed.

Lemma chunk_boundary_witness :
  planHandFingering intermediate sixtyFour [] RH
  = dpOptimization intermediate sixtyFour [] RH
  /\ planHandFingering intermediate sixtyFive [] RH
     = chunkedOptimization intermediate sixtyFive [] RH.
Proof.
  split.
  - apply (proj1 (chunk_boundary intermediate sixtyFour [] RH)). reflexivity.
  - apply (proj2 (chunk_boundary intermediate sixtyFive [] RH)). reflexivity.
Defined.

Lemma hand_independence_witness :
  exists sol1 sol2,
    planFingering intermediate pieceA [] = Some sol1
    /\ planFingering intermediate pieceB [] = Some sol2
    /\ atHand RH pieceA (fingering sol1) = atHand RH pieceB (fingering sol2)
    /\ atHand RH pieceA (explanations sol1)
       = atHand RH pieceB (explanations sol2).
Proof.
  destruct (hand_independence intermediate [] pieceA pieceB RH eq_refl)
    as [sol1 [sol2 [H1 [H2 [_ [_ [_ [_ [Hf He]]]]]]]]].
  exists sol1, sol2. repeat split; assumption.
Defined.

(** ** Pruned rows and the defaults of backtracking *)

Lemma relax_pruned level h i prevRow prevNote currNote ctx pos toFinger b from :
  match map_get from prevRow with
  | Some _ =>
      Qltb 300 (cost (computeTransitionCost level prevNote from currNote
                                            toFinger ctx h pos))
  | None => true
  end = true ->
  relax level h i prevRow prevNote currNote ctx pos toFinger b from = b.
Proof.
  intros Hpruned. unfold relax.
  destruct (map_get from prevRow); [| reflexivity].
  now rewrite Hpruned.
Qed.

Lemma fillCell_pruned level h i prevRow prevNote currNote ctx pos row toFinger :
  forallb (fun from =>
             match map_get from prevRow with
             | Some _ =>
                 Qltb 300 (cost (computeTransitionCost
                                   level prevNote from currNote
                                   toFinger ctx h pos))
             | None => true
             end)
          fingers = true ->
  fillCell level h i prevRow prevNote currNote ctx pos row toFinger = row.
Proof.
  intros Hall. unfold fillCell.
  assert (Hfold : forall l b,
             forallb (fun from =>
                        match map_get from prevRow with
                        | Some _ =>
                            Qltb 300 (cost (computeTransitionCost
                                              level prevNote from currNote
                                              toFinger ctx h pos))
                        | None => true
                        end) l = true ->
             fold_left (relax level h i prevRow prevNote currNote ctx pos
                              toFinger) l b = b).
  { induction l as [| from l IH]; intros b Hl; [reflexivity |].
    simpl in Hl. apply andb_true_iff in Hl. destruct Hl as [Hfrom Hl].
    simpl. rewrite relax_pruned by assumption. now apply IH. }
  rewrite Hfold by assumption. reflexivity.
Qed.

(** A row all of whose incoming edges are pruned is empty. *)
Lemma nextRow_pruned level notes patterns h handPositions k prevRow
      pos ctx prevNote currNote :
  nth_error handPositions k = Some pos ->
  getPatternContext notes k patterns = Some ctx ->
  nth_error notes (k - 1) = Some prevNote ->
  nth_error notes k = Some currNote ->
  edgesPruned level h prevRow prevNote currNote ctx pos = true ->
  nextRow level notes patterns h handPositions k prevRow = Some [].
Proof.
  unfold edgesPruned, nextRow. intros -> -> -> -> Hall.
  cbn [bind]. f_equal.
  assert (Hfold : forall l row,
             forallb (fun toFinger =>
                        forallb (fun fromFinger =>
                          match map_get fromFinger prevRow with
                          | Some _ =>
                              Qltb 300 (cost (computeTransitionCost
                                                level prevNote fromFinger
                                                currNote toFinger ctx h pos))
                          | None => true
                          end) fingers)
                     l = true ->
             fold_left (fillCell level h k prevRow prevNote currNote ctx pos)
                       l row = row).
  { induction l as [| toFinger l IH]; intros row Hl; [reflexivity |].
    simpl in Hl. apply andb_true_iff in Hl. destruct Hl as [Hto Hl].
    cbn [fold_left]. rewrite fillCell_pruned by assumption. now apply IH. }
  now apply Hfold.
Qed.

(** A row after an empty row is empty. *)
Lemma nextRow_no_previous level notes patterns h handPositions j row :
  nextRow level notes patterns h handPositions j [] = Some row -> row = [].
Proof.
  unfold nextRow. intros Hrow.
  destruct (nth_error handPositions j); [| discriminate].
  destruct (getPatternContext notes j patterns); [| discriminate].
  destruct (nth_error notes (j - 1)); [| discriminate].
  destruct (nth_error notes j); [| discriminate].
  cbn [bind] in Hrow. injection Hrow as <-. reflexivity.
Qed.

(** The table of the forward pass: one row per note, each row after the
    first computed from the row before it. *)
Lemma dpTable_rows level notes patterns h dp :
  dpTable level notes patterns h = Some dp ->
  length dp = length notes
  /\ forall j, (1 <= j < length notes)%nat ->
       exists prevRow row,
         nth_error dp (j - 1) = Some prevRow
         /\ nth_error dp j = Some row
         /\ nextRow level notes patterns h (analyzeHandPositions notes h)
                    j prevRow = Some row.
Proof.
  unfold dpTable. intros Hdp.
  destruct (nth_error (analyzeHandPositions notes h) 0) as [firstPos |];
    [| discriminate].
  destruct notes as [| first rest]; [discriminate |].
  cbn [nth_error bind] in Hdp.
  destruct (forwardLoop_rows _ _ _ _ _ _ _ _ _ Hdp eq_refl (le_n 1))
    as [Hlen [_ Hrows]].
  split; [rewrite Hlen; simpl; lia |].
  intros j Hj. apply Hrows. simpl in *. lia.
Qed.

Lemma dpTable_empty_after level notes patterns h dp k :
  dpTable level notes patterns h = Some dp ->
  (1 <= k)%nat ->
  rowPruned level notes patterns h k = true ->
  (k < length notes)%nat
  /\ forall j, (k <= j < length notes)%nat -> @nth_error Row dp j = Some [].
Proof.
  intros Hdp Hk Hall.
  destruct (dpTable_rows _ _ _ _ _ Hdp) as [_ Hrows].
  unfold rowPruned in Hall. rewrite Hdp in Hall.
  destruct (nth_error dp (k - 1)) as [prevRow |] eqn:Eprev; [| discriminate].
  destruct (nth_error (analyzeHandPositions notes h) k) as [pos |] eqn:Epos;
    [| discriminate].
  destruct (getPatternContext notes k patterns) as [ctx |] eqn:Ectx;
    [| discriminate].
  destruct (nth_error notes (k - 1)) as [prevNote |] eqn:Eprevnote;
    [| discriminate].
  destruct (nth_error notes k) as [currNote |] eqn:Ecurr; [| discriminate].
  assert (Hkn : (k < length notes)%nat).
  { apply nth_error_Some. congruence. }
  split; [exact Hkn |].
  intros j [Hkj Hjn]. induction Hkj as [| j Hkj IH].
  - destruct (Hrows k) as [prevRow' [row [Hprev [Hrow Hnext]]]]; [lia |].
    rewrite Eprev in Hprev. injection Hprev as <-.
    rewrite (nextRow_pruned _ _ _ _ _ _ _ _ _ _ _
               Epos Ectx Eprevnote Ecurr Hall) in Hnext.
    injection Hnext as <-. exact Hrow.
  - destruct (Hrows (S j)) as [prevRow' [row [Hprev [Hrow Hnext]]]]; [lia |].
    rewrite Nat.sub_succ, Nat.sub_0_r, IH in Hprev by lia.
    injection Hprev as <-.
    apply nextRow_no_previous in Hnext. subst row. exact Hrow.
Qed.

Lemma selectFinal_from_finite row :
  forall q f,
    exists q' f',
      fold_left selectFinal row (Fin q, f) = (Fin q', f')
      /\ (q' <= q)%Q
      /\ (forall g c, In (g, c) row -> (q' <= cell_cost c)%Q)
      /\ ((q', f') = (q, f) \/ exists c, In (f', c) row /\ q' = cell_cost c).
Proof.
  induction row as [| [g c] row IH]; intros q f.
  - exists q, f. simpl. repeat split; [apply Qle_refl | tauto | now left].
  - cbn [fold_left]. unfold selectFinal at 2. cbn [fst snd Num_ltb].
    destruct (Qltb (cell_cost c) q) eqn:E.
    + apply Qltb_lt in E.
      destruct (IH (cell_cost c) g) as [q' [f' [Hfold [Hle [Hall Hwho]]]]].
      exists q', f'. split; [exact Hfold |].
      split; [apply Qle_trans with (cell_cost c);
              [exact Hle | now apply Qlt_le_weak] |].
      split.
      * intros g' c' [Heq | Hin]; [injection Heq as <- <-; exact Hle |].
        now apply (Hall g').
      * right. destruct Hwho as [Heq | [c' [Hin Hq]]].
        -- injection Heq as -> ->. exists c. split; [now left | reflexivity].
        -- exists c'. split; [now right | exact Hq].
    + apply Qltb_ge in E.
      destruct (IH q f) as [q' [f' [Hfold [Hle [Hall Hwho]]]]].
      exists q', f'. split; [exact Hfold |]. split; [exact Hle |].
      split.
      * intros g' c' [Heq | Hin];
          [injection Heq as <- <-; now apply Qle_trans with q |].
        now apply (Hall g').
      * destruct Hwho as [Heq | [c' [Hin Hq]]]; [now left |].
        right. exists c'. split; [now right | exact Hq].
Qed.

(** The final selection of [backtrack]: the default (Infinity, finger 3) on
    an empty row, a cell of least cumulative cost otherwise. *)
Lemma selectFinal_spec row :
  (row = [] /\ fold_left selectFinal row (Infinity, 3) = (Infinity, 3))
  \/ (exists f c,
         In (f, c) row
         /\ fold_left selectFinal row (Infinity, 3) = (Fin (cell_cost c), f)
         /\ forall g c', In (g, c') row -> (cell_cost c <= cell_cost c')%Q).
Proof.
  destruct row as [| [g c] row]; [now left |].
  right. cbn [fold_left]. unfold selectFinal at 2. cbn [fst snd Num_ltb].
  destruct (selectFinal_from_finite row (cell_cost c) g)
    as [q' [f' [Hfold [Hle [Hall Hwho]]]]].
  rewrite Hfold. destruct Hwho as [Heq | [c' [Hin Hq]]].
  - injection Heq as -> ->. exists g, c.
    split; [now left |]. split; [reflexivity |].
    intros g' c' [Heq | Hin]; [injection Heq as <- <-; apply Qle_refl |].
    now apply (Hall g').
  - subst q'. exists f', c'.
    split; [now right |]. split; [reflexivity |].
    intros g' c'' [Heq | Hin']; [injection Heq as <- <-; exact Hle |].
    now apply (Hall g').
Qed.

Lemma backtrackLoop_written dp notes h m :
  forall cur fs es trail F E T,
    backtrackLoop dp notes h m cur fs es trail = Some (F, E, T) ->
    exists F0 E0,
      F = F0 ++ fs /\ E = E0 ++ es /\ length F0 = m /\ length E0 = m.
Proof.
  induction m as [| i IH]; intros cur fs es trail F E T Hrun.
  - injection Hrun as <- <- <-. exists [], []. auto.
  - cbn [backtrackLoop] in Hrun.
    destruct (nth_error dp i) as [row |]; [| discriminate].
    destruct (nth_error notes i) as [note |]; [| discriminate].
    cbn [bind] in Hrun.
    destruct (IH _ _ _ _ _ _ _ Hrun) as [F0 [E0 [HF [HE [Hf He]]]]].
    exists (F0 ++ [cur]), (E0 ++ [explanationOf (map_get cur row)]).
    rewrite <- !app_assoc, !length_app. simpl.
    repeat split; [assumption | assumption | lia | lia].
Qed.

Lemma backtrackLoop_step_empty dp notes h i note fs es trail :
  @nth_error Row dp i = Some [] ->
  nth_error notes i = Some note ->
  backtrackLoop dp notes h (S i) 3 fs es trail
  = backtrackLoop dp notes h i 3 (3 :: fs) (EmptyString :: es)
                  (mkState i 3 h (pitch note) 0%Q None [] :: trail).
Proof.
  intros Hrow Hnote. cbn [backtrackLoop]. rewrite Hrow, Hnote. reflexivity.
Qed.

(** Backtracking from finger 3 through [d] empty rows writes finger 3 and the
    empty explanation [d] times and stays on finger 3. *)
Lemma backtrackLoop_empty_rows dp notes h k d :
  forall fs es trail,
    (forall j, (k <= j < k + d)%nat -> @nth_error Row dp j = Some []) ->
    (k + d <= length notes)%nat ->
    exists trail',
      backtrackLoop dp notes h (k + d) 3 fs es trail
      = backtrackLoop dp notes h k 3
                      (repeat 3 d ++ fs) (repeat EmptyString d ++ es) trail'.
Proof.
  induction d as [| d IH]; intros fs es trail Hempty Hlen.
  - exists trail. now rewrite Nat.add_0_r.
  - destruct (nth_error_in_range notes (k + d)) as [note Hnote]; [lia |].
    assert (Hrow : @nth_error Row dp (k + d) = Some [])
      by (apply Hempty; lia).
    pose proof (backtrackLoop_step_empty dp notes h _ _ fs es trail Hrow Hnote)
      as Hstep.
    match type of Hstep with
    | _ = backtrackLoop _ _ _ _ _ ?fs' ?es' ?trail' =>
        destruct (IH fs' es' trail') as [tr Hrun];
          [intros j Hj; apply Hempty; lia | lia |]
    end.
    exists tr. replace (k + S d)%nat with (S (k + d)) by lia.
    rewrite Hstep, Hrun.
    change (3 :: fs) with ([3] ++ fs).
    change (EmptyString :: es) with ([EmptyString] ++ es).
    rewrite !app_assoc, <- !repeat_cons. reflexivity.
Qed.

Lemma backtrack_unfold dp notes h :
  notes <> [] -> length dp = length notes ->
  exists lastRow fs es trail,
    nth_error dp (length notes - 1) = Some lastRow
    /\ backtrackLoop dp notes h (length notes)
         (snd (fold_left selectFinal lastRow (Infinity, 3))) [] [] []
       = Some (fs, es, trail)
    /\ backtrack dp notes h
       = Some (mkSolution fs (fst (fold_left selectFinal lastRow (Infinity, 3)))
                          trail es).
Proof.
  intros Hne Hlen. unfold backtrack.
  destruct (length notes) as [| last] eqn:En.
  - destruct notes; [contradiction | discriminate].
  - rewrite Nat.sub_succ, Nat.sub_0_r.
    destruct (nth_error_in_range dp last) as [lastRow Hlast]; [lia |].
    rewrite Hlast. cbn [bind].
    destruct (backtrackLoop_total dp notes h (S last)
                (snd (fold_left selectFinal lastRow (Infinity, 3))) [] [] [])
      as [fs0 [es0 [tr [Hrun _]]]]; [lia | lia |].
    rewrite Hrun. cbn [bind].
    exists lastRow, (fs0 ++ []), (es0 ++ []), tr. auto.
Qed.

(** C5.  The DP optimizer returns for every non-empty sequence.  Its last
    finger is the one backtracking selects in the last row of the table: a
    present cell of least cumulative cost, whose cost is the total cost, or
    finger 3 with total cost [Infinity] when the row has no cell.  When every
    incoming edge of every cell at some index [k] is pruned, the last row has
    no cell, and every index from [k] on receives finger 3 and the empty
    explanation. *)
Theorem pruned_rows_default level notes patterns h :
  notes <> [] ->
  exists dp lastRow sol,
    dpTable level notes patterns h = Some dp
    /\ nth_error dp (length notes - 1) = Some lastRow
    /\ dpOptimization level notes patterns h = Some sol
    /\ ((length notes <= 64)%nat ->
        planHandFingering level notes patterns h = Some sol)
    /\ ((lastRow = []
         /\ nth_error (fingering sol) (length notes - 1) = Some 3
         /\ totalCost sol = Infinity)
        \/ (exists f c,
               In (f, c) lastRow
               /\ nth_error (fingering sol) (length notes - 1) = Some f
               /\ totalCost sol = Fin (cell_cost c)
               /\ forall g c', In (g, c') lastRow ->
                               (cell_cost c <= cell_cost c')%Q))
    /\ (forall k,
           (1 <= k)%nat ->
           rowPruned level notes patterns h k = true ->
           lastRow = []
           /\ forall i, (k <= i < length notes)%nat ->
                nth_error (fingering sol) i = Some 3
                /\ nth_error (explanations sol) i = Some EmptyString).
Proof.
  intros Hne.
  destruct (dpTable_total level notes patterns h Hne) as [dp [Hdp Hlen]].
  destruct (backtrack_unfold dp notes h Hne Hlen)
    as [lastRow [fs [es [trail [Hlast [Hrun Hback]]]]]].
  assert (Hn : (0 < length notes)%nat).
  { destruct notes; [contradiction | simpl; lia]. }
  assert (Hsol : dpOptimization level notes patterns h
                 = Some (mkSolution fs
                           (fst (fold_left selectFinal lastRow (Infinity, 3)))
                           trail es)).
  { unfold dpOptimization. rewrite Hdp. exact Hback. }
  assert (Hlastfinger :
            nth_error fs (length notes - 1)
            = Some (snd (fold_left selectFinal lastRow (Infinity, 3)))).
  { replace (length notes) with (S (length notes - 1)) in Hrun at 1 by lia.
    cbn [backtrackLoop] in Hrun. rewrite Hlast in Hrun.
    destruct (nth_error notes (length notes - 1)) as [note |];
      [| discriminate].
    cbn [bind] in Hrun.
    destruct (backtrackLoop_written _ _ _ _ _ _ _ _ _ _ _ Hrun)
      as [F0 [E0 [HF [_ [Hf _]]]]].
    rewrite HF, nth_error_app2 by lia.
    rewrite Hf, Nat.sub_diag. reflexivity. }
  exists dp, lastRow. eexists.
  split; [exact Hdp |]. split; [exact Hlast |]. split; [exact Hsol |].
  split; [| split].
  - intros Hshort. unfold planHandFingering.
    destruct (Nat.eqb_spec (length notes) 0) as [Hz | _]; [lia |].
    destruct (Nat.ltb_spec 64 (length notes)) as [Hbig | _]; [lia |].
    exact Hsol.
  - cbn [fingering totalCost]. rewrite Hlastfinger.
    destruct (selectFinal_spec lastRow)
      as [[Hempty Hbest] | [f [c [Hin [Hbest Hleast]]]]]; rewrite Hbest.
    + left. auto.
    + right. exists f, c. auto.
  - intros k Hk Hall.
    destruct (dpTable_empty_after _ _ _ _ _ k Hdp Hk Hall) as [Hkn Hrows].
    assert (Hempty : lastRow = []).
    { rewrite Hrows in Hlast by lia. now injection Hlast as <-. }
    split; [exact Hempty |].
    subst lastRow. cbn [fold_left snd] in Hrun.
    destruct (backtrackLoop_empty_rows dp notes h k (length notes - k)
                [] [] []) as [tr Hskip].
    { intros j Hj. apply Hrows. lia. }
    { lia. }
    replace (k + (length notes - k))%nat with (length notes) in Hskip by lia.
    rewrite Hskip in Hrun.
    destruct (backtrackLoop_written _ _ _ _ _ _ _ _ _ _ _ Hrun)
      as [F0 [E0 [HF [HE [Hf He]]]]].
    intros i Hi. cbn [fingering explanations].
    rewrite HF, HE, !app_nil_r, !nth_error_app2 by lia.
    rewrite Hf, He. split; apply nth_error_repeat; lia.
Qed.

Lemma pruned_rows_default_witness :
  exists sol,
    planHandFingering intermediate farLeap [] RH = Some sol
    /\ nth_error (fingering sol) 1 = Some 3
    /\ nth_error (explanations sol) 1 = Some EmptyString.
Proof.
  assert (Hne : farLeap <> []) by discriminate.
  destruct (pruned_rows_default intermediate farLeap [] RH Hne)
    as [dp [lastRow [sol [_ [_ [_ [Hplan [_ Hpruned]]]]]]]].
  exists sol. split.
  - apply Hplan. simpl. lia.
  - apply (proj2 (Hpruned 1%nat (le_n 1) eq_refl) 1%nat). simpl. lia.
Defined.

(** ** An infinite total cost *)

(** C10.  For the two right-hand notes [farLeap], a hundred semitones apart,
    all 25 transitions cost more than 300 at every difficulty level;
    [planFingering] returns a fingering with a finger for each of the two
    notes, and the total cost [Infinity]. *)
Theorem infinite_total_cost level :
  exists sol,
    farLeap <> []
    /\ allPruned level farLeap [] RH 1 = true
    /\ planFingering level farLeap [] = Some sol
    /\ fingering sol = [3; 3]
    /\ length (fingering sol) = length farLeap
    /\ Forall (fun f => In f fingers) (fingering sol)
    /\ totalCost sol = Infinity.
Proof.
  destruct level; eexists;
    (split; [discriminate |]);
    (split; [vm_compute; reflexivity |]);
    (split; [vm_compute; reflexivity |]);
    cbn [fingering totalCost];
    (split; [reflexivity |]);
    (split; [reflexivity |]);
    (split; [| reflexivity]);
    repeat constructor; simpl; tauto.
Qed.

(** ** The C major scale *)

(** C2, on the code.  At every difficulty level the ten right-hand notes of
    [cMajorScale], with no pattern segment, are classified as a scale and
    every position has [isScale] true.  The returned fingering is
    1,2,3,1,2,3,1,2,3,1: it does not begin 1,2,3,1,2,3,4,5, the standard
    fingering that the comments of [computeScaleTransitionCost] name.  After
    finger 3 the thumb-under 3 -> 1 and the step 3 -> 4 are both rewarded -30
    as standard scale fingering, so nothing keeps the thumb from passing
    under again after the sixth note.  The total cost -300 is strictly lower
    than the cost 510 of the fingering that puts the thumb on every note. *)
Theorem c_major_scale_fingering level :
  exists sol,
    detectScalePattern cMajorScale = true
    /\ length (analyzeHandPositions cMajorScale RH) = length cMajorScale
    /\ Forall (fun pos => isScale pos = true)
              (analyzeHandPositions cMajorScale RH)
    /\ planFingering level cMajorScale [] = Some sol
    /\ fingering sol = [1; 2; 3; 1; 2; 3; 1; 2; 3; 1]
    /\ firstn 8 (fingering sol) <> [1; 2; 3; 1; 2; 3; 4; 5]
    /\ cost (computeScaleTransitionCost 3 1 true RH 1) = (-30)%Q
    /\ cost (computeScaleTransitionCost 3 4 true RH 1) = (-30)%Q
    /\ totalCost sol = Fin (-300)
    /\ fingeringCost level cMajorScale [] RH (repeat 1 10) = Some 510%Q
    /\ Num_ltb (totalCost sol) (Fin 510) = true.
Proof.
  assert (Hpos : Forall (fun pos => isScale pos = true)
                        (analyzeHandPositions cMajorScale RH)).
  { vm_compute. repeat constructor. }
  destruct level; eexists;
    (split; [vm_compute; reflexivity |]);
    (split; [vm_compute; reflexivity |]);
    (split; [exact Hpos |]);
    (split; [vm_compute; reflexivity |]);
    cbn [fingering totalCost];
    (split; [reflexivity |]);
    (split; [discriminate |]);
    (split; [reflexivity |]);
    (split; [reflexivity |]);
    (split; [reflexivity |]);
    (split; vm_compute; reflexivity).
Qed.

(** ** Difficulty scaling and scale mode *)

(** In scale mode the difficulty level plays no part. *)
Lemma scale_mode_ignores_level level prevNote prevFinger currNote currFinger
      ctx h pos :
  isScale pos || isSCALE ctx = true ->
  computeTransitionCost level prevNote prevFinger currNote currFinger ctx h pos
  = computeScaleTransitionCost
      prevFinger currFinger (pitch currNote - pitch prevNote >? 0) h
      (Z.abs (pitch currNote - pitch prevNote)).
Proof.
  intros Hmode. unfold computeTransitionCost. now rewrite Hmode.
Qed.

(** In position mode the difficulty multiplier is applied once, to the sum of
    the rule contributions. *)
Lemma position_mode_scaled_once level prevNote prevFinger currNote currFinger
      ctx h pos :
  isScale pos || isSCALE ctx = false ->
  cost (computeTransitionCost level prevNote prevFinger currNote currFinger
                              ctx h pos)
  = applyDifficultyAdjustment level
      (cost (computeTransitionCost intermediate prevNote prevFinger
                                   currNote currFinger ctx h pos))
      ctx.
Proof.
  intros Hmode. unfold computeTransitionCost. rewrite Hmode. reflexivity.
Qed.

(** Below the scale-mode guard the pattern context is never SCALE, so the
    thumb-crossing rule of position mode (RULE 8) is never applied. *)
Lemma position_mode_not_scale_context ctx pos :
  isScale pos || isSCALE ctx = false -> isSCALE ctx = false.
Proof. intros H. apply orb_false_iff in H. tauto. Qed.

(** C3, on the code: at the beginner level the transition 1 -> 2 between the
    first two notes of [cMajorScale] (scale mode) costs -30, the unscaled
    scale transition cost, not 1.1 times it; and the total cost of the scale
    is -300 at the beginner level as at the others. *)
Theorem scale_mode_cost_unscaled :
  cost (computeTransitionCost beginner (rhNote 60) 1 (rhNote 62) 2
                              UNKNOWN RH (mkPos 60 false true))
  = cost (computeScaleTransitionCost 1 2 true RH 2)
  /\ cost (computeScaleTransitionCost 1 2 true RH 2) = (-30)%Q
  /\ ~ Qeq (cost (computeTransitionCost beginner (rhNote 60) 1 (rhNote 62) 2
                                        UNKNOWN RH (mkPos 60 false true)))
            (applyDifficultyAdjustment beginner
               (cost (computeScaleTransitionCost 1 2 true RH 2)) UNKNOWN)
  /\ exists sol,
      planFingering beginner cMajorScale [] = Some sol
      /\ totalCost sol = Fin (-300).
Proof.
  split; [reflexivity |]. split; [reflexivity |]. split.
  - vm_compute. discriminate.
  - eexists. split; [vm_compute; reflexivity | reflexivity].
Qed.

(** ** SCALE pattern context *)

Lemma naturalSpan_thumb_third :
  getNaturalSpan 3 1 = 4 /\ getNaturalSpan 1 3 = 4.
Proof. split; reflexivity. Qed.

(** C9, on the code.  In [stepUp] with the segment of [scaleMeasureOne] the
    position analysis does not flag a scale ([isScale] is false) and the
    pattern context of the second note is SCALE.  The right-hand thumb-under
    3 -> 1 from pitch 60 to 62 then costs -30, with the single reason
    "Standard scale fingering": the scale-mode guard of
    [computeTransitionCost] has returned the scale transition cost.  The
    rules below the guard would have given -6 and the reason
    "Good thumb under (3->1)" of RULE 8.  The guard returns for every
    transition in SCALE context, so RULE 8, which tests for that context, is
    never reached: the reasons of a thumb-under or finger-over transition in
    SCALE context are those of scale mode, without the labels of RULE 8. *)
Theorem scale_context_bonus_unreachable :
  nth_error (analyzeHandPositions stepUp RH) 1 = Some (mkPos 60 true false)
  /\ getPatternContext stepUp 1 scaleMeasureOne = Some SCALE
  /\ edgeCost intermediate stepUp scaleMeasureOne RH 1 3 1 = Some (-30)%Q
  /\ reasons (computeTransitionCost intermediate (rhNote 60) 3 (rhNote 62) 1
                                    SCALE RH (mkPos 60 true false))
     = ["Standard scale fingering"%string]
  /\ positionTransitionCost intermediate (rhNote 60) 3 (rhNote 62) 1
                            SCALE RH (mkPos 60 true false)
     = mkCost (-6)%Q ["Wrong finger for position"%string;
                      "Good thumb under (3->1)"%string]
  /\ (forall level prevNote prevFinger currNote currFinger h pos,
         computeTransitionCost level prevNote prevFinger currNote currFinger
                               SCALE h pos
         = computeScaleTransitionCost
             prevFinger currFinger (pitch currNote - pitch prevNote >? 0) h
             (Z.abs (pitch currNote - pitch prevNote)))
  /\ (forall level prevNote prevFinger currNote currFinger h pos,
         idiomaticCrossing h (pitch currNote - pitch prevNote >? 0)
                           prevFinger currFinger ->
         reasons (computeTransitionCost level prevNote prevFinger currNote
                                        currFinger SCALE h pos)
         = "Standard scale fingering"%string
           :: (if Z.abs (pitch currNote - pitch prevNote) >? 6
               then ["Over-stretch in scale"%string] else [])).
Proof.
  repeat (split; [reflexivity |]).
  assert (Hguard : forall level prevNote prevFinger currNote currFinger h pos,
             computeTransitionCost level prevNote prevFinger currNote
                                   currFinger SCALE h pos
             = computeScaleTransitionCost
                 prevFinger currFinger (pitch currNote - pitch prevNote >? 0)
                 h (Z.abs (pitch currNote - pitch prevNote))).
  { intros. apply scale_mode_ignores_level. apply orb_true_r. }
  split; [exact Hguard |].
  intros level prevNote prevFinger currNote currFinger h pos Hcross.
  rewrite Hguard.
  destruct Hcross as [[-> [-> [-> ->]]] | [[-> [-> [-> ->]]]
                     | [[-> [-> [-> ->]]] | [-> [-> [-> ->]]]]]];
    unfold computeScaleTransitionCost; cbn -[Z.gtb Z.abs Z.mul Z.sub inject_Z];
    change (4 + 2) with 6;
    destruct (Z.abs (pitch currNote - pitch prevNote) >? 6); reflexivity.
Qed.

(** * Further properties of the planner *)

(** ** Keys, spans and difficulty *)

(** X1.  [isBlackKey] holds exactly for the non-negative pitches whose pitch
    class is 1, 3, 6, 8 or 10: the remainder of a negative pitch is never
    positive, so no negative pitch is a black key. *)
Theorem isBlackKey_spec p :
  isBlackKey p = true <-> 0 <= p /\ In (p mod 12) [1; 3; 6; 8; 10].
Proof.
  unfold isBlackKey. cbv zeta. rewrite existsb_exists. split.
  - intros [x [Hin Heq]]. apply Z.eqb_eq in Heq. subst x.
    destruct (Z.le_gt_cases 0 p) as [Hpos | Hneg].
    + rewrite Z.rem_mod_nonneg in Hin by lia. auto.
    + exfalso.
      assert (Hb : - (12) < Z.rem p 12 <= 0)
        by (apply Z.rem_bound_pos_neg; lia).
      cbn [In] in Hin. lia.
  - intros [Hpos Hin]. exists (p mod 12).
    rewrite Z.rem_mod_nonneg by lia. split; [exact Hin | apply Z.eqb_refl].
Qed.

Lemma lookupPair_in k t v :
  lookupPair k t = Some v -> In (k, v) t.
Proof.
  induction t as [| [[a b] w] t IH]; simpl; [discriminate |].
  destruct ((a =? fst k) && (b =? snd k)) eqn:E.
  - intros Hv. injection Hv as <-. apply andb_true_iff in E.
    destruct E as [Ha Hb]. apply Z.eqb_eq in Ha, Hb. destruct k as [k1 k2].
    simpl in *. subst. now left.
  - intros Hv. right. now apply IH.
Qed.

(** X2.  The natural span does not depend on the order of the two fingers,
    lies between 0 and 8, is 0 for a finger paired with itself (and for any
    finger outside 1..5), and is at least 1 for two different fingers of
    1..5. *)
Theorem getNaturalSpan_facts a b :
  getNaturalSpan a b = getNaturalSpan b a
  /\ 0 <= getNaturalSpan a b <= 8
  /\ getNaturalSpan a a = 0
  /\ (~ In a fingers -> getNaturalSpan a b = 0)
  /\ (In a fingers -> In b fingers -> a <> b -> 1 <= getNaturalSpan a b).
Proof.
  assert (Hin : forall x y, getNaturalSpan x y = 0
                            \/ In ((Z.min x y, Z.max x y), getNaturalSpan x y)
                                  naturalSpans).
  { intros x y. unfold getNaturalSpan.
    destruct (lookupPair (Z.min x y, Z.max x y) naturalSpans) as [v |] eqn:E;
      [| now left].
    destruct (Z.eqb_spec v 0) as [-> | Hv]; [now left |].
    right. now apply lookupPair_in. }
  split; [| split; [| split; [| split]]].
  - unfold getNaturalSpan. now rewrite Z.min_comm, Z.max_comm.
  - destruct (Hin a b) as [-> | H]; [lia |].
    simpl in H.
    repeat (destruct H as [H | H];
            [injection H as _ _ <-; lia |]).
    destruct H.
  - destruct (Hin a a) as [H | H]; [exact H |].
    rewrite Z.min_id, Z.max_id in H. simpl in H.
    repeat (destruct H as [H | H]; [injection H as H1 H2 _; lia |]).
    destruct H.
  - intros Hout. destruct (Hin a b) as [H | H]; [exact H |].
    exfalso. apply Hout. simpl in H |- *.
    repeat (destruct H as [H | H]; [injection H as H1 H2 _; lia |]).
    destruct H.
  - intros Ha Hb Hab. simpl in Ha, Hb.
    destruct Ha as [<- | [<- | [<- | [<- | [<- | []]]]]];
      destruct Hb as [<- | [<- | [<- | [<- | [<- | []]]]]];
      try contradiction; vm_compute; discriminate.
Qed.

Lemma getNaturalSpan_facts_witness : 1 <= getNaturalSpan 4 3.
Proof.
  apply (proj2 (proj2 (proj2 (proj2 (getNaturalSpan_facts 4 3))))).
  - simpl. tauto.
  - simpl. tauto.
  - discriminate.
Defined.

(** X3.  The difficulty adjustment keeps the sign of a cost, and orders the
    three levels: a penalty is smallest for advanced and largest for
    beginner, a reward is smallest in size for advanced and largest for
    beginner. *)
Theorem difficulty_ordering (c : Q) ctx :
  ((0 <= c)%Q ->
   (0 <= applyDifficultyAdjustment advanced c ctx)%Q
   /\ (applyDifficultyAdjustment advanced c ctx
       <= applyDifficultyAdjustment intermediate c ctx)%Q
   /\ (applyDifficultyAdjustment intermediate c ctx
       <= applyDifficultyAdjustment beginner c ctx)%Q)
  /\ ((c <= 0)%Q ->
      (applyDifficultyAdjustment beginner c ctx
       <= applyDifficultyAdjustment intermediate c ctx)%Q
      /\ (applyDifficultyAdjustment intermediate c ctx
          <= applyDifficultyAdjustment advanced c ctx)%Q
      /\ (applyDifficultyAdjustment advanced c ctx <= 0)%Q).
Proof.
  destruct c as [n d].
  split; intros Hc; unfold Qle in Hc; simpl in Hc;
    destruct ctx; unfold applyDifficultyAdjustment, Qle; simpl;
    repeat split; nia.
Qed.

Lemma difficulty_ordering_witness :
  (applyDifficultyAdjustment beginner (-40)%Q POLYPHONIC
   <= applyDifficultyAdjustment intermediate (-40)%Q POLYPHONIC)%Q.
Proof.
  apply (proj2 (difficulty_ordering (-40)%Q POLYPHONIC)).
  unfold Qle. simpl. lia.
Defined.

(** ** Pattern context: ignored segments and the types supplied *)

Lemma firstByMeasure_skip note before p after :
  inBounds (measureNumber note) p = false ->
  firstByMeasure note (before ++ p :: after)
  = firstByMeasure note (before ++ after).
Proof.
  intros Hp. induction before as [| q before IH]; simpl.
  - now rewrite Hp.
  - now rewrite IH.
Qed.

Lemma firstByIndex_skip index before p after :
  inBounds (Z.of_nat index) p = false ->
  firstByIndex index (before ++ p :: after)
  = firstByIndex index (before ++ after).
Proof.
  intros Hp. induction before as [| q before IH]; simpl.
  - now rewrite Hp.
  - now rewrite IH.
Qed.

(** X5.  A segment whose bounds are inverted ([endIndex < startIndex]) never
    matches: removing it from the list changes no note's pattern context. *)
Theorem inverted_segment_ignored notes index before p after :
  (index < length notes)%nat ->
  endIndex p < startIndex p ->
  getPatternContext notes index (before ++ p :: after)
  = getPatternContext notes index (before ++ after).
Proof.
  intros Hindex Hinv.
  destruct (nth_error_in_range notes index Hindex) as [note Hnote].
  rewrite !(getPatternContext_unfold _ _ _ _ Hnote).
  rewrite firstByMeasure_skip, firstByIndex_skip;
    [reflexivity | |]; apply inBounds_false; lia.
Qed.

Lemma inverted_segment_ignored_witness :
  getPatternContext [rhNote 60] 0 [mkSegment 5 0 SCALE; mkSegment 0 3 POLYPHONIC]
  = getPatternContext [rhNote 60] 0 [mkSegment 0 3 POLYPHONIC].
Proof.
  apply (inverted_segment_ignored [rhNote 60] 0 [] (mkSegment 5 0 SCALE)
                                  [mkSegment 0 3 POLYPHONIC]).
  - simpl. lia.
  - simpl. lia.
Defined.

Lemma firstByMeasure_in note patterns t :
  firstByMeasure note patterns = Some t -> In t (map patternType patterns).
Proof.
  induction patterns as [| p patterns IH]; simpl; [discriminate |].
  destruct (inBounds (measureNumber note) p).
  - intros H. injection H as <-. now left.
  - intros H. right. now apply IH.
Qed.

Lemma firstByIndex_in index patterns t :
  firstByIndex index patterns = Some t -> In t (map patternType patterns).
Proof.
  induction patterns as [| p patterns IH]; simpl; [discriminate |].
  destruct (inBounds (Z.of_nat index) p).
  - intros H. injection H as <-. now left.
  - intros H. right. now apply IH.
Qed.

(** X6.  A pattern context is UNKNOWN or the type of one of the supplied
    segments; when no supplied segment has type SCALE, no note has pattern
    context SCALE. *)
Theorem pattern_context_from_segments notes index patterns t :
  getPatternContext notes index patterns = Some t ->
  (t = UNKNOWN \/ In t (map patternType patterns))
  /\ (Forall (fun p => isSCALE (patternType p) = false) patterns ->
      isSCALE t = false).
Proof.
  intros Hctx.
  assert (Hin : t = UNKNOWN \/ In t (map patternType patterns)).
  { unfold getPatternContext in Hctx. destruct patterns as [| p patterns].
    - injection Hctx as <-. now left.
    - destruct (nth_error notes index) as [note |]; [| discriminate].
      cbn [bind] in Hctx.
      destruct (firstByMeasure note (p :: patterns)) as [t1 |] eqn:E1.
      + injection Hctx as <-. right. now apply (firstByMeasure_in note).
      + destruct (firstByIndex index (p :: patterns)) as [t2 |] eqn:E2.
        * injection Hctx as <-. right. now apply (firstByIndex_in index).
        * injection Hctx as <-. now left. }
  split; [exact Hin |].
  intros Hnone. destruct Hin as [-> | Hin]; [reflexivity |].
  apply in_map_iff in Hin. destruct Hin as [p [<- Hp]].
  rewrite Forall_forall in Hnone. now apply Hnone.
Qed.

Lemma pattern_context_from_segments_witness :
  isSCALE POLYPHONIC = false.
Proof.
  apply (proj2 (pattern_context_from_segments
                  [rhNote 60] 0 [mkSegment 0 3 POLYPHONIC] POLYPHONIC
                  eq_refl)).
  repeat constructor.
Defined.

(** ** The first note *)

Lemma expectedFinger_range h offset :
  In (expectedFinger h offset) fingers.
Proof.
  unfold expectedFinger, fingers.
  destruct h;
    repeat match goal with
           | |- context [if ?c then _ else _] => destruct c
           end; simpl; tauto.
Qed.

(** X7.  Among the fingers 1..5 the expected finger of the five-finger ladder
    has the strictly lowest initial cost, on white and on black keys alike. *)
Theorem initial_cost_prefers_expected finger note h pos :
  In finger fingers ->
  finger <> expectedFinger h (pitch note - anchorPitch pos) ->
  Qlt (cost (computeInitialCost
               (expectedFinger h (pitch note - anchorPitch pos)) note h pos))
      (cost (computeInitialCost finger note h pos)).
Proof.
  intros Hfinger Hne. unfold computeInitialCost. cbv zeta.
  pose proof (expectedFinger_range h (pitch note - anchorPitch pos)) as He.
  destruct (expectedFinger h (pitch note - anchorPitch pos)) as [| e | e] eqn:E;
    try (simpl in He; exfalso; clear - He; intuition discriminate).
  simpl in He, Hfinger.
  destruct He as [He | [He | [He | [He | [He | []]]]]];
    injection He as <-;
    destruct Hfinger as [Hf | [Hf | [Hf | [Hf | [Hf | []]]]]];
    subst finger; try contradiction;
    destruct (isBlackKey (pitch note)); vm_compute; reflexivity.
Qed.

Lemma initial_cost_prefers_expected_witness :
  Qlt (cost (computeInitialCost 1 (rhNote 61) RH (mkPos 61 true false)))
      (cost (computeInitialCost 2 (rhNote 61) RH (mkPos 61 true false))).
Proof.
  apply (initial_cost_prefers_expected 2 (rhNote 61) RH (mkPos 61 true false)).
  - simpl. tauto.
  - discriminate.
Defined.

Lemma single_note_positions note h :
  analyzeHandPositions [note] h = [mkPos (pitch note) true false].
Proof.
  unfold analyzeHandPositions. cbn [detectScalePattern length Nat.ltb Nat.leb].
  cbn [positionScan]. rewrite Z.max_id, Z.min_id, Z.sub_diag.
  cbn [Z.gtb Z.compare]. unfold fillRange. simpl. destruct h; reflexivity.
Qed.

Lemma single_note_dpOptimization level note patterns h :
  exists sol,
    dpOptimization level [note] patterns h = Some sol
    /\ fingering sol = [1]
    /\ explanations sol
       = [if isBlackKey (pitch note)
          then "Matches hand position; Short finger on black key"%string
          else "Matches hand position"%string]
    /\ totalCost sol = Fin (if isBlackKey (pitch note) then -10 else -30)%Q.
Proof.
  unfold dpOptimization, dpTable. rewrite single_note_positions.
  cbn [nth_error bind length Nat.sub forwardLoop].
  unfold backtrack. cbn [length nth_error bind].
  unfold initialRow, computeInitialCost. cbn [pitch anchorPitch].
  rewrite Z.sub_diag.
  destruct h; destruct (isBlackKey (pitch note)); vm_compute; eexists;
    repeat split.
Qed.

(** X8.  A piece of a single note is fingered with the thumb, whatever the
    hand, the pitch, the pattern segments and the difficulty level, at total
    cost -30 on a white key and -10 on a black key (where the thumb is
    labelled a short finger on a black key and still chosen). *)
Theorem single_note_thumb level note patterns :
  exists sol,
    planFingering level [note] patterns = Some sol
    /\ fingering sol = [1]
    /\ explanations sol
       = [if isBlackKey (pitch note)
          then "Matches hand position; Short finger on black key"%string
          else "Matches hand position"%string]
    /\ totalCost sol = Fin (if isBlackKey (pitch note) then -10 else -30)%Q.
Proof.
  destruct (single_note_dpOptimization level note patterns (hand note))
    as [hs [Hhs [Hf [He Ht]]]].
  unfold planFingering. cbn [length Nat.eqb filter].
  destruct (hand note) eqn:Eh; cbn [Hand_eqb];
    unfold planHandFingering; cbn [length Nat.eqb Nat.ltb Nat.leb];
    rewrite Hhs; cbn [bind mergeLoop]; rewrite Eh, Hf, He, Ht;
    eexists; (split; [reflexivity |]); cbn [fingering explanations totalCost];
    destruct (isBlackKey (pitch note)); repeat split.
Qed.

(** ** The table of the forward pass *)

Lemma Num_le_refl a : Num_le a a.
Proof. destruct a; simpl; [apply Qle_refl | exact I]. Qed.

Lemma Num_le_trans a b c : Num_le a b -> Num_le b c -> Num_le a c.
Proof.
  destruct a, b, c; simpl; try tauto. apply Qle_trans.
Qed.

Lemma Num_ltb_le a b : Num_ltb a b = true -> Num_le a b.
Proof.
  destruct a, b; simpl; try discriminate; try tauto.
  intros H. apply Qltb_lt in H. now apply Qlt_le_weak.
Qed.

Lemma Num_ltb_ge a b : Num_ltb a b = false -> Num_le b a.
Proof.
  destruct a, b; simpl; try discriminate; try tauto.
  intros H. now apply Qltb_ge in H.
Qed.

Lemma map_get_set_same k c r : map_get k (map_set k c r) = Some c.
Proof.
  induction r as [| [k' c'] r IH]; simpl.
  - now rewrite Z.eqb_refl.
  - destruct (k' =? k) eqn:E; simpl; rewrite E; [reflexivity | exact IH].
Qed.

Lemma map_get_set_other k k' c r :
  k' <> k -> map_get k' (map_set k c r) = map_get k' r.
Proof.
  intros Hne. induction r as [| [k0 c0] r IH]; simpl.
  - apply Z.eqb_neq in Hne. rewrite Z.eqb_sym in Hne. now rewrite Hne.
  - destruct (Z.eqb_spec k0 k) as [-> | Hk0]; simpl.
    + destruct (Z.eqb_spec k k') as [Heq | _]; [congruence | reflexivity].
    + destruct (k0 =? k'); [reflexivity | exact IH].
Qed.

Lemma map_set_keys k c r :
  NoDup (map fst r) ->
  NoDup (map fst (map_set k c r))
  /\ (forall x, In x (map fst (map_set k c r)) -> x = k \/ In x (map fst r)).
Proof.
  induction r as [| [k' c'] r IH]; simpl; intros Hnd.
  - split; [| intros x [<- | []]; now left].
    apply NoDup_cons; [simpl; tauto | apply NoDup_nil].
  - inversion Hnd as [| ? ? Hnotin Hnd']; subst.
    destruct (k' =? k) eqn:E; simpl.
    + split; [exact Hnd | tauto].
    + destruct (IH Hnd') as [Hnd'' Hkeys]. split.
      * constructor; [| exact Hnd''].
        intros Hin. destruct (Hkeys _ Hin) as [-> | Hold];
          [rewrite Z.eqb_refl in E; discriminate | contradiction].
      * intros x [<- | Hin]; [tauto |].
        destruct (Hkeys _ Hin); tauto.
Qed.

Lemma map_get_in k c r : map_get k r = Some c -> In (k, c) r.
Proof.
  induction r as [| [k' c'] r IH]; simpl; [discriminate |].
  destruct (Z.eqb_spec k' k) as [-> | Hne].
  - intros H. injection H as <-. now left.
  - intros H. right. now apply IH.
Qed.

Lemma in_map_get k c r :
  NoDup (map fst r) -> In (k, c) r -> map_get k r = Some c.
Proof.
  induction r as [| [k' c'] r IH]; simpl; intros Hnd Hin; [contradiction |].
  inversion Hnd as [| ? ? Hnotin Hnd']; subst.
  destruct Hin as [Heq | Hin].
  - injection Heq as -> ->. now rewrite Z.eqb_refl.
  - destruct (Z.eqb_spec k' k) as [-> | Hne].
    + exfalso. apply Hnotin. apply in_map_iff. now exists (k, c).
    + now apply IH.
Qed.

Section RowFacts.

Variable level : Difficulty.
Variable h : Hand.
Variable i : nat.
Variable prevRow : Row.
Variable prevNote currNote : Note.
Variable ctx : PatternType.
Variable pos : HandPosition.

(** One step of the loop over [fromFinger]: the best candidate never gets
    worse, it is at least as good as the edge just looked at, and it is
    either unchanged or that edge. *)
Lemma relax_step to b from :
  let b' := relax level h i prevRow prevNote currNote ctx pos to b from in
  let tc := computeTransitionCost level prevNote from currNote to ctx h pos in
  Num_le (minCost b') (minCost b)
  /\ (forall pc, map_get from prevRow = Some pc ->
                 Qltb 300 (cost tc) = false ->
                 Num_le (minCost b') (Fin (cell_cost pc + cost tc)))
  /\ (b' = b
      \/ exists pc, map_get from prevRow = Some pc
                    /\ Qltb 300 (cost tc) = false
                    /\ b' = mkBest (Fin (cell_cost pc + cost tc))
                                   (Some ((i - 1)%nat, from)) (reasons tc)).
Proof.
  cbv zeta. unfold relax.
  destruct (map_get from prevRow) as [pc |] eqn:Eget.
  - destruct (Qltb 300 (cost (computeTransitionCost level prevNote from
                                                    currNote to ctx h pos)))
      eqn:Eprune.
    + split; [apply Num_le_refl |]. split; [discriminate | now left].
    + destruct (Num_ltb (Fin (cell_cost pc
                              + cost (computeTransitionCost
                                        level prevNote from currNote to
                                        ctx h pos))) (minCost b)) eqn:Elt.
      * split; [now apply Num_ltb_le |]. split.
        -- intros pc' Hpc _. injection Hpc as <-. apply Num_le_refl.
        -- right. exists pc. auto.
      * split; [apply Num_le_refl |]. split.
        -- intros pc' Hpc _. injection Hpc as <-. now apply Num_ltb_ge.
        -- now left.
  - split; [apply Num_le_refl |]. split; [discriminate | now left].
Qed.

Lemma relax_fold to l :
  forall b,
    let b' := fold_left (relax level h i prevRow prevNote currNote ctx pos to)
                        l b in
    Num_le (minCost b') (minCost b)
    /\ (forall from pc,
           In from l -> map_get from prevRow = Some pc ->
           Qltb 300 (cost (computeTransitionCost level prevNote from currNote
                                                 to ctx h pos)) = false ->
           Num_le (minCost b')
                  (Fin (cell_cost pc
                        + cost (computeTransitionCost level prevNote from
                                                      currNote to ctx h pos))))
    /\ (b' = b
        \/ exists from pc,
            In from l
            /\ map_get from prevRow = Some pc
            /\ Qltb 300 (cost (computeTransitionCost level prevNote from
                                                     currNote to ctx h pos))
               = false
            /\ b' = mkBest
                      (Fin (cell_cost pc
                            + cost (computeTransitionCost level prevNote from
                                                          currNote to ctx h
                                                          pos)))
                      (Some ((i - 1)%nat, from))
                      (reasons (computeTransitionCost level prevNote from
                                                      currNote to ctx h pos))).
Proof.
  induction l as [| x l IH]; intros b; cbv zeta.
  - split; [apply Num_le_refl |]. split; [intros ? ? [] | now left].
  - cbn [fold_left].
    destruct (relax_step to b x) as [Hle [Hedge Hwho]].
    destruct (IH (relax level h i prevRow prevNote currNote ctx pos to b x))
      as [Hle' [Hedge' Hwho']].
    split; [eapply Num_le_trans; eassumption |]. split.
    + intros from pc [<- | Hin] Hget Hprune.
      * eapply Num_le_trans; [exact Hle' | now apply Hedge].
      * now apply Hedge'.
    + destruct Hwho' as [-> | [from [pc [Hin [Hget [Hprune ->]]]]]].
      * destruct Hwho as [-> | [pc [Hget [Hprune ->]]]]; [now left |].
        right. exists x, pc. repeat split; auto. now left.
      * right. exists from, pc. repeat split; auto. now right.
Qed.

Lemma fillCell_fold_get to l :
  forall row,
    map_get to (fold_left (fillCell level h i prevRow prevNote currNote ctx pos)
                          l row)
    = if existsb (Z.eqb to) l then
        let b := fold_left
                   (relax level h i prevRow prevNote currNote ctx pos to)
                   fingers (mkBest Infinity None []) in
        match minCost b with
        | Fin c => Some (mkCell c (bestParent b) (bestReasons b))
        | Infinity => map_get to row
        end
      else map_get to row.
Proof.
  induction l as [| x l IH]; intros row; [reflexivity |].
  cbn [fold_left existsb]. rewrite IH. cbv zeta.
  destruct (Z.eqb_spec to x) as [<- | Hne].
  - cbn [orb]. unfold fillCell at 1 2.
    destruct (minCost
                (fold_left
                   (relax level h i prevRow prevNote currNote ctx pos to)
                   fingers (mkBest Infinity None []))) as [c |].
    + rewrite map_get_set_same. now destruct (existsb (Z.eqb to) l).
    + now destruct (existsb (Z.eqb to) l).
  - cbn [orb].
    assert (Hsame : map_get to
                      (fillCell level h i prevRow prevNote currNote ctx pos
                                row x) = map_get to row).
    { unfold fillCell.
      destruct (minCost
                  (fold_left
                     (relax level h i prevRow prevNote currNote ctx pos x)
                     fingers (mkBest Infinity None []))); [| reflexivity].
      now apply map_get_set_other. }
    now rewrite Hsame.
Qed.

Lemma fillCell_fold_keys l :
  forall row,
    NoDup (map fst row) ->
    (forall k, In k (map fst row) -> In k fingers) ->
    (forall x, In x l -> In x fingers) ->
    let row' := fold_left (fillCell level h i prevRow prevNote currNote ctx pos)
                          l row in
    NoDup (map fst row') /\ (forall k, In k (map fst row') -> In k fingers).
Proof.
  induction l as [| x l IH]; intros row Hnd Hkeys Hl; cbv zeta;
    [split; assumption |].
  cbn [fold_left]. apply IH.
  - unfold fillCell. destruct (minCost _); [| exact Hnd].
    now apply map_set_keys.
  - intros k. unfold fillCell. destruct (minCost _); [| apply Hkeys].
    intros Hin. destruct (proj2 (map_set_keys _ _ _ Hnd) _ Hin) as [-> | Hold].
    + apply Hl. now left.
    + now apply Hkeys.
  - intros y Hy. apply Hl. now right.
Qed.

End RowFacts.

Lemma nextRow_inv level notes patterns h i prevRow row :
  nextRow level notes patterns h (analyzeHandPositions notes h) i prevRow
  = Some row ->
  exists pos ctx prevNote currNote,
    row = fold_left (fillCell level h i prevRow prevNote currNote ctx pos)
                    fingers []
    /\ forall from to,
        edgeCost level notes patterns h i from to
        = Some (cost (computeTransitionCost level prevNote from currNote to
                                            ctx h pos)).
Proof.
  unfold nextRow, edgeCost. intros Hrow.
  destruct (nth_error (analyzeHandPositions notes h) i) as [pos |];
    [| discriminate].
  destruct (getPatternContext notes i patterns) as [ctx |]; [| discriminate].
  destruct (nth_error notes (i - 1)) as [prevNote |]; [| discriminate].
  destruct (nth_error notes i) as [currNote |]; [| discriminate].
  cbn [bind] in *. injection Hrow as <-.
  exists pos, ctx, prevNote, currNote. split; reflexivity.
Qed.

Lemma in_fingers_existsb f : In f fingers <-> existsb (Z.eqb f) fingers = true.
Proof.
  rewrite existsb_exists. split.
  - intros Hin. exists f. split; [exact Hin | apply Z.eqb_refl].
  - intros [x [Hin Heq]]. apply Z.eqb_eq in Heq. now subst.
Qed.

(** A cell of a row after the first has a parent cell in the row before, an
    unpruned edge from it, and the parent's cost plus the edge's cost. *)
Lemma nextRow_cell level notes patterns h i prevRow row to cell :
  nextRow level notes patterns h (analyzeHandPositions notes h) i prevRow
  = Some row ->
  map_get to row = Some cell ->
  In to fingers
  /\ exists from pc c,
      In from fingers
      /\ map_get from prevRow = Some pc
      /\ edgeCost level notes patterns h i from to = Some c
      /\ Qltb 300 c = false
      /\ cell_cost cell = (cell_cost pc + c)%Q
      /\ cell_parent cell = Some ((i - 1)%nat, from).
Proof.
  intros Hrow Hget.
  destruct (nextRow_inv _ _ _ _ _ _ _ Hrow)
    as [pos [ctx [prevNote [currNote [-> Hedge]]]]].
  rewrite fillCell_fold_get in Hget. cbv zeta in Hget.
  destruct (existsb (Z.eqb to) fingers) eqn:Eto; [| discriminate].
  split; [now apply in_fingers_existsb |].
  destruct (relax_fold level h i prevRow prevNote currNote ctx pos to fingers
                       (mkBest Infinity None [])) as [_ [_ Hwho]].
  cbv zeta in Hwho.
  destruct Hwho as [Hsame | [from [pc [Hin [Hpc [Hprune Hbest]]]]]].
  - rewrite Hsame in Hget. discriminate.
  - rewrite Hbest in Hget. cbn [minCost bestParent bestReasons] in Hget.
    injection Hget as <-.
    exists from, pc. eexists. repeat split; try eassumption.
    apply Hedge.
Qed.

(** Every unpruned edge from a present cell is taken into account: its target
    cell is present and costs no more than the path through that edge. *)
Lemma nextRow_complete level notes patterns h i prevRow row from to pc c :
  nextRow level notes patterns h (analyzeHandPositions notes h) i prevRow
  = Some row ->
  In from fingers -> In to fingers ->
  map_get from prevRow = Some pc ->
  edgeCost level notes patterns h i from to = Some c ->
  Qltb 300 c = false ->
  exists cell, map_get to row = Some cell
               /\ (cell_cost cell <= cell_cost pc + c)%Q.
Proof.
  intros Hrow Hfrom Hto Hpc Hc Hprune.
  destruct (nextRow_inv _ _ _ _ _ _ _ Hrow)
    as [pos [ctx [prevNote [currNote [-> Hedge]]]]].
  rewrite Hedge in Hc. injection Hc as <-.
  rewrite fillCell_fold_get. cbv zeta.
  rewrite (proj1 (in_fingers_existsb to) Hto).
  destruct (relax_fold level h i prevRow prevNote currNote ctx pos to fingers
                       (mkBest Infinity None [])) as [_ [Hbound _]].
  cbv zeta in Hbound. specialize (Hbound from pc Hfrom Hpc Hprune).
  destruct (minCost
              (fold_left (relax level h i prevRow prevNote currNote ctx pos to)
                         fingers (mkBest Infinity None []))) as [q |];
    [| contradiction].
  eexists. split; [reflexivity | exact Hbound].
Qed.

Lemma nextRow_keys level notes patterns h i prevRow row :
  nextRow level notes patterns h (analyzeHandPositions notes h) i prevRow
  = Some row ->
  NoDup (map fst row).
Proof.
  intros Hrow.
  destruct (nextRow_inv _ _ _ _ _ _ _ Hrow)
    as [pos [ctx [prevNote [currNote [-> _]]]]].
  apply fillCell_fold_keys; [constructor | intros k [] | auto].
Qed.

Lemma initialRow_get first h firstPos f :
  map_get f (initialRow first h firstPos)
  = if existsb (Z.eqb f) fingers
    then Some (mkCell (cost (computeInitialCost f first h firstPos)) None
                      (reasons (computeInitialCost f first h firstPos)))
    else None.
Proof.
  unfold initialRow, fingers. cbn [fold_left map_set Z.eqb Pos.eqb].
  cbn [map_get existsb].
  rewrite !(Z.eqb_sym f).
  repeat match goal with
         | |- context [?k =? f] =>
             destruct (Z.eqb_spec k f) as [<- | ?]; [reflexivity |]
         end.
  reflexivity.
Qed.

Lemma initialRow_keys first h firstPos :
  NoDup (map fst (initialRow first h firstPos)).
Proof.
  unfold initialRow, fingers. cbn [fold_left map_set Z.eqb Pos.eqb map fst].
  repeat (apply NoDup_cons; [simpl; intuition discriminate |]).
  apply NoDup_nil.
Qed.

Lemma dpTable_first_row level notes patterns h dp :
  dpTable level notes patterns h = Some dp ->
  exists first firstPos,
    nth_error notes 0 = Some first
    /\ nth_error (analyzeHandPositions notes h) 0 = Some firstPos
    /\ nth_error dp 0 = Some (initialRow first h firstPos).
Proof.
  unfold dpTable. intros Hdp.
  destruct (nth_error (analyzeHandPositions notes h) 0) as [firstPos |];
    [| discriminate].
  destruct (nth_error notes 0) as [first |]; [| discriminate].
  cbn [bind] in Hdp.
  destruct (forwardLoop_rows _ _ _ _ _ _ _ _ _ Hdp eq_refl (le_n 1))
    as [_ [Hold _]].
  exists first, firstPos. repeat split. now rewrite Hold by lia.
Qed.

Lemma dpTable_row_keys level notes patterns h dp i row :
  dpTable level notes patterns h = Some dp ->
  nth_error dp i = Some row ->
  NoDup (map fst row).
Proof.
  intros Hdp Hrow.
  destruct (dpTable_rows _ _ _ _ _ Hdp) as [Hlen Hrows].
  assert (Hi : (i < length notes)%nat).
  { rewrite <- Hlen. apply nth_error_Some. congruence. }
  destruct i as [| j].
  - destruct (dpTable_first_row _ _ _ _ _ Hdp) as [first [firstPos [_ [_ H0]]]].
    rewrite H0 in Hrow. injection Hrow as <-. apply initialRow_keys.
  - destruct (Hrows (S j)) as [prevRow [row' [_ [Hrow' Hnext]]]]; [lia |].
    rewrite Hrow' in Hrow. injection Hrow as <-.
    now apply nextRow_keys in Hnext.
Qed.

Lemma Fin_inj a b : Fin a = Fin b -> a = b.
Proof. intros H. now injection H. Qed.

Lemma last_cons {A : Type} (x : A) l d : last (x :: l) d = last l x.
Proof.
  revert x d. induction l as [| y l IH]; intros x d; [reflexivity |].
  change (last (x :: y :: l) d) with (last (y :: l) d).
  now rewrite !IH.
Qed.

Lemma extendCost_snoc level notes patterns h rest :
  forall i prev acc to,
    extendCost level notes patterns h i prev (rest ++ [to]) acc
    = match extendCost level notes patterns h i prev rest acc with
      | Fin c =>
          match edgeCost level notes patterns h (i + length rest)
                         (last rest prev) to with
          | Some e => if Qltb 300 e then Infinity else Fin (c + e)%Q
          | None => Infinity
          end
      | Infinity => Infinity
      end.
Proof.
  induction rest as [| x rest IH]; intros i prev acc to.
  - cbn [app extendCost length last]. rewrite Nat.add_0_r.
    destruct (edgeCost level notes patterns h i prev to) as [e |];
      [| reflexivity].
    now destruct (Qltb 300 e).
  - cbn [app extendCost length].
    destruct (edgeCost level notes patterns h i prev x) as [e |];
      [| reflexivity].
    destruct (Qltb 300 e); [reflexivity |].
    rewrite IH, last_cons, Nat.add_succ_r. reflexivity.
Qed.

Lemma admissibleCost_snoc level notes patterns h f0 rest to :
  admissibleCost level notes patterns h ((f0 :: rest) ++ [to])
  = match admissibleCost level notes patterns h (f0 :: rest) with
    | Fin c =>
        match edgeCost level notes patterns h (length (f0 :: rest))
                       (last (f0 :: rest) 0) to with
        | Some e => if Qltb 300 e then Infinity else Fin (c + e)%Q
        | None => Infinity
        end
    | Infinity => Infinity
    end.
Proof.
  unfold admissibleCost. cbn [app].
  destruct (nth_error notes 0) as [first |]; [| reflexivity].
  destruct (nth_error (analyzeHandPositions notes h) 0) as [firstPos |];
    [| reflexivity].
  rewrite extendCost_snoc, last_cons. reflexivity.
Qed.

Lemma backtrackLoop_step dp notes h i cur fs es trail row note :
  nth_error dp i = Some row ->
  nth_error notes i = Some note ->
  backtrackLoop dp notes h (S i) cur fs es trail
  = backtrackLoop dp notes h i
      match map_get cur row with
      | Some s =>
          match cell_parent s with
          | Some (_, prevFinger) => prevFinger
          | None => cur
          end
      | None => cur
      end
      (cur :: fs) (explanationOf (map_get cur row) :: es)
      (mkState i cur h (pitch note)
               (match map_get cur row with
                | Some s => cell_cost s
                | None => 0%Q
                end)
               None
               (match map_get cur row with
                | Some s => cell_reasons s
                | None => []
                end) :: trail).
Proof.
  intros Hrow Hnote. cbn [backtrackLoop]. rewrite Hrow, Hnote. reflexivity.
Qed.

Section TableFacts.

Variable level : Difficulty.
Variable notes : list Note.
Variable patterns : list PatternSegment.
Variable h : Hand.
Variable dp : list Row.
Hypothesis table : dpTable level notes patterns h = Some dp.

Lemma table_cell_finger i row f cell :
  nth_error dp i = Some row -> map_get f row = Some cell ->
  In f fingers
  /\ (forall j pf, cell_parent cell = Some (j, pf) -> In pf fingers).
Proof.
  intros Hrow Hget.
  destruct (dpTable_rows _ _ _ _ _ table) as [Hlen Hrows].
  assert (Hi : (i < length notes)%nat).
  { rewrite <- Hlen. apply nth_error_Some. congruence. }
  destruct i as [| j].
  - destruct (dpTable_first_row _ _ _ _ _ table)
      as [first [firstPos [_ [_ H0]]]].
    rewrite H0 in Hrow. injection Hrow as <-.
    rewrite initialRow_get in Hget.
    destruct (existsb (Z.eqb f) fingers) eqn:E; [| discriminate].
    injection Hget as <-. split; [now apply in_fingers_existsb |].
    intros j pf Hp. discriminate.
  - destruct (Hrows (S j)) as [prevRow [row' [_ [Hrow' Hnext]]]]; [lia |].
    rewrite Hrow' in Hrow. injection Hrow as ->.
    destruct (nextRow_cell _ _ _ _ _ _ _ _ _ Hnext Hget)
      as [Hf [from [pc [c [Hfrom [_ [_ [_ [_ Hparent]]]]]]]]].
    split; [exact Hf |].
    intros j' pf Hp. rewrite Hparent in Hp. now injection Hp as _ <-.
Qed.

(** Backtracking from a present cell walks an unpruned path whose cumulative
    cost is the cost of the cell. *)
Lemma backtrack_chain i :
  forall f row cell fs es trail,
    nth_error dp i = Some row -> map_get f row = Some cell ->
    exists P E T,
      backtrackLoop dp notes h (S i) f fs es trail = Some (P ++ f :: fs, E, T)
      /\ length P = i
      /\ Forall (fun x => In x fingers) (P ++ [f])
      /\ admissibleCost level notes patterns h (P ++ [f])
         = Fin (cell_cost cell).
Proof.
  destruct (dpTable_rows _ _ _ _ _ table) as [Hlen Hrows].
  induction i as [| j IH]; intros f row cell fs es trail Hrow Hget.
  - destruct (dpTable_first_row _ _ _ _ _ table)
      as [first [firstPos [Hfirst [Hpos H0]]]].
    pose proof Hrow as Hrow0. rewrite H0 in Hrow0. injection Hrow0 as <-.
    pose proof Hget as Hcell. rewrite initialRow_get in Hcell.
    destruct (existsb (Z.eqb f) fingers) eqn:E; [| discriminate].
    injection Hcell as <-.
    exists []. cbn [backtrackLoop]. rewrite H0, Hfirst. cbn [bind].
    rewrite Hget. cbn [cell_parent]. do 2 eexists.
    split; [reflexivity |]. split; [reflexivity |]. split.
    + constructor; [now apply in_fingers_existsb | constructor].
    + unfold admissibleCost. cbn [app]. rewrite Hfirst, Hpos. reflexivity.
  - assert (Hj : (S j < length notes)%nat).
    { rewrite <- Hlen. apply nth_error_Some. congruence. }
    destruct (Hrows (S j)) as [prevRow [row' [Hprev [Hrow' Hnext]]]]; [lia |].
    rewrite Hrow' in Hrow. injection Hrow as ->.
    rewrite Nat.sub_succ, Nat.sub_0_r in Hprev.
    destruct (nextRow_cell _ _ _ _ _ _ _ _ _ Hnext Hget)
      as [Hf [from [pc [c [Hfrom [Hpc [Hedge [Hprune [Hcost Hparent]]]]]]]]].
    destruct (nth_error_in_range notes (S j) Hj) as [note Hnote].
    pose proof (backtrackLoop_step dp notes h (S j) f fs es trail row note
                                   Hrow' Hnote) as Hstep.
    rewrite Hget in Hstep. cbv beta iota in Hstep. rewrite Hparent in Hstep.
    match type of Hstep with
    | _ = backtrackLoop _ _ _ _ _ ?fs' ?es' ?trail' =>
        destruct (IH from prevRow pc fs' es' trail' Hprev Hpc)
          as [P [E [T [Hrun [HP [Hall Hadm]]]]]]
    end.
    exists (P ++ [from]), E, T.
    split; [| split; [| split]].
    + rewrite Hstep, Hrun. now rewrite <- app_assoc.
    + rewrite length_app. simpl. lia.
    + apply Forall_app. split; [exact Hall | constructor; [exact Hf |]].
      constructor.
    + destruct P as [| f0 P'].
      * cbn [app] in *. change [from; f] with ((from :: []) ++ [f]).
        rewrite admissibleCost_snoc, Hadm. cbn [length last].
        simpl in HP. subst j. rewrite Hedge, Hprune, Hcost. reflexivity.
      * change (((f0 :: P') ++ [from]) ++ [f])
          with ((f0 :: (P' ++ [from])) ++ [f]).
        rewrite admissibleCost_snoc.
        change (f0 :: P' ++ [from]) with ((f0 :: P') ++ [from]).
        rewrite Hadm, last_last, length_app, HP. cbn [length].
        rewrite Nat.add_1_r, Hedge, Hprune, Hcost. reflexivity.
Qed.

(** Every unpruned fingering of a prefix is accounted for by the cell it
    ends in. *)
Lemma table_complete P :
  forall f c,
    Forall (fun x => In x fingers) (P ++ [f]) ->
    (length P < length notes)%nat ->
    admissibleCost level notes patterns h (P ++ [f]) = Fin c ->
    exists row cell,
      nth_error dp (length P) = Some row
      /\ map_get f row = Some cell
      /\ (cell_cost cell <= c)%Q.
Proof.
  destruct (dpTable_rows _ _ _ _ _ table) as [Hlen Hrows].
  induction P as [| from P IH] using rev_ind; intros f c Hall Hshort Hadm.
  - destruct (dpTable_first_row _ _ _ _ _ table)
      as [first [firstPos [Hfirst [Hpos H0]]]].
    unfold admissibleCost in Hadm. cbn [app] in Hadm.
    rewrite Hfirst, Hpos in Hadm. cbn [extendCost] in Hadm.
    apply Fin_inj in Hadm. subst c.
    exists (initialRow first h firstPos). eexists.
    split; [exact H0 |]. split.
    + rewrite initialRow_get.
      inversion Hall as [| ? ? Hf _]; subst.
      now rewrite (proj1 (in_fingers_existsb f) Hf).
    + apply Qle_refl.
  - apply Forall_app in Hall. destruct Hall as [Hpre Hf].
    inversion Hf as [| ? ? Hfin _]; subst.
    rewrite length_app in Hshort |- *. cbn [length] in Hshort |- *.
    assert (Hfrom : In from fingers).
    { apply Forall_app in Hpre. destruct Hpre as [_ Hlast].
      now inversion Hlast. }
    destruct (P ++ [from]) as [| f0 rest] eqn:Epre;
      [destruct P; discriminate |].
    rewrite admissibleCost_snoc in Hadm.
    destruct (admissibleCost level notes patterns h (f0 :: rest)) as [c' |]
      eqn:Ec'; [| discriminate].
    rewrite <- Epre in Hadm, Ec'. rewrite last_last, length_app in Hadm.
    cbn [length] in Hadm.
    destruct (edgeCost level notes patterns h (length P + 1) from f) as [e |]
      eqn:Eedge; [| discriminate].
    destruct (Qltb 300 e) eqn:Eprune; [discriminate |].
    injection Hadm as <-.
    destruct (IH from c') as [prevRow [pc [Hprev [Hpc Hle]]]];
      [rewrite Epre; exact Hpre | lia | exact Ec' |].
    destruct (Hrows (length P + 1)%nat) as [prevRow' [row [Hprev' [Hrow Hnext]]]];
      [lia |].
    replace (length P + 1 - 1)%nat with (length P) in Hprev' by lia.
    rewrite Hprev in Hprev'. injection Hprev' as <-.
    destruct (nextRow_complete _ _ _ _ _ _ _ _ _ _ _ Hnext Hfrom Hfin Hpc
                               Eedge Eprune) as [cell [Hcell Hcost]].
    exists row, cell. split; [exact Hrow |]. split; [exact Hcell |].
    apply Qle_trans with (cell_cost pc + e)%Q; [exact Hcost |].
    apply Qplus_le_compat; [exact Hle | apply Qle_refl].
Qed.

(** Whatever cell or default backtracking starts from, it writes fingers of
    1..5 only. *)
Lemma backtrackLoop_fingers m :
  forall cur fs es trail F E T,
    In cur fingers ->
    Forall (fun x => In x fingers) fs ->
    backtrackLoop dp notes h m cur fs es trail = Some (F, E, T) ->
    Forall (fun x => In x fingers) F.
Proof.
  induction m as [| i IH]; intros cur fs es trail F E T Hcur Hfs Hrun.
  - injection Hrun as <- _ _. exact Hfs.
  - cbn [backtrackLoop] in Hrun.
    destruct (nth_error dp i) as [row |] eqn:Erow; [| discriminate].
    destruct (nth_error notes i) as [note |]; [| discriminate].
    cbn [bind] in Hrun.
    refine (IH _ _ _ _ _ _ _ _ _ Hrun); [| constructor; assumption].
    destruct (map_get cur row) as [s |] eqn:Eget; [| exact Hcur].
    destruct (cell_parent s) as [[j pf] |] eqn:Eparent; [| exact Hcur].
    exact (proj2 (table_cell_finger _ _ _ _ Erow Eget) _ _ Eparent).
Qed.

End TableFacts.

(** ** What the DP optimizer computes *)

Lemma dpOptimization_inv level notes patterns h sol :
  dpOptimization level notes patterns h = Some sol ->
  exists dp lastRow fs es trail,
    dpTable level notes patterns h = Some dp
    /\ notes <> []
    /\ length dp = length notes
    /\ nth_error dp (length notes - 1) = Some lastRow
    /\ backtrackLoop dp notes h (length notes)
         (snd (fold_left selectFinal lastRow (Infinity, 3))) [] [] []
       = Some (fs, es, trail)
    /\ sol = mkSolution fs (fst (fold_left selectFinal lastRow (Infinity, 3)))
                        trail es.
Proof.
  unfold dpOptimization. intros Hsol.
  destruct (dpTable level notes patterns h) as [dp |] eqn:Hdp;
    [| discriminate].
  cbn [bind] in Hsol.
  assert (Hne : notes <> []).
  { destruct (dpTable_first_row _ _ _ _ _ Hdp) as [first [_ [Hfirst _]]].
    intros ->. discriminate. }
  destruct (dpTable_rows _ _ _ _ _ Hdp) as [Hlen _].
  destruct (backtrack_unfold dp notes h Hne Hlen)
    as [lastRow [fs [es [trail [Hlast [Hrun Hback]]]]]].
  rewrite Hback in Hsol. injection Hsol as <-.
  exists dp, lastRow, fs, es, trail. auto 10.
Qed.

(** No fingering without a pruned edge costs less than the total cost. *)
Lemma dpOptimization_lower level notes patterns h sol fs c :
  dpOptimization level notes patterns h = Some sol ->
  length fs = length notes ->
  Forall (fun f => In f fingers) fs ->
  admissibleCost level notes patterns h fs = Fin c ->
  exists t, totalCost sol = Fin t /\ (t <= c)%Q.
Proof.
  intros Hsol Hlen' Hall Hadm.
  destruct (dpOptimization_inv _ _ _ _ _ Hsol)
    as [dp [lastRow [fs0 [es [trail [Hdp [Hne [Hlen [Hlast [Hrun ->]]]]]]]]]].
  cbn [totalCost].
  destruct (exists_last (l := fs)) as [P [f' ->]].
  { intros ->. destruct notes; [contradiction | discriminate]. }
  rewrite length_app in Hlen'. cbn [length] in Hlen'.
  destruct (table_complete level notes patterns h dp Hdp P f' c Hall)
    as [row [cell [Hrow [Hcell Hle]]]]; [lia | exact Hadm |].
  replace (length P) with (length notes - 1)%nat in Hrow by lia.
  rewrite Hlast in Hrow. injection Hrow as <-.
  destruct (selectFinal_spec lastRow)
    as [[Hempty Hbest] | [f [c0 [Hin [Hbest Hleast]]]]]; rewrite Hbest.
  - subst lastRow. discriminate.
  - exists (cell_cost c0). split; [reflexivity |].
    apply Qle_trans with (cell_cost cell); [| exact Hle].
    apply (Hleast f'). now apply map_get_in.
Qed.

(** A finite total cost is the cumulative cost of the returned fingering,
    which uses no pruned edge. *)
Lemma dpOptimization_sound level notes patterns h sol t :
  dpOptimization level notes patterns h = Some sol ->
  totalCost sol = Fin t ->
  admissibleCost level notes patterns h (fingering sol) = Fin t.
Proof.
  intros Hsol.
  destruct (dpOptimization_inv _ _ _ _ _ Hsol)
    as [dp [lastRow [fs [es [trail [Hdp [Hne [Hlen [Hlast [Hrun ->]]]]]]]]]].
  cbn [totalCost fingering].
  assert (Hn : length notes = S (length notes - 1)).
  { destruct notes; [contradiction | simpl; lia]. }
  pose proof (dpTable_row_keys _ _ _ _ _ _ _ Hdp Hlast) as Hkeys.
  destruct (selectFinal_spec lastRow)
    as [[Hempty Hbest] | [f [c0 [Hin [Hbest Hleast]]]]]; rewrite Hbest in *;
    [discriminate |].
  cbn [fst snd] in *.
  pose proof (in_map_get _ _ _ Hkeys Hin) as Hget.
  intros Ht. apply Fin_inj in Ht. subst t.
  destruct (backtrack_chain level notes patterns h dp Hdp
              (length notes - 1) f lastRow c0 [] [] [] Hlast Hget)
    as [P [E [T [Hchain [_ [_ Hadm]]]]]].
  rewrite <- Hn, Hrun in Hchain. injection Hchain as -> _ _.
  exact Hadm.
Qed.

(** At the intermediate level, and in scale mode at every level, each
    transition cost is an integer: the difficulty factor is 1, and a scale
    transition is not scaled. *)
Lemma edgeCost_integer level notes patterns h i from to e :
  level = intermediate \/ detectScalePattern notes = true ->
  edgeCost level notes patterns h i from to = Some e ->
  Qden e = 1%positive.
Proof.
  intros Hint. unfold edgeCost.
  destruct (nth_error (analyzeHandPositions notes h) i) as [pos |] eqn:Epos;
    [| discriminate].
  destruct (getPatternContext notes i patterns) as [ctx |]; [| discriminate].
  destruct (nth_error notes (i - 1)) as [prevNote |]; [| discriminate].
  destruct (nth_error notes i) as [currNote |]; [| discriminate].
  cbn [bind]. intros He. injection He as <-.
  unfold computeTransitionCost.
  destruct (isScale pos || isSCALE ctx) eqn:Emode; [reflexivity |].
  destruct Hint as [-> | Hscale]; [reflexivity |].
  exfalso.
  destruct notes as [| first rest] eqn:Enotes; [discriminate |].
  rewrite (scale_positions (first :: rest) h first rest eq_refl Hscale)
    in Epos.
  apply nth_error_In, repeat_spec in Epos. subst pos. discriminate.
Qed.

Lemma extendCost_integer level notes patterns h rest :
  level = intermediate \/ detectScalePattern notes = true ->
  forall i prev acc c,
    Qden acc = 1%positive ->
    extendCost level notes patterns h i prev rest acc = Fin c ->
    Qden c = 1%positive.
Proof.
  intros Hint.
  induction rest as [| to rest IH]; intros i prev acc c Hacc Hcost.
  - cbn [extendCost] in Hcost. apply Fin_inj in Hcost. now subst.
  - cbn [extendCost] in Hcost.
    destruct (edgeCost level notes patterns h i prev to) as [e |] eqn:Eedge;
      [| discriminate].
    destruct (Qltb 300 e); [discriminate |].
    apply (IH _ _ _ _) in Hcost; [exact Hcost |].
    pose proof (edgeCost_integer _ _ _ _ _ _ _ _ Hint Eedge) as He.
    unfold Qplus. cbn [Qden]. now rewrite Hacc, He.
Qed.

Lemma admissibleCost_integer level notes patterns h fs t :
  level = intermediate \/ detectScalePattern notes = true ->
  admissibleCost level notes patterns h fs = Fin t ->
  Qden t = 1%positive.
Proof.
  intros Hint. unfold admissibleCost.
  destruct fs as [| f0 rest]; [discriminate |].
  destruct (nth_error notes 0) as [first |]; [| discriminate].
  destruct (nth_error (analyzeHandPositions notes h) 0) as [firstPos |];
    [| discriminate].
  apply extendCost_integer; [exact Hint | reflexivity].
Qed.

(** X9.  Optimality of the DP optimizer where every cost is an integer, so
    that the sums and comparisons of the code are exact: at the intermediate
    level, and at any level for a sequence classified as a scale.  A finite
    total cost is an integer; it is the cumulative cost of the returned
    fingering, which uses no pruned edge; and no fingering of the sequence
    with fingers 1..5 and no pruned edge costs less.  In particular the
    total cost is finite as soon as one such fingering exists. *)
Theorem dpOptimization_optimal level notes patterns h sol :
  level = intermediate \/ detectScalePattern notes = true ->
  dpOptimization level notes patterns h = Some sol ->
  (forall t, totalCost sol = Fin t ->
             Qden t = 1%positive
             /\ admissibleCost level notes patterns h (fingering sol) = Fin t)
  /\ (forall fs c,
         length fs = length notes ->
         Forall (fun f => In f fingers) fs ->
         admissibleCost level notes patterns h fs = Fin c ->
         exists t, totalCost sol = Fin t /\ (t <= c)%Q).
Proof.
  intros Hint Hsol. split.
  - intros t Ht.
    pose proof (dpOptimization_sound _ _ _ _ _ _ Hsol Ht) as Hadm.
    split; [| exact Hadm].
    exact (admissibleCost_integer _ _ _ _ _ _ Hint Hadm).
  - intros fs c. now apply dpOptimization_lower.
Qed.

Lemma dpOptimization_optimal_witness :
  exists sol,
    dpOptimization beginner cMajorScale [] RH = Some sol
    /\ forall t, totalCost sol = Fin t ->
                 Qden t = 1%positive
                 /\ admissibleCost beginner cMajorScale [] RH (fingering sol)
                    = Fin t.
Proof.
  destruct (dpOptimization_total beginner cMajorScale [] RH)
    as [sol [Hsol _]]; [discriminate |].
  exists sol. split; [exact Hsol |].
  refine (proj1 (dpOptimization_optimal beginner cMajorScale [] RH sol
                                        _ Hsol)).
  right. reflexivity.
Defined.

Lemma dpOptimization_fingers level notes patterns h sol :
  dpOptimization level notes patterns h = Some sol ->
  Forall (fun f => In f fingers) (fingering sol).
Proof.
  intros Hsol.
  destruct (dpOptimization_inv _ _ _ _ _ Hsol)
    as [dp [lastRow [fs [es [trail [Hdp [Hne [Hlen [Hlast [Hrun ->]]]]]]]]]].
  cbn [fingering].
  refine (backtrackLoop_fingers level notes patterns h dp Hdp _ _ _ _ _ _ _ _
                                _ _ Hrun); [| constructor].
  destruct (selectFinal_spec lastRow)
    as [[_ Hbest] | [f [c0 [Hin [Hbest _]]]]]; rewrite Hbest; cbn [snd].
  - simpl. tauto.
  - pose proof (dpTable_row_keys _ _ _ _ _ _ _ Hdp Hlast) as Hkeys.
    pose proof (in_map_get _ _ _ Hkeys Hin) as Hget.
    exact (proj1 (table_cell_finger level notes patterns h dp Hdp _ _ _ _
                                    Hlast Hget)).
Qed.

(** ** Fingers of 1..5 only, and a lossless merge *)

Lemma mapM_results {A B : Type} (f : A -> option B) l ys :
  mapM f l = Some ys -> Forall2 (fun x y => f x = Some y) l ys.
Proof.
  revert ys. induction l as [| x l IH]; intros ys; simpl.
  - intros H. injection H as <-. constructor.
  - destruct (f x) as [y |] eqn:Ey; [| discriminate]. cbn [bind].
    destruct (mapM f l) as [ys' |]; [| discriminate]. cbn [bind].
    intros H. injection H as <-. constructor; [exact Ey | now apply IH].
Qed.

Lemma stitch_fingers sols :
  forall i fs es total,
    Forall (fun f => In f fingers) fs ->
    Forall (fun s => Forall (fun f => In f fingers) (fingering s)) sols ->
    Forall (fun f => In f fingers) (fst (fst (stitch i sols fs es total))).
Proof.
  induction sols as [| sol sols IH]; intros i fs es total Hfs Hsols;
    [exact Hfs |].
  inversion Hsols as [| ? ? Hsol Hrest]; subst.
  cbn [stitch]. destruct (i =? 0)%nat; apply IH; try assumption;
    apply Forall_app; split; try assumption.
  clear - Hsol. rewrite Forall_forall in *.
  intros x Hx. apply Hsol.
  rewrite <- (firstn_skipn overlapSize (fingering sol)).
  apply in_or_app. now right.
Qed.

Lemma planHandFingering_fingers level notes patterns h hs :
  planHandFingering level notes patterns h = Some hs ->
  Forall (fun f => In f fingers) (fingering hs).
Proof.
  unfold planHandFingering.
  destruct (length notes =? 0)%nat.
  - intros H. injection H as <-. constructor.
  - destruct (64 <? length notes)%nat; [| apply dpOptimization_fingers].
    unfold chunkedOptimization.
    destruct (mapM (fun chunk => dpOptimization level chunk patterns h)
                   (chunkLoop (length notes) notes 0)) as [sols |] eqn:Esols;
      [| discriminate].
    cbn [bind].
    pose proof (stitch_fingers sols 0 [] [] (Fin 0)) as Hst.
    destruct (stitch 0 sols [] [] (Fin 0)) as [[fs es] total].
    intros H. injection H as <-. cbn [fingering fst] in *.
    apply Hst; [constructor |].
    apply mapM_results in Esols. clear - Esols.
    induction Esols as [| chunk sol chunks sols Hsol _ IH]; constructor;
      [now apply dpOptimization_fingers in Hsol | exact IH].
Qed.

Lemma fingerOr3_in l j :
  Forall (fun f => In f fingers) l ->
  In (fingerOr3 (nth_error l j)) fingers.
Proof.
  intros Hl. unfold fingerOr3.
  destruct (nth_error l j) as [f |] eqn:E; [| simpl; tauto].
  apply nth_error_In in E. rewrite Forall_forall in Hl.
  specialize (Hl f E).
  destruct (Z.eqb_spec f 0) as [-> | _]; [| exact Hl].
  simpl in Hl. intuition discriminate.
Qed.

Lemma mergeLoop_fingers rh lh notes :
  Forall (fun f => In f fingers) (fingering rh) ->
  Forall (fun f => In f fingers) (fingering lh) ->
  forall rhIdx lhIdx,
    Forall (fun f => In f fingers) (fst (mergeLoop rh lh notes rhIdx lhIdx)).
Proof.
  intros Hrh Hlh. induction notes as [| note notes IH]; intros rhIdx lhIdx;
    [constructor |].
  cbn [mergeLoop]. destruct (hand note).
  - specialize (IH (S rhIdx) lhIdx).
    destruct (mergeLoop rh lh notes (S rhIdx) lhIdx) as [fs es].
    constructor; [now apply fingerOr3_in | exact IH].
  - specialize (IH rhIdx (S lhIdx)).
    destruct (mergeLoop rh lh notes rhIdx (S lhIdx)) as [fs es].
    constructor; [now apply fingerOr3_in | exact IH].
Qed.

(** X10.  Finger domain: every finger that [planFingering] emits is one of
    1..5, for both hands, with or without chunking, also where backtracking
    falls back on its default. *)
Theorem planFingering_fingers level notes patterns :
  exists sol,
    planFingering level notes patterns = Some sol
    /\ Forall (fun f => In f fingers) (fingering sol).
Proof.
  destruct (planFingering_unfold level notes patterns)
    as [rh [lh [Hrh [Hlh [_ [_ [_ [_ Hplan]]]]]]]].
  eexists. split; [exact Hplan |].
  destruct (length notes =? 0)%nat; [constructor |].
  cbn [fingering]. apply mergeLoop_fingers.
  - exact (planHandFingering_fingers _ _ _ _ _ Hrh).
  - exact (planHandFingering_fingers _ _ _ _ _ Hlh).
Qed.

Lemma read_back_fingers l :
  Forall (fun f => In f fingers) l ->
  forall start,
    map (fun j => fingerOr3 (nth_error l (j - start)))
        (seq start (length l)) = l.
Proof.
  induction 1 as [| f l Hf _ IH]; intros start; [reflexivity |].
  cbn [length seq map]. rewrite Nat.sub_diag. cbn [nth_error fingerOr3].
  destruct (Z.eqb_spec f 0) as [-> | _];
    [simpl in Hf; exfalso; intuition discriminate |].
  f_equal. rewrite <- (IH (S start)) at 2.
  apply map_ext_in. intros j Hj. apply in_seq in Hj.
  replace (j - start)%nat with (S (j - S start)) by lia. reflexivity.
Qed.

Lemma read_back_strings (l : list string) :
  forall start,
    map (fun j => stringOrEmpty (nth_error l (j - start)))
        (seq start (length l)) = l.
Proof.
  induction l as [| s l IH]; intros start; [reflexivity |].
  cbn [length seq map]. rewrite Nat.sub_diag. cbn [nth_error stringOrEmpty].
  f_equal. rewrite <- (IH (S start)) at 2.
  apply map_ext_in. intros j Hj. apply in_seq in Hj.
  replace (j - start)%nat with (S (j - S start)) by lia. reflexivity.
Qed.

(** X11.  The merge is lossless: the entries of the merged fingering and of
    the merged explanations at the notes of a hand are exactly that hand's
    own solution, so the defaults of the merger (finger 3, empty string) are
    never substituted; and the merged total cost is the sum of the two
    hands' total costs. *)
Theorem merge_lossless level notes patterns :
  exists sol rh lh,
    planFingering level notes patterns = Some sol
    /\ planHandFingering level (filter (isHand RH) notes) patterns RH = Some rh
    /\ planHandFingering level (filter (isHand LH) notes) patterns LH = Some lh
    /\ atHand RH notes (fingering sol) = fingering rh
    /\ atHand RH notes (explanations sol) = explanations rh
    /\ atHand LH notes (fingering sol) = fingering lh
    /\ atHand LH notes (explanations sol) = explanations lh
    /\ totalCost sol = Num_add (totalCost rh) (totalCost lh).
Proof.
  destruct (planFingering_unfold level notes patterns)
    as [rh [lh [Hrh [Hlh [Hrf [Hre [Hlf [Hle Hplan]]]]]]]].
  eexists. exists rh, lh.
  split; [exact Hplan |]. split; [exact Hrh |]. split; [exact Hlh |].
  pose proof (planHandFingering_fingers _ _ _ _ _ Hrh) as Hrfin.
  pose proof (planHandFingering_fingers _ _ _ _ _ Hlh) as Hlfin.
  destruct notes as [| note notes].
  - cbn [length Nat.eqb]. simpl in Hrf, Hre, Hlf, Hle.
    destruct (fingering rh), (explanations rh), (fingering lh),
      (explanations lh); try discriminate.
    cbn [filter] in Hrh, Hlh. unfold planHandFingering in Hrh, Hlh.
    cbn [length Nat.eqb] in Hrh, Hlh.
    injection Hrh as <-. injection Hlh as <-. repeat split.
  - cbn [length Nat.eqb fingering explanations totalCost].
    destruct (mergeLoop_atHand rh lh (note :: notes) 0 0)
      as [[HRf HRe] [HLf HLe]].
    rewrite <- Hrf in HRf. rewrite <- Hre in HRe.
    rewrite <- Hlf in HLf. rewrite <- Hle in HLe.
    rewrite HRf, HRe, HLf, HLe.
    pose proof (read_back_fingers _ Hrfin 0%nat) as R1.
    pose proof (read_back_strings (explanations rh) 0%nat) as R2.
    pose proof (read_back_fingers _ Hlfin 0%nat) as R3.
    pose proof (read_back_strings (explanations lh) 0%nat) as R4.
    repeat split;
      [rewrite <- R1 at 2 | rewrite <- R2 at 2
       | rewrite <- R3 at 2 | rewrite <- R4 at 2];
      apply map_ext; intros j; now rewrite Nat.sub_0_r.
Qed.

(** ** The windows of the chunked optimizer *)

Lemma chunkLoop_sizes notes fuel :
  forall i,
    Forall (fun c => (1 <= length c <= chunkSize)%nat) (chunkLoop fuel notes i).
Proof.
  induction fuel as [| fuel IH]; intros i; simpl; [constructor |].
  destruct (Nat.ltb_spec i (length notes)) as [Hlt | Hge]; [| constructor].
  constructor; [| apply IH].
  rewrite slice_length. unfold chunkSize. lia.
Qed.

Lemma chunkLoop_tail_concat notes fuel :
  forall i, (length notes - i <= fuel)%nat ->
    concat (map (skipn overlapSize) (chunkLoop fuel notes i))
    = skipn (i + overlapSize) notes.
Proof.
  induction fuel as [| fuel IH]; intros i Hfuel.
  - simpl. symmetry. apply skipn_all2. lia.
  - cbn [chunkLoop]. destruct (Nat.ltb_spec i (length notes)) as [Hlt | Hge].
    + cbn [map concat]. rewrite IH by (unfold chunkSize, overlapSize; lia).
      unfold slice. rewrite skipn_firstn_comm.
      rewrite (skipn_skipn overlapSize i).
      replace (i + (chunkSize - overlapSize) + overlapSize)%nat
        with ((chunkSize - overlapSize) + (overlapSize + i))%nat
        by (unfold chunkSize, overlapSize; lia).
      rewrite <- (skipn_skipn (chunkSize - overlapSize) (overlapSize + i)).
      replace (i + overlapSize)%nat with (overlapSize + i)%nat by lia.
      destruct (Nat.le_gt_cases (i + chunkSize) (length notes)) as [Hfull | Hpart].
      * replace (Nat.min (i + chunkSize) (length notes) - i - overlapSize)%nat
          with (chunkSize - overlapSize)%nat
          by (unfold chunkSize, overlapSize in *; lia).
        apply firstn_skipn.
      * rewrite (skipn_all2 (n := (chunkSize - overlapSize)%nat))
          by (rewrite length_skipn; unfold chunkSize, overlapSize in *; lia).
        rewrite app_nil_r. apply firstn_all2.
        rewrite length_skipn. unfold chunkSize, overlapSize in *. lia.
    + simpl. symmetry. apply skipn_all2. lia.
Qed.

(** X12.  The windows of the chunked optimizer: each holds between 1 and 32
    notes, the first is the first 32 notes, and stitching the windows the way
    the solutions are stitched (the first whole, each later one without its
    first 4 entries) gives back the sequence: every note is covered by
    exactly one kept entry, in order. *)
Theorem chunk_windows_cover notes :
  notes <> [] ->
  exists first later,
    chunkLoop (length notes) notes 0 = first :: later
    /\ first = firstn chunkSize notes
    /\ first ++ concat (map (skipn overlapSize) later) = notes
    /\ Forall (fun c => (1 <= length c <= chunkSize)%nat) (first :: later).
Proof.
  intros Hne.
  assert (Hn : (0 < length notes)%nat).
  { destruct notes; [contradiction | simpl; lia]. }
  pose proof (chunkLoop_sizes notes (length notes) 0) as Hsizes.
  rewrite (chunkLoop_first notes Hne) in *.
  assert (Hfirst : slice notes 0 (Nat.min chunkSize (length notes))
                   = firstn chunkSize notes).
  { unfold slice. rewrite Nat.sub_0_r. cbn [skipn].
    destruct (Nat.le_gt_cases chunkSize (length notes)) as [Hfull | Hpart].
    - now rewrite Nat.min_l by lia.
    - rewrite Nat.min_r by lia. rewrite !firstn_all2 by lia. reflexivity. }
  do 2 eexists. split; [reflexivity |]. split; [exact Hfirst |].
  split; [| exact Hsizes].
  rewrite Hfirst, chunkLoop_tail_concat
    by (unfold chunkSize, overlapSize; lia).
  replace (chunkSize - overlapSize + overlapSize)%nat with chunkSize
    by (unfold chunkSize, overlapSize; lia).
  apply firstn_skipn.
Qed.

Lemma chunk_windows_cover_witness :
  exists first later,
    chunkLoop (length longHand) longHand 0 = first :: later
    /\ first = firstn chunkSize longHand
    /\ first ++ concat (map (skipn overlapSize) later) = longHand
    /\ Forall (fun c => (1 <= length c <= chunkSize)%nat) (first :: later).
Proof.
  apply (chunk_windows_cover longHand). discriminate.
Defined.

(** ** Position mode *)

Lemma fillRange_append {A : Type} (positions : list A) n v :
  fillRange positions (length positions) (length positions + n) v
  = positions ++ repeat v n.
Proof.
  unfold fillRange. rewrite firstn_all.
  replace (length positions + n - length positions)%nat with n by lia.
  rewrite skipn_all2 by lia. now rewrite app_nil_r.
Qed.

Lemma withinSpan_segment h seg lo hi :
  (forall note, In note seg -> lo <= pitch note <= hi) ->
  hi - lo <= 7 ->
  Forall2 (withinSpan h) seg
          (repeat (mkPos (anchorOf h lo hi) true false) (length seg)).
Proof.
  intros Hseg Hspan. induction seg as [| note seg IH]; [constructor |].
  cbn [length repeat]. constructor.
  - specialize (Hseg note (or_introl eq_refl)).
    unfold withinSpan. cbn [inPosition isScale anchorPitch].
    repeat split; destruct h; simpl; lia.
  - apply IH. intros n Hn. apply Hseg. now right.
Qed.

Lemma positionScan_withinSpan h rest :
  forall closed seg positions lo hi,
    Forall2 (withinSpan h) closed positions ->
    (forall note, In note seg -> lo <= pitch note <= hi) ->
    hi - lo <= 7 ->
    Forall2 (withinSpan h) (closed ++ seg ++ rest)
            (positionScan h rest (length closed + length seg) positions
                          (length closed) lo hi).
Proof.
  induction rest as [| note rest IH];
    intros closed seg positions lo hi Hclosed Hseg Hspan.
  - cbn [positionScan]. rewrite app_nil_r.
    rewrite (Forall2_length Hclosed), fillRange_append.
    apply Forall2_app; [exact Hclosed | now apply withinSpan_segment].
  - cbn [positionScan].
    destruct (Z.gtb_spec (Z.max hi (pitch note) - Z.min lo (pitch note)) 7)
      as [Hwide | Hfit].
    + assert (Hfill :
                fillRange positions (length closed)
                          (length closed + length seg)
                          (mkPos (anchorOf h lo hi) true false)
                = positions
                  ++ repeat (mkPos (anchorOf h lo hi) true false) (length seg))
        by (rewrite (Forall2_length Hclosed); apply fillRange_append).
      rewrite Hfill.
      replace (closed ++ seg ++ note :: rest)
        with ((closed ++ seg) ++ [note] ++ rest)
        by (now rewrite <- !app_assoc).
      replace (S (length closed + length seg))
        with (length (closed ++ seg) + length [note])%nat
        by (rewrite length_app; simpl; lia).
      replace (length closed + length seg)%nat with (length (closed ++ seg))
        by (now rewrite length_app).
      apply IH.
      * apply Forall2_app; [exact Hclosed | now apply withinSpan_segment].
      * intros n [<- | []]. lia.
      * lia.
    + replace (closed ++ seg ++ note :: rest)
        with (closed ++ (seg ++ [note]) ++ rest)
        by (now rewrite <- !app_assoc).
      replace (S (length closed + length seg))
        with (length closed + length (seg ++ [note]))%nat
        by (rewrite length_app; simpl; lia).
      apply IH; [exact Hclosed | | lia].
      intros n Hn. apply in_app_or in Hn. destruct Hn as [Hn | [<- | []]].
      * specialize (Hseg n Hn). lia.
      * lia.
Qed.

(** X13.  In position mode (the sequence is not classified as a scale) every
    note gets a position with [inPosition] true and [isScale] false whose
    anchor is at most 7 semitones below the note for the right hand, at most
    7 semitones above it for the left hand. *)
Theorem position_mode_within_span notes h :
  detectScalePattern notes = false ->
  Forall2 (withinSpan h) notes (analyzeHandPositions notes h).
Proof.
  intros Hmode. unfold analyzeHandPositions.
  destruct notes as [| first rest]; [constructor |].
  rewrite Hmode.
  apply (positionScan_withinSpan h (first :: rest) [] [] []);
    [constructor | intros note [] | lia].
Qed.

Lemma position_mode_within_span_witness :
  Forall2 (withinSpan LH) pieceA (analyzeHandPositions pieceA LH).
Proof.
  apply (position_mode_within_span pieceA LH). reflexivity.
Defined.

(** ** What the pattern segments can change *)

Lemma nextRow_context level notes p1 p2 h positions i prevRow :
  getPatternContext notes i p1 = getPatternContext notes i p2 ->
  nextRow level notes p1 h positions i prevRow
  = nextRow level notes p2 h positions i prevRow.
Proof. intros H. unfold nextRow. now rewrite H. Qed.

Lemma forwardLoop_context level notes p1 p2 h positions steps :
  forall i dp,
    (forall j, (i <= j < i + steps)%nat ->
               getPatternContext notes j p1 = getPatternContext notes j p2) ->
    forwardLoop level notes p1 h positions steps i dp
    = forwardLoop level notes p2 h positions steps i dp.
Proof.
  induction steps as [| steps IH]; intros i dp Hctx; [reflexivity |].
  cbn [forwardLoop]. unfold forwardRow.
  destruct (nth_error dp (i - 1)) as [prevRow |]; [| reflexivity].
  cbn [bind]. rewrite (nextRow_context level notes p1 p2) by (apply Hctx; lia).
  destruct (nextRow level notes p2 h positions i prevRow) as [row |];
    [| reflexivity].
  cbn [bind]. apply IH. intros j Hj. apply Hctx. lia.
Qed.

(** X14.  The DP optimizer depends on the pattern segments only through the
    pattern contexts of the notes after the first: two segment lists that
    give every note from index 1 on the same context give the same solution.
    The context of the first note is never consulted. *)
Theorem patterns_through_contexts level notes p1 p2 h :
  (forall i, (1 <= i < length notes)%nat ->
             getPatternContext notes i p1 = getPatternContext notes i p2) ->
  dpOptimization level notes p1 h = dpOptimization level notes p2 h.
Proof.
  intros Hctx. unfold dpOptimization, dpTable.
  destruct (nth_error (analyzeHandPositions notes h) 0) as [firstPos |];
    [| reflexivity].
  destruct (nth_error notes 0) as [first |] eqn:Efirst; [| reflexivity].
  cbn [bind].
  rewrite (forwardLoop_context level notes p1 p2); [reflexivity |].
  intros j Hj. apply Hctx.
  assert (0 < length notes)%nat
    by (apply nth_error_Some; congruence).
  lia.
Qed.

Lemma patterns_through_contexts_witness :
  dpOptimization beginner brokenChord [mkSegment 0 0 POLYPHONIC] RH
  = dpOptimization beginner brokenChord [] RH.
Proof.
  apply (patterns_through_contexts beginner brokenChord
                                   [mkSegment 0 0 POLYPHONIC] [] RH).
  intros i Hi. simpl in Hi.
  destruct i as [| [| [| i]]]; try lia; reflexivity.
Defined.

(** Outside scale mode the pattern type enters a transition cost in the
    final difficulty adjustment only: every rule before it reads the notes,
    the fingers, the hand and the position. *)
Lemma position_cost_context level prevNote prevFinger currNote currFinger
      ctx h pos :
  isSCALE ctx = false ->
  positionTransitionCost level prevNote prevFinger currNote currFinger
                         ctx h pos
  = mkCost
      (applyDifficultyAdjustment level
         (cost (positionTransitionCost intermediate prevNote prevFinger
                                       currNote currFinger UNKNOWN h pos))
         ctx)
      (reasons (positionTransitionCost intermediate prevNote prevFinger
                                       currNote currFinger UNKNOWN h pos)).
Proof.
  intros Hctx. destruct ctx; [discriminate | reflexivity ..].
Qed.

(** X15.  A transition cost depends on the pattern type only through whether
    it is SCALE and, at the beginner level, whether it is POLYPHONIC or
    ORNAMENTED: at the intermediate and advanced levels POLYPHONIC,
    ORNAMENTED, UNKNOWN and every other non-SCALE type cost the same. *)
Theorem pattern_type_classes level prevNote prevFinger currNote currFinger
        ctx1 ctx2 h pos :
  isSCALE ctx1 = isSCALE ctx2 ->
  (level = beginner -> isDense ctx1 = isDense ctx2) ->
  computeTransitionCost level prevNote prevFinger currNote currFinger
                        ctx1 h pos
  = computeTransitionCost level prevNote prevFinger currNote currFinger
                          ctx2 h pos.
Proof.
  intros Hscale Hdense. unfold computeTransitionCost. rewrite Hscale.
  destruct (isScale pos || isSCALE ctx2) eqn:Emode; [reflexivity |].
  apply orb_false_iff in Emode. destruct Emode as [_ H2].
  rewrite (position_cost_context level prevNote prevFinger currNote
             currFinger ctx1) by congruence.
  rewrite (position_cost_context level prevNote prevFinger currNote
             currFinger ctx2) by congruence.
  f_equal.
  destruct level; [| reflexivity | reflexivity].
  specialize (Hdense eq_refl).
  destruct ctx1, ctx2; try discriminate; reflexivity.
Qed.

Lemma pattern_type_classes_witness :
  computeTransitionCost advanced (rhNote 60) 1 (rhNote 64) 3
                        ORNAMENTED RH (mkPos 60 true false)
  = computeTransitionCost advanced (rhNote 60) 1 (rhNote 64) 3
                          UNKNOWN RH (mkPos 60 true false).
Proof.
  apply (pattern_type_classes advanced (rhNote 60) 1 (rhNote 64) 3
                              ORNAMENTED UNKNOWN RH (mkPos 60 true false)).
  - reflexivity.
  - discriminate.
Defined.

(** ** The decision trail *)

Lemma firstn_snoc_nth {A : Type} (l : list A) i x :
  nth_error l i = Some x -> firstn (S i) l = firstn i l ++ [x].
Proof.
  revert l. induction i as [| i IH]; intros [| y l] Hnth; try discriminate.
  - injection Hnth as <-. reflexivity.
  - cbn [nth_error] in Hnth. cbn [firstn app]. f_equal.
    change (firstn (S i) l = firstn i l ++ [x]). now apply IH.
Qed.

Lemma backtrackLoop_trail dp notes h m :
  forall cur fs es trail F E T,
    backtrackLoop dp notes h m cur fs es trail = Some (F, E, T) ->
    exists T0,
      T = T0 ++ trail
      /\ F = map st_finger T0 ++ fs
      /\ E = map recordExplanation T0 ++ es
      /\ map noteIndex T0 = seq 0 m
      /\ map handPosition T0 = map pitch (firstn m notes)
      /\ Forall (fun st => st_hand st = h /\ st_parent st = None) T0.
Proof.
  induction m as [| i IH]; intros cur fs es trail F E T Hrun.
  - injection Hrun as <- <- <-. exists []. repeat split. constructor.
  - cbn [backtrackLoop] in Hrun.
    destruct (nth_error dp i) as [row |]; [| discriminate].
    destruct (nth_error notes i) as [note |] eqn:Enote; [| discriminate].
    cbn [bind] in Hrun.
    destruct (IH _ _ _ _ _ _ _ Hrun)
      as [T0 [HT [HF [HE [Hidx [Hpitch Hall]]]]]].
    eexists (T0 ++ [_]).
    split; [rewrite <- app_assoc; exact HT |].
    rewrite !map_app, <- !app_assoc. cbn [map app].
    split; [exact HF |]. split.
    + rewrite HE. f_equal. f_equal.
      unfold recordExplanation, explanationOf. cbn [st_reasons].
      now destruct (map_get cur row).
    + split; [| split].
      * rewrite Hidx. cbn [noteIndex]. now rewrite seq_S.
      * rewrite Hpitch, (firstn_snoc_nth _ _ _ Enote), map_app. reflexivity.
      * apply Forall_app. split; [exact Hall |].
        constructor; [split; reflexivity | constructor].
Qed.

(** X16.  The decision trail of a hand.  For a hand of at most 64 notes the
    path has one record per note, in order: record [i] has note index [i],
    the finger of [fingering[i]], the pitch of note [i] as hand position,
    reasons that join into [explanations[i]], the hand, and no parent.  For a
    hand of more than 64 notes the chunked optimizer returns no path at
    all. *)
Theorem hand_path_records level notes patterns h :
  exists hs,
    planHandFingering level notes patterns h = Some hs
    /\ if (64 <? length notes)%nat then path hs = []
       else map st_finger (path hs) = fingering hs
            /\ map noteIndex (path hs) = seq 0 (length notes)
            /\ map handPosition (path hs) = map pitch notes
            /\ map recordExplanation (path hs) = explanations hs
            /\ Forall (fun st => st_hand st = h /\ st_parent st = None)
                      (path hs).
Proof.
  destruct (planHandFingering_total level notes patterns h) as [hs [Hhs _]].
  exists hs. split; [exact Hhs |].
  unfold planHandFingering in Hhs.
  destruct (Nat.eqb_spec (length notes) 0) as [Hzero | Hpos].
  - injection Hhs as <-. rewrite Hzero. cbn.
    destruct notes; [| discriminate]. repeat split. constructor.
  - destruct (64 <? length notes)%nat.
    + unfold chunkedOptimization in Hhs.
      destruct (mapM _ _) as [sols |]; [| discriminate]. cbn [bind] in Hhs.
      destruct (stitch 0 sols [] [] (Fin 0)) as [[fs es] total].
      now injection Hhs as <-.
    + destruct (dpOptimization_inv _ _ _ _ _ Hhs)
        as [dp [lastRow [fs [es [trail [_ [_ [_ [_ [Hrun ->]]]]]]]]]].
      cbn [path fingering explanations].
      destruct (backtrackLoop_trail _ _ _ _ _ _ _ _ _ _ _ Hrun)
        as [T0 [HT [HF [HE [Hidx [Hpitch Hall]]]]]].
      rewrite app_nil_r in HT, HF, HE. subst.
      rewrite firstn_all in Hpitch. auto.
Qed.

(** ** Scale mode: bounds on a transition and a finite total cost *)

Lemma getNaturalSpan_nonneg a b : 0 <= getNaturalSpan a b.
Proof.
  unfold getNaturalSpan.
  destruct (lookupPair (Z.min a b, Z.max a b) naturalSpans) as [v |] eqn:E;
    [| lia].
  destruct (Z.eqb_spec v 0); [lia |].
  apply lookupPair_in in E. simpl in E.
  repeat (destruct E as [E | E]; [injection E as _ _ <-; lia |]).
  destruct E.
Qed.

Lemma scale_cost_value prevFinger currFinger ascending h interval :
  exists base same,
    (base = -30 \/ base = -20 \/ base = -15 \/ base = -10 \/ base = 20)
    /\ (same = 0 \/ same = 40)
    /\ cost (computeScaleTransitionCost prevFinger currFinger ascending h
                                        interval)
       = inject_Z
           (base + same
            + (if interval >? getNaturalSpan prevFinger currFinger + 2
               then (interval - getNaturalSpan prevFinger currFinger) * 10
               else 0)).
Proof.
  unfold computeScaleTransitionCost. cbv zeta.
  match goal with
  | |- context [if existsb ?f ?l then _ else _] =>
      exists (if existsb f l then -30
              else if (prevFinger =? 3) && (currFinger =? 1) then -20
              else if (prevFinger =? 4) && (currFinger =? 1) then -15
              else if (prevFinger =? 1) && (currFinger =? 3) then -20
              else if (prevFinger =? 1) && (currFinger =? 4) then -10
              else 20);
      destruct (existsb f l)
  end;
    exists (if currFinger =? prevFinger then 40 else 0);
    destruct ((prevFinger =? 3) && (currFinger =? 1));
    destruct ((prevFinger =? 4) && (currFinger =? 1));
    destruct ((prevFinger =? 1) && (currFinger =? 3));
    destruct ((prevFinger =? 1) && (currFinger =? 4));
    destruct (currFinger =? prevFinger);
    (split; [tauto | split; [tauto |]]);
    destruct (interval >? getNaturalSpan prevFinger currFinger + 2);
    cbn [charge fst snd cost]; f_equal; lia.
Qed.

(** X17.  A scale transition never costs less than -30; over an interval of
    at most 24 semitones it costs at most 300, so it is never pruned; and the
    left hand descending costs what the right hand ascending does (and the
    left hand ascending what the right hand descending does). *)
Theorem scale_cost_bounds prevFinger currFinger ascending h interval :
  Qle (inject_Z (-30))
      (cost (computeScaleTransitionCost prevFinger currFinger ascending h
                                        interval))
  /\ (interval <= 24 ->
      Qltb 300 (cost (computeScaleTransitionCost prevFinger currFinger
                                                 ascending h interval))
      = false)
  /\ computeScaleTransitionCost prevFinger currFinger ascending RH interval
     = computeScaleTransitionCost prevFinger currFinger (negb ascending) LH
                                  interval.
Proof.
  pose proof (getNaturalSpan_nonneg prevFinger currFinger) as Hspan.
  destruct (scale_cost_value prevFinger currFinger ascending h interval)
    as [base [same [Hbase [Hsame ->]]]].
  split; [| split].
  - rewrite <- Zle_Qle.
    destruct (Z.gtb_spec interval (getNaturalSpan prevFinger currFinger + 2));
      lia.
  - intros Hshort. apply Qltb_ge. change 300%Q with (inject_Z 300).
    rewrite <- Zle_Qle.
    destruct (Z.gtb_spec interval (getNaturalSpan prevFinger currFinger + 2));
      lia.
  - destruct ascending; reflexivity.
Qed.

Lemma scale_cost_bounds_witness :
  Qltb 300 (cost (computeScaleTransitionCost 1 1 true RH 24)) = false.
Proof.
  apply (proj1 (proj2 (scale_cost_bounds 1 1 true RH 24))). lia.
Defined.

Lemma scale_cost_not_pruned prevFinger currFinger ascending h interval :
  interval <= 24 ->
  Qltb 300 (cost (computeScaleTransitionCost prevFinger currFinger ascending h
                                             interval)) = false.
Proof.
  intros Hshort.
  pose proof (getNaturalSpan_nonneg prevFinger currFinger) as Hspan.
  destruct (scale_cost_value prevFinger currFinger ascending h interval)
    as [base [same [Hbase [Hsame ->]]]].
  apply Qltb_ge. change 300%Q with (inject_Z 300). rewrite <- Zle_Qle.
  destruct (Z.gtb_spec interval (getNaturalSpan prevFinger currFinger + 2));
    lia.
Qed.

Lemma intervalsFrom_nth rest :
  forall prev j a b,
    nth_error (prev :: rest) j = Some a ->
    nth_error (prev :: rest) (S j) = Some b ->
    In (pitch b - pitch a) (intervalsFrom prev rest).
Proof.
  induction rest as [| curr rest IH]; intros prev j a b Ha Hb.
  - destruct j; discriminate.
  - destruct j as [| j].
    + cbn in Ha, Hb. injection Ha as <-. injection Hb as <-. now left.
    + right. now apply (IH curr j).
Qed.

Lemma scale_edge_not_pruned level notes patterns h i from to :
  detectScalePattern notes = true ->
  Forall (fun d => Z.abs d <= 24) (intervals notes) ->
  (1 <= i < length notes)%nat ->
  exists e, edgeCost level notes patterns h i from to = Some e
            /\ Qltb 300 e = false.
Proof.
  intros Hscale Hleaps Hi. unfold edgeCost.
  destruct notes as [| first rest] eqn:Enotes; [simpl in Hi; lia |].
  rewrite <- Enotes in *.
  rewrite (scale_positions notes h first rest Enotes Hscale).
  rewrite nth_error_repeat by lia. cbn [bind].
  destruct (getPatternContext_total notes i patterns) as [ctx ->]; [lia |].
  destruct (nth_error_in_range notes (i - 1)) as [a Ha]; [lia |].
  destruct (nth_error_in_range notes i) as [b Hb]; [lia |].
  rewrite Ha, Hb. cbn [bind]. eexists. split; [reflexivity |].
  rewrite scale_mode_ignores_level by reflexivity.
  apply scale_cost_not_pruned.
  rewrite Forall_forall in Hleaps. apply Hleaps.
  rewrite Enotes in *. cbn [intervals].
  apply (intervalsFrom_nth rest first (i - 1)); [exact Ha |].
  now replace (S (i - 1)) with i by lia.
Qed.

Lemma extendCost_unpruned level notes patterns h rest :
  forall i prev acc,
    (forall j from to, (i <= j < i + length rest)%nat ->
       exists e, edgeCost level notes patterns h j from to = Some e
                 /\ Qltb 300 e = false) ->
    exists c, extendCost level notes patterns h i prev rest acc = Fin c.
Proof.
  induction rest as [| to rest IH]; intros i prev acc Hedges.
  - now exists acc.
  - cbn [extendCost].
    destruct (Hedges i prev to) as [e [-> ->]]; [simpl; lia |].
    apply IH. intros j from to' Hj. apply Hedges. simpl. lia.
Qed.

(** X18.  A sequence classified as a scale in which no two consecutive notes
    are more than 24 semitones apart always gets a finite total cost: no row
    of its table is empty, whatever the pattern segments and the level. *)
Theorem scale_total_cost_finite level notes patterns h :
  detectScalePattern notes = true ->
  Forall (fun d => Z.abs d <= 24) (intervals notes) ->
  exists sol t,
    dpOptimization level notes patterns h = Some sol
    /\ totalCost sol = Fin t.
Proof.
  intros Hscale Hleaps.
  assert (Hne : notes <> []) by (intros ->; discriminate).
  destruct (dpOptimization_total level notes patterns h Hne)
    as [sol [Hsol _]].
  assert (Hadm : exists c,
             admissibleCost level notes patterns h
                            (repeat 1 (length notes)) = Fin c).
  { unfold admissibleCost.
    destruct notes as [| first rest] eqn:Enotes; [contradiction |].
    rewrite <- Enotes in *.
    destruct (nth_error_in_range notes 0) as [first' ->];
      [rewrite Enotes; simpl; lia |].
    destruct (nth_error_in_range (analyzeHandPositions notes h) 0)
      as [firstPos ->];
      [rewrite analyzeHandPositions_length, Enotes; simpl; lia |].
    replace (length notes) with (S (length rest))
      by (rewrite Enotes; reflexivity).
    cbn [repeat]. apply extendCost_unpruned.
    intros j from to Hj. apply scale_edge_not_pruned; try assumption.
    rewrite repeat_length in Hj. rewrite Enotes. simpl. lia. }
  destruct Hadm as [c Hadm].
  destruct (dpOptimization_lower level notes patterns h sol
              (repeat 1 (length notes)) c Hsol) as [t [Ht _]].
  - apply repeat_length.
  - apply Forall_forall. intros x Hx. apply repeat_spec in Hx. subst.
    simpl. tauto.
  - exact Hadm.
  - exists sol, t. split; assumption.
Qed.

Lemma scale_total_cost_finite_witness :
  exists sol t,
    dpOptimization beginner cMajorScale [] RH = Some sol
    /\ totalCost sol = Fin t.
Proof.
  apply (scale_total_cost_finite beginner cMajorScale [] RH).
  - reflexivity.
  - repeat constructor; simpl; lia.
Defined.

(** ** Stepwise runs *)

Lemma intervalsFrom_length prev rest :
  length (intervalsFrom prev rest) = length rest.
Proof.
  revert prev. induction rest as [| curr rest IH]; intros prev;
    [reflexivity |].
  simpl. now rewrite IH.
Qed.

Lemma filter_all {A : Type} (f : A -> bool) l :
  Forall (fun x => f x = true) l -> filter f l = l.
Proof.
  induction 1 as [| x l Hx _ IH]; [reflexivity |].
  simpl. now rewrite Hx, IH.
Qed.

Lemma repeatsOfPrevious_constant s l :
  s <> 0 -> Forall (fun x => x = s) l ->
  repeatsOfPrevious s l = Z.of_nat (length l).
Proof.
  intros Hs. induction 1 as [| x l -> _ IH]; [reflexivity |].
  cbn [repeatsOfPrevious length].
  apply Z.eqb_neq in Hs. rewrite Hs, Z.eqb_refl, IH. cbn [negb andb]. lia.
Qed.

Lemma run_between s rest :
  forall prev,
    Forall (fun d => d = s \/ d = 2 * s) (intervalsFrom prev rest) ->
    (s = 1 \/ s = -1) ->
    forall note, In note (prev :: rest) ->
      s * pitch prev <= s * pitch note <= s * pitch (last rest prev).
Proof.
  induction rest as [| curr rest IH]; intros prev Hsteps Hs note Hin.
  - destruct Hin as [<- | []]. simpl. lia.
  - cbn [intervalsFrom] in Hsteps.
    inversion Hsteps as [| ? ? Hd Hrest]; subst.
    rewrite last_cons.
    pose proof (IH curr Hrest Hs) as Hbetween.
    pose proof (Hbetween curr (or_introl eq_refl)) as Hcurr.
    destruct Hin as [<- | Hin].
    + nia.
    + specialize (Hbetween note Hin). nia.
Qed.

Lemma last_in {A : Type} (l : list A) d : In (last l d) (d :: l).
Proof.
  revert d. induction l as [| x l IH]; intros d; [now left |].
  rewrite last_cons. right. apply IH.
Qed.

Lemma ratio_one_exceeds m :
  0 < m -> (8 # 10 < inject_Z m / inject_Z m)%Q
           /\ (6 # 10 < inject_Z m / inject_Z m)%Q.
Proof.
  intros Hm. destruct m as [| p | p]; try lia.
  unfold Qlt, Qdiv, Qmult, Qinv, inject_Z. simpl. split; lia.
Qed.

(** X19.  A run of at least 8 notes that moves by steps of one or two
    semitones, all upwards or all downwards, is classified as a scale exactly
    when it spans more than 7 semitones from its first to its last note: a
    chromatic run of 8 notes (span 7) is not a scale, a run of 9 is. *)
Theorem stepwise_run_scale notes s first final :
  (s = 1 \/ s = -1) ->
  (8 <= length notes)%nat ->
  Forall (fun d => d = s \/ d = 2 * s) (intervals notes) ->
  nth_error notes 0 = Some first ->
  nth_error notes (length notes - 1) = Some final ->
  (detectScalePattern notes = true <-> s * (pitch final - pitch first) > 7).
Proof.
  intros Hs Hlong Hsteps Hfirst Hfinal.
  destruct notes as [| first' rest]; [discriminate |].
  injection Hfirst as ->. cbn [intervals] in Hsteps.
  assert (Hlast : final = last rest first).
  { cbn [length] in Hfinal. rewrite Nat.sub_succ, Nat.sub_0_r in Hfinal.
    clear - Hfinal. revert first Hfinal.
    induction rest as [| x rest IH]; intros first Hfinal.
    - now injection Hfinal as <-.
    - rewrite last_cons. apply IH. exact Hfinal. }
  pose proof (run_between s rest first Hsteps Hs) as Hbetween.
  rewrite detectScalePattern_criteria. unfold scaleCriteria. cbv zeta.
  assert (Hall : filter isStep (intervalsFrom first rest)
                 = intervalsFrom first rest).
  { apply filter_all. eapply Forall_impl; [| exact Hsteps].
    intros d Hd. cbv beta in Hd. unfold isStep. apply orb_true_iff.
    rewrite !Z.eqb_eq. lia. }
  assert (Hsign : Forall (fun x => x = s)
                         (map Z.sgn (intervalsFrom first rest))).
  { apply Forall_map. eapply Forall_impl; [| exact Hsteps].
    intros d Hd. cbv beta in Hd |- *. lia. }
  assert (Hstepwise : stepwisePairs (first :: rest)
                      = Z.of_nat (length (first :: rest)) - 1).
  { unfold stepwisePairs. cbn [intervals].
    rewrite Hall, intervalsFrom_length. cbn [length]. lia. }
  assert (Hsame : sameDirectionStepwise (first :: rest)
                  = Z.of_nat (length (first :: rest)) - 2).
  { unfold sameDirectionStepwise. cbn [intervals]. rewrite Hall.
    destruct (intervalsFrom first rest) as [| d ds] eqn:Eint.
    - apply (f_equal (@length Z)) in Eint.
      rewrite intervalsFrom_length in Eint. simpl in Hlong, Eint. lia.
    - cbn [map] in Hsign |- *. inversion Hsign as [| ? ? Hd Hds]; subst.
      cbn [repeatsOfPrevious].
      assert (Hs0 : Z.sgn d <> 0) by lia.
      apply Z.eqb_neq in Hs0. rewrite Hs0.
      rewrite repeatsOfPrevious_constant; [| lia | exact Hds].
      rewrite length_map.
      apply (f_equal (@length Z)) in Eint.
      rewrite intervalsFrom_length in Eint. cbn [length] in Eint |- *.
      rewrite andb_false_r. lia. }
  rewrite Hstepwise, Hsame.
  destruct (ratio_one_exceeds (Z.of_nat (length (first :: rest)) - 1))
    as [H8 _]; [cbn [length] in Hlong |- *; lia |].
  destruct (ratio_one_exceeds (Z.of_nat (length (first :: rest)) - 2))
    as [_ H6]; [cbn [length] in Hlong |- *; lia |].
  split.
  - intros [_ [_ [_ [a [b [Ha [Hb Hab]]]]]]].
    specialize (Hbetween a Ha) as Hba. specialize (Hbetween b Hb) as Hbb.
    subst final. destruct Hs; subst s; lia.
  - intros Hspan. repeat split; try assumption.
    subst final. destruct Hs as [-> | ->].
    + exists (last rest first), first. repeat split; [| now left | lia].
      apply last_in.
    + exists first, (last rest first). repeat split; [now left | | lia].
      apply last_in.
Qed.

Lemma stepwise_run_scale_witness :
  detectScalePattern chromaticDown = true
  <-> -1 * (pitch (lhNote 64) - pitch (lhNote 72)) > 7.
Proof.
  apply (stepwise_run_scale chromaticDown (-1) (lhNote 72) (lhNote 64)).
  - now right.
  - simpl. lia.
  - repeat constructor.
  - reflexivity.
  - reflexivity.
Defined.

(** ** Wide leaps *)

(** Peels the outermost [let] of the goal into a local definition. *)
Ltac peel_let :=
  match goal with
  | |- context G [let x := ?v in @?b x] =>
      let n := fresh x in
      pose (n := v);
      let g := context G [b n] in
      change g; cbv beta
  end.

(** Only the thumb and the little finger span more than 5 semitones. *)
Lemma span_cases a b :
  0 <= getNaturalSpan a b <= 5
  \/ (getNaturalSpan a b = 8 /\ ((a = 1 /\ b = 5) \/ (a = 5 /\ b = 1))).
Proof.
  unfold getNaturalSpan.
  destruct (lookupPair (Z.min a b, Z.max a b) naturalSpans) as [v |] eqn:E;
    [| lia].
  destruct (Z.eqb_spec v 0); [lia |].
  apply lookupPair_in in E. simpl in E.
  repeat (destruct E as [E | E]; [injection E as Hmin Hmax <-; lia |]).
  destruct E.
Qed.

(** Below the scale-mode guard, over a leap of 13 semitones or more: the sum
    of the rule contributions is at least 12 times the leap minus 157. *)
Lemma position_cost_leap level prevNote prevFinger currNote currFinger
      ctx h pos :
  isSCALE ctx = false ->
  13 <= Z.abs (pitch currNote - pitch prevNote) ->
  exists z,
    cost (positionTransitionCost level prevNote prevFinger currNote
                                 currFinger ctx h pos)
    = applyDifficultyAdjustment level (inject_Z z) ctx
    /\ 12 * Z.abs (pitch currNote - pitch prevNote) - 157 <= z.
Proof.
  intros Hctx Hleap.
  cbv beta delta [positionTransitionCost].
  repeat peel_let.
  exists (fst a8). split; [reflexivity |].
  pose proof (span_cases prevFinger currFinger) as Hspan.
  fold naturalSpan in Hspan.
  assert (H1 : -40 <= fst a1).
  { subst a1 a0. destruct (inPosition pos && (currFinger =? expected));
      [cbn; lia |].
    destruct (inPosition pos); cbn; lia. }
  clearbody a1.
  assert (H2 : fst a1 - 15 <= fst a2).
  { subst a2 crossing.
    destruct h;
      repeat match goal with
             | |- context [if ?c then _ else _] => destruct c
             end;
      cbn [charge fst]; lia. }
  clearbody a2 crossing.
  assert (H3 : fst a3 = fst a2 + (absInterval - naturalSpan) * 12).
  { subst a3 overStretch.
    destruct (Z.gtb_spec (absInterval - naturalSpan) 4) as [_ | Hsmall];
      [reflexivity |].
    subst absInterval interval. lia. }
  clearbody a3.
  assert (H4 : fst a3 <= fst a4).
  { subst a4.
    destruct ((currFinger =? prevFinger) && negb (interval =? 0));
      cbn [charge fst]; subst absInterval; lia. }
  clearbody a4.
  assert (H5 : fst a5 = fst a4).
  { subst a5.
    assert (Hmove : (interval =? 0) = false)
      by (apply Z.eqb_neq; subst interval; lia).
    rewrite Hmove. reflexivity. }
  clearbody a5.
  assert (H6 : fst a5 - 10 <= fst a6
               /\ (prevFinger = 1 /\ currFinger = 5 -> fst a5 - 6 <= fst a6)
               /\ (prevFinger = 5 /\ currFinger = 1 -> fst a5 - 3 <= fst a6)).
  { subst a6. split; [| split].
    - destruct (lookupPair (prevFinger, currFinger) transitionWeights)
        as [w |]; [| lia].
      destruct (w =? 0); [lia |].
      destruct (w >? 500); [cbn; lia |].
      destruct (w >? 300); [cbn; lia |].
      destruct (w >? 100); cbn; lia.
    - intros [-> ->]. cbn. lia.
    - intros [-> ->]. cbn. lia. }
  clearbody a6.
  assert (H7 : fst a6 - 5 <= fst a7
               /\ (currFinger = 1 \/ currFinger = 5 -> fst a6 <= fst a7)).
  { subst a7. split.
    - destruct (isBlackKey (pitch currNote)); [| lia].
      destruct ((currFinger =? 1) || (currFinger =? 5)); cbn; lia.
    - intros Hshort. destruct (isBlackKey (pitch currNote)); [| lia].
      replace ((currFinger =? 1) || (currFinger =? 5)) with true
        by (symmetry; apply orb_true_iff; rewrite !Z.eqb_eq; exact Hshort).
      cbn. lia. }
  clearbody a7.
  assert (H8 : fst a8 = fst a7).
  { subst a8 isScaleContext. now rewrite Hctx. }
  clearbody a8.
  subst absInterval interval.
  destruct H6 as [H6 [H6a H6b]]. destruct H7 as [H7 H7a].
  destruct Hspan as [Hspan | [Hspan [Hpair | Hpair]]].
  - lia.
  - specialize (H6a Hpair). specialize (H7a (or_intror (proj2 Hpair))). lia.
  - specialize (H6b Hpair). specialize (H7a (or_introl (proj2 Hpair))). lia.
Qed.

(** Every difficulty multiplier leaves a cost of 335 or more above the
    pruning threshold. *)
Lemma adjusted_cost_pruned level z ctx :
  335 <= z ->
  Qltb 300 (applyDifficultyAdjustment level (inject_Z z) ctx) = true.
Proof.
  intros Hz. apply Qltb_lt.
  destruct level, ctx; unfold applyDifficultyAdjustment, Qlt, Qmult, inject_Z;
    cbn [Qnum Qden]; lia.
Qed.

(** In scale mode a leap of 41 semitones or more costs more than 300. *)
Lemma scale_cost_leap prevFinger currFinger ascending h interval :
  41 <= interval ->
  Qltb 300 (cost (computeScaleTransitionCost prevFinger currFinger ascending h
                                             interval)) = true.
Proof.
  intros Hleap. apply Qltb_lt. change 300%Q with (inject_Z 300).
  destruct (span_cases prevFinger currFinger)
    as [Hspan | [Hspan [[-> ->] | [-> ->]]]].
  - destruct (scale_cost_value prevFinger currFinger ascending h interval)
      as [base [same [Hbase [Hsame ->]]]].
    rewrite <- Zlt_Qlt.
    destruct (Z.gtb_spec interval (getNaturalSpan prevFinger currFinger + 2));
      lia.
  - assert (Hover : (interval >? 8 + 2) = true) by (apply Z.gtb_lt; lia).
    unfold computeScaleTransitionCost. cbv zeta. rewrite Hspan, Hover.
    destruct h, ascending;
      cbn [Hand_eqb andb orb negb app existsb fst snd Z.eqb Pos.eqb charge
           cost];
      rewrite <- Zlt_Qlt; lia.
  - assert (Hover : (interval >? 8 + 2) = true) by (apply Z.gtb_lt; lia).
    unfold computeScaleTransitionCost. cbv zeta. rewrite Hspan, Hover.
    destruct h, ascending;
      cbn [Hand_eqb andb orb negb app existsb fst snd Z.eqb Pos.eqb charge
           cost];
      rewrite <- Zlt_Qlt; lia.
Qed.

(** X20.  A leap of 41 semitones or more between two consecutive notes is
    pruned between any two fingers: its transition cost exceeds 300 in scale
    mode and in position mode, for either hand, any position, any pattern
    context and any difficulty level. *)
Theorem wide_leap_pruned level prevNote prevFinger currNote currFinger
        ctx h pos :
  41 <= Z.abs (pitch currNote - pitch prevNote) ->
  Qltb 300 (cost (computeTransitionCost level prevNote prevFinger currNote
                                        currFinger ctx h pos)) = true.
Proof.
  intros Hleap. unfold computeTransitionCost.
  destruct (isScale pos || isSCALE ctx) eqn:Emode.
  - now apply scale_cost_leap.
  - apply orb_false_iff in Emode. destruct Emode as [_ Hctx].
    destruct (position_cost_leap level prevNote prevFinger currNote
                                 currFinger ctx h pos Hctx)
      as [z [-> Hz]]; [lia |].
    apply adjusted_cost_pruned. lia.
Qed.

Lemma wide_leap_pruned_witness :
  Qltb 300 (cost (computeTransitionCost advanced (rhNote 60) 1 (rhNote 101) 5
                                        UNKNOWN RH (mkPos 95 true false)))
  = true.
Proof.
  apply (wide_leap_pruned advanced (rhNote 60) 1 (rhNote 101) 5 UNKNOWN RH
                          (mkPos 95 true false)).
  simpl. lia.
Defined.

(** The bound of 41 is the least: at the advanced level the right hand can
    take a leap of 40 semitones up from the thumb to the little finger. *)
Lemma leap_of_forty_not_pruned :
  Qltb 300 (cost (computeTransitionCost advanced (rhNote 60) 1 (rhNote 100) 5
                                        UNKNOWN RH (mkPos 94 true false)))
  = false.
Proof. reflexivity. Qed.

(** A finite cumulative cost pays for every edge it passes. *)
Lemma extendCost_edges level notes patterns h rest :
  forall i prev acc c,
    extendCost level notes patterns h i prev rest acc = Fin c ->
    forall j, (j < length rest)%nat ->
      exists from to e,
        edgeCost level notes patterns h (i + j) from to = Some e
        /\ Qltb 300 e = false.
Proof.
  induction rest as [| to rest IH]; intros i prev acc c Hcost j Hj;
    [simpl in Hj; lia |].
  cbn [extendCost] in Hcost.
  destruct (edgeCost level notes patterns h i prev to) as [e |] eqn:Eedge;
    [| discriminate].
  destruct (Qltb 300 e) eqn:Epruned; [discriminate |].
  destruct j as [| j].
  - rewrite Nat.add_0_r. eauto.
  - destruct (IH _ _ _ _ Hcost j) as [from [to' [e' He']]];
      [simpl in Hj; lia |].
    replace (i + S j)%nat with (S i + j)%nat by lia. eauto.
Qed.

(** X21.  One leap of 41 semitones or more anywhere in a sequence makes the
    total cost of the DP optimizer [Infinity], whatever the level, the hand
    and the pattern segments: the row of the note after the leap is empty,
    and so is every row after it. *)
Theorem wide_leap_infinite_cost level notes patterns h i prevNote currNote
        sol :
  nth_error notes i = Some prevNote ->
  nth_error notes (S i) = Some currNote ->
  41 <= Z.abs (pitch currNote - pitch prevNote) ->
  dpOptimization level notes patterns h = Some sol ->
  totalCost sol = Infinity.
Proof.
  intros Hprev Hcurr Hleap Hsol.
  destruct (totalCost sol) as [t |] eqn:Etotal; [| reflexivity].
  exfalso.
  pose proof (dpOptimization_sound _ _ _ _ _ _ Hsol Etotal) as Hadm.
  assert (Hlt : (S i < length notes)%nat)
    by (apply nth_error_Some; congruence).
  assert (Hne : notes <> []) by (intros ->; simpl in Hlt; lia).
  destruct (dpOptimization_total level notes patterns h Hne)
    as [sol' [Hsol' [Hlen _]]].
  rewrite Hsol in Hsol'. injection Hsol' as <-.
  unfold admissibleCost in Hadm.
  destruct (fingering sol) as [| f0 rest]; [discriminate |].
  destruct (nth_error notes 0) as [first |]; [| discriminate].
  destruct (nth_error (analyzeHandPositions notes h) 0) as [firstPos |];
    [| discriminate].
  destruct (extendCost_edges _ _ _ _ _ _ _ _ _ Hadm i)
    as [from [to [e [Hedge Hkept]]]]; [simpl in Hlen; lia |].
  unfold edgeCost in Hedge. cbn [Nat.add] in Hedge.
  replace (S i - 1)%nat with i in Hedge by lia.
  rewrite Hprev, Hcurr in Hedge.
  destruct (nth_error (analyzeHandPositions notes h) (S i)) as [pos |];
    [| discriminate].
  destruct (getPatternContext notes (S i) patterns) as [ctx |];
    [| discriminate].
  cbn [bind] in Hedge. injection Hedge as <-.
  unfold computeTransitionCost in Hkept.
  destruct (isScale pos || isSCALE ctx) eqn:Emode.
  - rewrite scale_cost_leap in Hkept by exact Hleap. discriminate.
  - apply orb_false_iff in Emode. destruct Emode as [_ Hctx].
    destruct (position_cost_leap level prevNote from currNote to ctx h pos
                                 Hctx)
      as [z [Hcost Hz]]; [lia |].
    rewrite Hcost, adjusted_cost_pruned in Hkept by lia. discriminate.
Qed.

Lemma wide_leap_infinite_cost_witness :
  exists sol,
    dpOptimization beginner wideLeap scaleMeasureOne RH = Some sol
    /\ totalCost sol = Infinity.
Proof.
  destruct (dpOptimization_total beginner wideLeap scaleMeasureOne RH)
    as [sol [Hsol _]]; [discriminate |].
  exists sol. split; [exact Hsol |].
  apply (wide_leap_infinite_cost beginner wideLeap scaleMeasureOne RH 1
                                 (rhNote 62) (rhNote 110) sol).
  - reflexivity.
  - reflexivity.
  - simpl. lia.
  - exact Hsol.
Defined.
